(** * solve_sudoku: the cell model, the elimination cascade and the search

    A shallow embedding of [solver.py].  Python integers are [Z]; a cell's
    [possibilities] list is a [list Z] in the order the list has in the
    program; the tuple [Sudoku.cells] is a [list Cell.t] addressed by position;
    exceptions are values of [exn] carried by [result].  Sudoku objects live in
    a store, so that [copy.deepcopy] and in-place mutation can be told apart. *)

From Stdlib Require Import ZArith QArith Qpower Qabs Ascii String Sorted DecimalString DecimalNat.
From stdpp Require Import base list numbers sorting.

Local Open Scope Z_scope.

(** ** Exceptions and results *)

Inductive exn : Type :=
  | ClashException (msg : string)
  | AssertionError (msg : string)
  | ValueError
  | TypeError
  | ZeroDivisionError.

Inductive result (A : Type) : Type :=
  | Returned (a : A)
  | Raised (e : exn).

Arguments Returned {A} a.
Arguments Raised {A} e.

Definition msg_illegal_value : string := "Tried to set a cell to an illegal value".
Definition msg_only_value : string :=
  "Tried to eliminate the only possible value from a cell".
Definition msg_not_solvable : string :=
  "This sudoku is not solvable from the given state".

(** ** Raw cell values and the builtin [int] *)

(** What [Cell.__init__] may receive as [value]: an integer, [None] (the
    default), or a string. *)
Inductive pyval : Type :=
  | PyInt (z : Z)
  | PyNone
  | PyStr (s : string).

Module PyInt.

(** Characters [str.isspace] accepts among the ASCII codes. *)
Definition is_space (a : ascii) : bool :=
  let n := nat_of_ascii a in
  ((9 <=? n)%nat && (n <=? 13)%nat) || ((28 <=? n)%nat && (n <=? 32)%nat).

Definition digit_of (a : ascii) : option Z :=
  let n := nat_of_ascii a in
  if ((48 <=? n)%nat && (n <=? 57)%nat) then Some (Z.of_nat (n - 48)) else None.

Definition is_underscore (a : ascii) : bool := (nat_of_ascii a =? 95)%nat.

(** Decimal digits, single underscores allowed between two digits. *)
Fixpoint digits (after_digit : bool) (acc : Z) (s : list ascii) : option Z :=
  match s with
  | [] => if after_digit then Some acc else None
  | a :: s' =>
      match digit_of a with
      | Some d => digits true (10 * acc + d) s'
      | None =>
          if is_underscore a && after_digit then digits false acc s' else None
      end
  end.

Fixpoint lstrip (s : list ascii) : list ascii :=
  match s with
  | a :: s' => if is_space a then lstrip s' else s
  | [] => []
  end.

Definition strip (s : list ascii) : list ascii :=
  rev (lstrip (rev (lstrip s))).

Definition signed (s : list ascii) : option Z :=
  match s with
  | a :: s' =>
      if (nat_of_ascii a =? 45)%nat then Z.opp <$> digits false 0 s'
      else if (nat_of_ascii a =? 43)%nat then digits false 0 s'
      else digits false 0 s
  | [] => None
  end.

(** Characters [int] skips around a literal, C's [isspace]: tab to carriage
    return and the space, not the separators 28 to 31 that [str.strip] drops. *)
Definition is_c_space (a : ascii) : bool :=
  let n := nat_of_ascii a in
  ((9 <=? n)%nat && (n <=? 13)%nat) || (n =? 32)%nat.

Fixpoint skip_c_space (s : list ascii) : list ascii :=
  match s with
  | a :: s' => if is_c_space a then skip_c_space s' else s
  | [] => []
  end.

Definition trim_c_space (s : list ascii) : list ascii :=
  rev (skip_c_space (rev (skip_c_space s))).

(** The default of [sys.get_int_max_str_digits()]. *)
Definition max_str_digits : nat := 4300.

Fixpoint digit_count (s : list ascii) : nat :=
  match s with
  | a :: s' =>
      match digit_of a with
      | Some _ => S (digit_count s')
      | None => digit_count s'
      end
  | [] => O
  end.

(** [int(s)] for an ASCII string in base 10; [None] is [ValueError], raised
    for text that is not a literal and for a literal of more than
    [max_str_digits] digits. *)
Definition of_string (s : string) : option Z :=
  let l := list_ascii_of_string s in
  if (max_str_digits <? digit_count l)%nat then None else signed (trim_c_space l).

(** [int(value)]: the identity on integers, [TypeError] on [None], a parse
    on strings. *)
Definition int (v : pyval) : result Z :=
  match v with
  | PyInt z => Returned z
  | PyNone => Raised TypeError
  | PyStr s =>
      match of_string s with
      | Some z => Returned z
      | None => Raised ValueError
      end
  end.

End PyInt.

(** [list(range(lo, hi))]. *)
Definition py_range (lo hi : Z) : list Z :=
  (fun k : nat => lo + Z.of_nat k) <$> seq 0 (Z.to_nat (hi - lo)).

(** ** The cell model *)

Module Cell.

Record t : Type := mk {
  possibilities : list Z;
  row : Z;
  col : Z;
  subgrid : Z * Z
}.

Definition with_possibilities (c : t) (ps : list Z) : t :=
  mk ps (row c) (col c) (subgrid c).

(** [Cell.__init__]: only [ValueError] is caught around [int(value)]; the
    floor divisions come last and raise on a zero order. *)
Definition init (row col sudoku_order : Z) (value : pyval) : result t :=
  let value' :=
    match PyInt.int value with
    | Raised ValueError => Returned 0
    | r => r
    end in
  match value' with
  | Raised e => Raised e
  | Returned v =>
      let ps :=
        if decide (v = 0) then py_range 1 (sudoku_order ^ 2 + 1) else [v] in
      if decide (sudoku_order = 0) then Raised ZeroDivisionError
      else Returned (mk ps row col (row `div` sudoku_order, col `div` sudoku_order))
  end.

(** The [value] property. *)
Definition value (c : t) : Z :=
  match possibilities c with
  | [v] => v
  | _ => 0
  end.

(** The [value] setter. *)
Definition set_value (c : t) (val : Z) : result t :=
  if decide (val ∈ possibilities c) then Returned (with_possibilities c [val])
  else Raised (ClashException msg_illegal_value).

(** [list.remove]: drops the first occurrence; [None] is [ValueError]. *)
Fixpoint list_remove (v : Z) (l : list Z) : option (list Z) :=
  match l with
  | [] => None
  | x :: l' => if decide (x = v) then Some l' else cons x <$> list_remove v l'
  end.

(** [Cell.eliminate]: the cell after the call and the returned integer. *)
Definition eliminate (c : t) (v : Z) : result (t * Z) :=
  if bool_decide (length (possibilities c) = 1%nat)
     && bool_decide (possibilities c !! 0%nat = Some v)
  then Raised (ClashException msg_only_value)
  else
    match list_remove v (possibilities c) with
    | Some ps' => let c' := with_possibilities c ps' in Returned (c', value c')
    | None => Returned (c, 0)
    end.

(** [Cell.matches]. *)
Definition matches (c other : t) : bool :=
  bool_decide (row c = row other)
  || bool_decide (col c = col other)
  || bool_decide (subgrid c = subgrid other).

(** [Cell.__eq__]. *)
Definition eqb (c other : t) : bool :=
  bool_decide (row c = row other) && bool_decide (col c = col other).

End Cell.

(** ** Building a puzzle state from an array *)

Definition msg_not_square_number : string := "Sudoku width is not a square number".
Definition msg_not_square : string := "Sudoku is not square".
Definition msg_illegal_numbers : string := "Row has illegal numbers in it".

(** Membership of a raw value in [set(range(n + 1))]. *)
Definition in_valid_numbers (n : Z) (v : pyval) : bool :=
  match v with
  | PyInt z => bool_decide (0 <= z <= n)
  | _ => false
  end.

Fixpoint validate_rows (n_rows : nat) (sudoku_order : Z) (array : list (list pyval))
  : result unit :=
  match array with
  | [] => Returned ()
  | r :: array' =>
      if negb (bool_decide (length r = n_rows)) then Raised (AssertionError msg_not_square)
      else if negb (forallb (in_valid_numbers (sudoku_order ^ 2)) r)
           then Raised (AssertionError msg_illegal_numbers)
           else validate_rows n_rows sudoku_order array'
  end.

(** [validate_array]; [sqrt(n_rows) % 1] is zero exactly on perfect squares. *)
Definition validate_array (array : list (list pyval)) : result Z :=
  let n_rows := length array in
  let sudoku_order := Z.sqrt (Z.of_nat n_rows) in
  if negb (bool_decide (sudoku_order * sudoku_order = Z.of_nat n_rows))
  then Raised (AssertionError msg_not_square_number)
  else
    match validate_rows n_rows sudoku_order array with
    | Raised e => Raised e
    | Returned _ => Returned sudoku_order
    end.

(** Runs the constructor calls of a generator from left to right. *)
Fixpoint collect {A : Type} (l : list (result A)) : result (list A) :=
  match l with
  | [] => Returned []
  | Raised e :: _ => Raised e
  | Returned a :: l' =>
      match collect l' with
      | Returned al => Returned (a :: al)
      | Raised e => Raised e
      end
  end.

Definition cells_from_arr (arr : list (list pyval)) (order : Z) : result (list Cell.t) :=
  collect
    (concat
       (imap (fun row_idx r =>
                imap (fun col_idx value =>
                        Cell.init (Z.of_nat row_idx) (Z.of_nat col_idx) order value) r)
             arr)).

(** ** Floats *)

Module Float.

(** A finite binary64 number that is not negative, [mant * 2 ^ exp], in the
    form the format stores it: [mant < 2 ^ 53], and [2 ^ 52 <= mant] unless
    [exp] is the least exponent, -1074. *)
Record t : Type := mk { mant : Z; exp : Z }.

Definition zero : t := mk 0 (-1074).

(** [a / b] on integers with [0 <= a <= b] and [0 < b]: true division rounds
    the exact quotient once, to the nearest binary64 number, and to the one
    with an even mantissa when two are as near.  With [k] such that
    [2 ^ -k <= a / b < 2 ^ (1 - k)], the numbers around the quotient are the
    multiples of [2 ^ -s], [s] being [52 + k], or 1074 below the normal
    range. *)
Definition truediv (a b : Z) : t :=
  if a =? 0 then zero
  else
    let k0 := Z.log2 b - Z.log2 a in
    let k := if b <=? a * 2 ^ k0 then k0 else k0 + 1 in
    let s := 52 + Z.min k 1022 in
    let m0 := (a * 2 ^ s) `div` b in
    let r := (a * 2 ^ s) `mod` b in
    let m := if 2 * r <? b then m0
             else if b <? 2 * r then m0 + 1
             else if Z.even m0 then m0 else m0 + 1 in
    if m =? 2 ^ 53 then mk (2 ^ 52) (1 - s) else mk m (- s).

End Float.

(** ** The puzzle state *)

Module Sudoku.

(** [Sudoku.__init__]; the printing template plays no part in solving. *)
Definition init (arr : list (list pyval)) : result (list Cell.t) :=
  match validate_array arr with
  | Raised e => Raised e
  | Returned sudoku_order => cells_from_arr arr sudoku_order
  end.

Definition is_solved (cells : list Cell.t) : bool :=
  forallb (fun c => negb (bool_decide (Cell.value c = 0))) cells.

Definition determined (cells : list Cell.t) : nat :=
  length (filter (fun c => Cell.value c <> 0) cells).

(** [Sudoku.progress]: the float that the true division of the two counts
    gives. *)
Definition progress (cells : list Cell.t) : result Float.t :=
  match cells with
  | [] => Raised ZeroDivisionError
  | _ => Returned (Float.truediv (Z.of_nat (determined cells)) (Z.of_nat (length cells)))
  end.

(** The body of the [for] loop of [Sudoku.eliminate], over the positions
    still to visit; [rec] is the recursive call. *)
Fixpoint eliminate_loop (rec : list Cell.t -> nat -> option (list Cell.t * result unit))
    (cell : Cell.t) (value : Z) (idxs : list nat) (cells : list Cell.t)
  : option (list Cell.t * result unit) :=
  match idxs with
  | [] => Some (cells, Returned ())
  | idx :: rest =>
      match cells !! idx with
      | None => Some (cells, Returned ())
      | Some other_cell =>
          if Cell.eqb cell other_cell then eliminate_loop rec cell value rest cells
          else if Cell.matches cell other_cell then
            match Cell.eliminate other_cell value with
            | Raised e => Some (cells, Raised e)
            | Returned (other_cell', newly_set) =>
                let cells' := <[idx := other_cell']> cells in
                if decide (newly_set = 0) then eliminate_loop rec cell value rest cells'
                else
                  match rec cells' idx with
                  | Some (cells'', Returned _) =>
                      eliminate_loop rec cell value rest cells''
                  | r => r
                  end
            end
          else eliminate_loop rec cell value rest cells
      end
  end.

(** [Sudoku.eliminate], the cell given by its position in [cells]; [None]
    when [fuel] nested calls did not suffice. *)
Fixpoint eliminate (fuel : nat) (cells : list Cell.t) (i : nat)
  : option (list Cell.t * result unit) :=
  match fuel with
  | O => None
  | S fuel' =>
      match cells !! i with
      | None => Some (cells, Returned ())
      | Some cell =>
          let value := Cell.value cell in
          if decide (value = 0) then Some (cells, Returned ())
          else eliminate_loop (eliminate fuel') cell value (seq 0 (length cells)) cells
      end
  end.

(** The first [for] loop of [_easy_step]. *)
Fixpoint easy_pass (fuel : nat) (idxs : list nat) (cells : list Cell.t)
  : option (list Cell.t * result unit) :=
  match idxs with
  | [] => Some (cells, Returned ())
  | i :: rest =>
      match cells !! i with
      | None => Some (cells, Returned ())
      | Some cell =>
          if decide (Cell.value cell = 0) then easy_pass fuel rest cells
          else
            match eliminate fuel cells i with
            | Some (cells', Returned _) => easy_pass fuel rest cells'
            | r => r
            end
      end
  end.

(** The list handed to [min]: position and candidates of the open cells. *)
Definition open_cells (cells : list Cell.t) : list (nat * list Z) :=
  filter (fun x => (1 < length x.2)%nat)
         (imap (fun cell_idx cell => (cell_idx, Cell.possibilities cell)) cells).

Definition key (x : nat * list Z) : nat * nat := (length x.2, x.1).

(** Tuple comparison [a < b]. *)
Definition key_ltb (a b : nat * nat) : bool :=
  (a.1 <? b.1)%nat || ((a.1 =? b.1)%nat && (a.2 <? b.2)%nat).

(** The builtin [min(..., key=...)]: the first element of least key. *)
Fixpoint min_from (best : nat * list Z) (l : list (nat * list Z)) : nat * list Z :=
  match l with
  | [] => best
  | x :: l' => min_from (if key_ltb (key x) (key best) then x else best) l'
  end.

Definition py_min (l : list (nat * list Z)) : result (nat * list Z) :=
  match l with
  | [] => Raised ValueError
  | x :: l' => Returned (min_from x l')
  end.

Definition _easy_step (fuel : nat) (cells : list Cell.t)
  : option (list Cell.t * result (option (nat * list Z))) :=
  if is_solved cells then Some (cells, Returned None)
  else
    match easy_pass fuel (seq 0 (length cells)) cells with
    | None => None
    | Some (cells', Raised e) => Some (cells', Raised e)
    | Some (cells', Returned _) =>
        if negb (is_solved cells') then
          match py_min (open_cells cells') with
          | Raised e => Some (cells', Raised e)
          | Returned x => Some (cells', Returned (Some x))
          end
        else Some (cells', Returned None)
    end.

(** The store of Sudoku objects: a reference is a position, each object
    owns its cells, and allocation appends. *)
Abbreviation store := (list (list Cell.t)).

(** [copy.deepcopy(sudoku)]. *)
Definition deepcopy (h : store) (r : nat) : option (store * nat) :=
  cells ← h !! r; Some (h ++ [cells], length h).

(** [sudoku.cells[cell_idx].value = val]. *)
Definition assign (h : store) (r cell_idx : nat) (val : Z) : option (store * result unit) :=
  cells ← h !! r;
  cell ← cells !! cell_idx;
  match Cell.set_value cell val with
  | Raised e => Some (h, Raised e)
  | Returned cell' => Some (<[r := <[cell_idx := cell']> cells]> h, Returned ())
  end.

(** The second [for] loop of [solve]; [rec] is [new_sudoku2.solve]. *)
Fixpoint solve_loop (rec : store -> nat -> option (store * result nat))
    (new_sudoku cell_idx : nat) (possibilities : list Z) (h : store)
  : option (store * result nat) :=
  match possibilities with
  | [] => Some (h, Raised (ClashException msg_not_solvable))
  | possibility :: rest =>
      '(h1, new_sudoku2) ← deepcopy h new_sudoku;
      '(h2, set) ← assign h1 new_sudoku2 cell_idx possibility;
      match set with
      | Raised e => Some (h2, Raised e)
      | Returned _ =>
          match rec h2 new_sudoku2 with
          | Some (h3, Raised (ClashException _)) =>
              solve_loop rec new_sudoku cell_idx rest h3
          | r => r
          end
      end
  end.

(** [Sudoku.solve]; [callback] tells whether a callback was passed, one
    that returns normally whatever progress it is given. *)
Fixpoint solve (fuel : nat) (callback : bool) (h : store) (self : nat)
  : option (store * result nat) :=
  match fuel with
  | O => None
  | S fuel' =>
      '(h1, new_sudoku) ← deepcopy h self;
      cells ← h1 !! new_sudoku;
      '(cells', ret_val) ← _easy_step fuel cells;
      let h2 := <[new_sudoku := cells']> h1 in
      match ret_val with
      | Raised e => Some (h2, Raised e)
      | Returned ret_val =>
          match (if callback then progress cells' else Returned Float.zero) with
          | Raised e => Some (h2, Raised e)
          | Returned _ =>
              match ret_val with
              | None => Some (h2, Returned new_sudoku)
              | Some (cell_idx, possibilities) =>
                  solve_loop (solve fuel' callback) new_sudoku cell_idx possibilities h2
              end
          end
      end
  end.

End Sudoku.

(** ** Text: the printing template and [__str__] *)

Module Text.

(** [sep.join(pieces)]. *)
Fixpoint join (sep : list ascii) (pieces : list (list ascii)) : list ascii :=
  match pieces with
  | [] => []
  | [p] => p
  | p :: ps => p ++ sep ++ join sep ps
  end.

(** [s * n] on a string. *)
Definition times (s : list ascii) (n : nat) : list ascii := concat (replicate n s).

(** [s.count(c)] for a single character. *)
Definition count (c : ascii) (s : list ascii) : nat :=
  length (filter (fun a => Ascii.eqb a c = true) s).

(** [str(z)]: the decimal digits, after a minus sign for a negative number. *)
Definition of_nat (n : nat) : list ascii :=
  list_ascii_of_string (DecimalString.NilZero.string_of_uint (Nat.to_uint n)).

Definition of_int (z : Z) : list ascii :=
  if (z <? 0)%Z then "-"%char :: of_nat (Z.to_nat (- z)) else of_nat (Z.to_nat z).

(** What [str.format] raises. *)
Inductive format_exn : Type := IndexError | FormatValueError | KeyError.

Inductive formatted : Type :=
  | Formatted (s : list ascii)
  | FormatRaised (e : format_exn).

Definition emit (l : list ascii) (r : formatted) : formatted :=
  match r with
  | Formatted s => Formatted (l ++ s)
  | FormatRaised e => FormatRaised e
  end.

(** Automatic or manual field numbering, once the first field is seen. *)
Inductive numbering : Type := Unset | Auto (next : nat) | Manual.

Fixpoint index_of (acc : nat) (name : list ascii) : option nat :=
  match name with
  | [] => Some acc
  | a :: name' =>
      match PyInt.digit_of a with
      | Some d => index_of (10 * acc + Z.to_nat d) name'
      | None => None
      end
  end.

(** The argument a replacement field stands for: [{}] takes the next one,
    [{N}] the one at [N]; mixing the two is refused.  Fields with other
    content (names, conversions, format specs) are not used by this program
    and are reported as [KeyError]. *)
Definition field_arg (args : list (list ascii)) (num : numbering) (name : list ascii)
  : format_exn + list ascii * numbering :=
  match name with
  | [] =>
      match num with
      | Manual => inl FormatValueError
      | Unset => match args !! 0%nat with
                 | Some a => inr (a, Auto 1)
                 | None => inl IndexError
                 end
      | Auto k => match args !! k with
                  | Some a => inr (a, Auto (S k))
                  | None => inl IndexError
                  end
      end
  | _ =>
      match index_of 0 name with
      | None => inl KeyError
      | Some k =>
          match num with
          | Auto _ => inl FormatValueError
          | _ => match args !! k with
                 | Some a => inr (a, Manual)
                 | None => inl IndexError
                 end
          end
      end
  end.

(** The scan of [str.format]: [field] holds the characters read since an
    opening brace, last first. *)
Fixpoint format_go (args : list (list ascii)) (num : numbering)
    (field : option (list ascii)) (s : list ascii) {struct s} : formatted :=
  match s with
  | [] =>
      match field with
      | None => Formatted []
      | Some _ => FormatRaised FormatValueError
      end
  | a :: s' =>
      match field with
      | Some name =>
          if Ascii.eqb a "}" then
            match field_arg args num (rev name) with
            | inl e => FormatRaised e
            | inr (arg, num') => emit arg (format_go args num' None s')
            end
          else if Ascii.eqb a "{" then FormatRaised FormatValueError
          else format_go args num (Some (a :: name)) s'
      | None =>
          if Ascii.eqb a "{" then
            match s' with
            | b :: s'' =>
                if Ascii.eqb b "{" then emit ["{"%char] (format_go args num None s'')
                else format_go args num (Some []) s'
            | [] => FormatRaised FormatValueError
            end
          else if Ascii.eqb a "}" then
            match s' with
            | b :: s'' =>
                if Ascii.eqb b "}" then emit ["}"%char] (format_go args num None s'')
                else FormatRaised FormatValueError
            | [] => FormatRaised FormatValueError
            end
          else emit [a] (format_go args num None s')
      end
  end.

(** [template.format] applied to the arguments, already turned into text. *)
Definition format (template : list ascii) (args : list (list ascii)) : formatted :=
  format_go args Unset None template.

End Text.

Definition CELL_VSEP : list ascii := list_ascii_of_string "".
Definition BLOCK_VSEP : list ascii := list_ascii_of_string "|".
Definition CELL_HSEP : list ascii := list_ascii_of_string "".
Definition BLOCK_HSEP : list ascii := list_ascii_of_string "-".
Definition PAD : list ascii := list_ascii_of_string " ".

(** ['\n{}\n'.format(SEP * row_len) if SEP else '\n']. *)
Definition hline (sep : list ascii) (row_len : nat) : Text.formatted :=
  match sep with
  | [] => Text.Formatted (list_ascii_of_string (String "010" ""))
  | _ => Text.format (list_ascii_of_string (String "010" (String "{" (String "}" (String "010" "")))))
                     [Text.times sep row_len]
  end.

(** [create_template]. *)
Definition create_template (sudoku_order : Z) : Text.formatted :=
  match Text.format (list_ascii_of_string "{0}{{}}{0}") [PAD] with
  | Text.FormatRaised e => Text.FormatRaised e
  | Text.Formatted cell =>
      let block_row := Text.join CELL_VSEP (replicate (Z.to_nat sudoku_order) cell) in
      let row := Text.join BLOCK_VSEP (replicate (Z.to_nat sudoku_order) block_row) in
      let row_len := (length row - Text.count "}" row)%nat in
      match hline CELL_HSEP row_len with
      | Text.FormatRaised e => Text.FormatRaised e
      | Text.Formatted cell_hline =>
          let block_rows := Text.join cell_hline (replicate (Z.to_nat sudoku_order) row) in
          match hline BLOCK_HSEP row_len with
          | Text.FormatRaised e => Text.FormatRaised e
          | Text.Formatted block_hline =>
              Text.Formatted
                (Text.join block_hline (replicate (Z.to_nat sudoku_order) block_rows))
          end
      end
  end.

(** [cell.value or self.placeholder], as [format] renders it. *)
Definition cell_text (c : Cell.t) : list ascii :=
  if decide (Cell.value c = 0) then list_ascii_of_string " "
  else Text.of_int (Cell.value c).

(** [Sudoku.__str__], on the template the object was built with. *)
Definition Sudoku_str (template : list ascii) (cells : list Cell.t) : Text.formatted :=
  Text.format template (cell_text <$> cells).

(** ** Text: loading a grid *)

Definition TAB : ascii := "009"%char.
Definition COMMA : ascii := ","%char.
Definition NEWLINE : ascii := "010"%char.

(** [s.split(sep)] for a one-character separator: one piece more than there
    are separators, empty pieces kept. *)
Fixpoint split (sep : ascii) (s : list ascii) : list (list ascii) :=
  match s with
  | [] => [[]]
  | a :: s' =>
      if Ascii.eqb a sep then [] :: split sep s'
      else
        match split sep s' with
        | p :: ps => (a :: p) :: ps
        | [] => [[a]]
        end
  end.

(** [c in s]. *)
Definition contains (c : ascii) (s : list ascii) : bool := existsb (Ascii.eqb c) s.

(** The [split] that [load_str] picks by looking at the whole string. *)
Definition split_row (arr_str row : list ascii) : list (list ascii) :=
  if contains TAB arr_str then split TAB (PyInt.strip row)
  else if contains COMMA arr_str then split COMMA (PyInt.strip row)
  else (fun a => [a]) <$> row.

(** [int(item.strip()) if item else 0]. *)
Definition item_value (item : list ascii) : result Z :=
  match item with
  | [] => Returned 0
  | _ =>
      match PyInt.signed (PyInt.strip (PyInt.strip item)) with
      | Some z => Returned z
      | None => Raised ValueError
      end
  end.

(** [load_str]. *)
Definition load_str (arr_str : list ascii) : result (list (list Z) * Z) :=
  match collect ((fun row => collect (item_value <$> split_row arr_str row))
                   <$> split NEWLINE arr_str) with
  | Raised e => Raised e
  | Returned array =>
      match validate_array (map (map PyInt) array) with
      | Raised e => Raised e
      | Returned sudoku_order => Returned (array, sudoku_order)
      end
  end.

(** [load_file], the file given by what [f.read()] returns. *)
Definition load_file (contents : list ascii) : result (list (list Z) * Z) :=
  load_str (PyInt.strip contents).

(** [Sudoku.from_file], the file given by its contents. *)
Definition Sudoku_from_file (contents : list ascii) : result (list Cell.t) :=
  match load_file contents with
  | Raised e => Raised e
  | Returned (arr, _) => Sudoku.init (map (map PyInt) arr)
  end.

(** * Notions used in the statements *)

(** ** Measure and relations between states *)

(** Number of candidates left in a state, all cells together. *)
Definition total (cells : list Cell.t) : nat :=
  sum_list ((fun c => length (Cell.possibilities c)) <$> cells).

(** [c'] is [c] with some candidates dropped: same place, candidates kept in
    their order. *)
Definition cell_shrinks (c c' : Cell.t) : Prop :=
  Cell.row c' = Cell.row c /\ Cell.col c' = Cell.col c
  /\ Cell.subgrid c' = Cell.subgrid c
  /\ Cell.possibilities c' `sublist_of` Cell.possibilities c.

Definition shrinks : relation (list Cell.t) := Forall2 cell_shrinks.

(** The only exception the cascade raises. *)
Definition clash_only {A : Type} (r : result A) : Prop :=
  forall e, r = Raised e -> e = ClashException msg_only_value.

(** Every candidate list of the state is in strictly ascending order. *)
Definition ascending (cells : list Cell.t) : Prop :=
  Forall (fun c => StronglySorted Z.lt (Cell.possibilities c)) cells.

(** ** Well-formed states and what propagation establishes *)

(** Distinct positions hold cells that [Cell.__eq__] tells apart. *)
Definition placed (cells : list Cell.t) : Prop :=
  forall i j ci cj, cells !! i = Some ci -> cells !! j = Some cj ->
                    Cell.eqb ci cj = true -> i = j.

(** No candidate list is empty. *)
Definition nonempty (cells : list Cell.t) : Prop :=
  Forall (fun c => Cell.possibilities c <> []) cells.

(** The states the constructor builds and the solver keeps: cells told apart
    by their place, candidates ascending, none of them 0, no list empty. *)
Definition well_formed (cells : list Cell.t) : Prop :=
  placed cells /\ ascending cells
  /\ Forall (fun c => 0 ∉ Cell.possibilities c) cells
  /\ nonempty cells.

(** The value of the determined cell at position [k] is no longer a candidate
    of any other cell that shares a row, column or block with it. *)
Definition closed_at (cells : list Cell.t) (k : nat) : Prop :=
  forall ck v, cells !! k = Some ck -> Cell.possibilities ck = [v] ->
  forall j cj, cells !! j = Some cj -> j <> k -> Cell.matches ck cj = true ->
               v ∉ Cell.possibilities cj.

(** Every position outside [pending] is closed. *)
Definition closed_but (pending : nat -> Prop) (cells : list Cell.t) : Prop :=
  forall k, ~ pending k -> closed_at cells k.

(** No two distinct cells sharing a row, column or block hold the same
    value. *)
Definition conflict_free (cells : list Cell.t) : Prop :=
  forall i j ci cj, cells !! i = Some ci -> cells !! j = Some cj -> i <> j ->
                    Cell.matches ci cj = true ->
                    Cell.value ci <> 0 -> Cell.value ci <> Cell.value cj.

(** The state [solve] may be called on: well formed, and free of conflicts
    in case every cell already has a value. *)
Definition solvable_input (cells : list Cell.t) : Prop :=
  well_formed cells /\ (Sudoku.is_solved cells = true -> conflict_free cells).

(** What [solve] owes for the object it returns. *)
Definition solved_from (cells : list Cell.t) (h : Sudoku.store) (r : nat) : Prop :=
  exists cells_r, h !! r = Some cells_r /\ Sudoku.is_solved cells_r = true
                  /\ conflict_free cells_r /\ shrinks cells cells_r.

(** ** Completions of a state *)

(** [sol] gives every cell one of its candidates, and no two cells at distinct
    positions that share a row, column or block the same one. *)
Definition completes (cells : list Cell.t) (sol : list Z) : Prop :=
  length sol = length cells
  /\ (forall i c v, cells !! i = Some c -> sol !! i = Some v ->
                    v ∈ Cell.possibilities c)
  /\ (forall i j ci cj vi vj,
        cells !! i = Some ci -> cells !! j = Some cj ->
        sol !! i = Some vi -> sol !! j = Some vj -> i <> j ->
        Cell.matches ci cj = true -> vi <> vj).

(** ** The layout of the printing template *)

(** A template cut into literal text and replacement fields. *)
Inductive token : Type :=
  | Lit (l : list ascii)
  | Field.

Definition token_text (t : token) : list ascii :=
  match t with
  | Lit l => l
  | Field => list_ascii_of_string "{}"
  end.

Definition flatten (ts : list token) : list ascii := concat (token_text <$> ts).

Fixpoint fields (ts : list token) : nat :=
  match ts with
  | [] => 0%nat
  | Lit _ :: ts' => fields ts'
  | Field :: ts' => S (fields ts')
  end.

(** The text in which the fields are replaced, in order, by the arguments. *)
Fixpoint fill (ts : list token) (args : list (list ascii)) : list ascii :=
  match ts with
  | [] => []
  | Lit l :: ts' => l ++ fill ts' args
  | Field :: ts' =>
      match args with
      | a :: args' => a ++ fill ts' args'
      | [] => fill ts' []
      end
  end.

Definition brace_free (l : list ascii) : Prop :=
  Forall (fun a => a <> "{"%char /\ a <> "}"%char) l.

Definition literal_ok (t : token) : Prop :=
  match t with
  | Lit l => brace_free l
  | Field => True
  end.

(** Pieces joined by a separator, as [join] does on text. *)
Fixpoint join_tokens (sep : list token) (pieces : list (list token)) : list token :=
  match pieces with
  | [] => []
  | [p] => p
  | p :: ps => p ++ sep ++ join_tokens sep ps
  end.

Definition newline : list ascii := ["010"%char].

(** The template of order [o]: [o] bands separated by a line of dashes, each
    band [o] rows, each row [o] groups separated by a bar, each group [o]
    padded fields. *)
Definition template_tokens (o : nat) : list token :=
  let cell := [Lit PAD; Field; Lit PAD] in
  let block_row := join_tokens [] (replicate o cell) in
  let row := join_tokens [Lit BLOCK_VSEP] (replicate o block_row) in
  let block_rows := join_tokens [Lit newline] (replicate o row) in
  join_tokens [Lit (newline ++ Text.times BLOCK_HSEP (3 * o * o + o - 1) ++ newline)]
              (replicate o block_rows).

(** ** Tables as text *)

(** A table of numbers written one row per line, the numbers of a row in
    decimal with [sep] between them. *)
Definition table_text (sep : list ascii) (arr : list (list Z)) : list ascii :=
  Text.join [NEWLINE] ((fun row => Text.join sep (Text.of_int <$> row)) <$> arr).

Definition is_digit (a : ascii) : Prop := is_Some (PyInt.digit_of a).

(** Text that starts with a digit and ends with a digit. *)
Definition digit_ended (l : list ascii) : Prop :=
  exists a l1 l2 b, l = a :: l1 /\ l = l2 ++ [b] /\ is_digit a /\ is_digit b.

(** A line with a blank between two commas. *)
Definition text_blank_field : list ascii := list_ascii_of_string "1, ,3".

(** ** The steps of the search loop *)

(** Steps a and b of one iteration: the store and the reference of the copy
    in which the branch cell was given the value [possibility]. *)
Definition branch (h : Sudoku.store) (new_sudoku cell_idx : nat) (possibility : Z)
  : option (Sudoku.store * nat) :=
  '(h1, new_sudoku2) ← Sudoku.deepcopy h new_sudoku;
  '(h2, set) ← Sudoku.assign h1 new_sudoku2 cell_idx possibility;
  match set with
  | Returned _ => Some (h2, new_sudoku2)
  | Raised _ => None
  end.

(** The store reached when every value of [tried] was tried in turn and the
    recursive call on its copy raised the clash. *)
Fixpoint all_clash (rec : Sudoku.store -> nat -> option (Sudoku.store * result nat))
    (new_sudoku cell_idx : nat) (tried : list Z) (h : Sudoku.store)
  : option Sudoku.store :=
  match tried with
  | [] => Some h
  | possibility :: rest =>
      '(h1, new_sudoku2) ← branch h new_sudoku cell_idx possibility;
      match rec h1 new_sudoku2 with
      | Some (h2, Raised (ClashException _)) => all_clash rec new_sudoku cell_idx rest h2
      | _ => None
      end
  end.

(** ** Cell initialisation in the words of the specification *)

(** The candidate set of a new cell as the specification words it: the given
    value alone when it is an integer of [1, order²], the full range in every
    other case. *)
Definition spec_init_candidates (order : Z) (rawValue : pyval) : list Z :=
  match rawValue with
  | PyInt z => if bool_decide (1 <= z <= order ^ 2) then [z] else py_range 1 (order ^ 2 + 1)
  | _ => py_range 1 (order ^ 2 + 1)
  end.

(** The number a float stands for. *)
Definition float_value (f : Float.t) : Q := inject_Z (Float.mant f) * 2 ^ Float.exp f.

(** A string of ASCII characters. *)
Definition ascii_string (s : string) : Prop :=
  Forall (fun a => (nat_of_ascii a < 128)%nat) (list_ascii_of_string s).

(** A raw value that is an integer or an ASCII string. *)
Definition int_or_ascii (v : pyval) : Prop :=
  match v with
  | PyInt _ => True
  | PyNone => False
  | PyStr s => ascii_string s
  end.

(** Sample strings: a digit between two spaces, and between two of the
    separators that [str.strip] drops and [int] does not. *)
Definition str_spaced : string := " 4 ".
Definition str_separated : string := String "028" (String "4" (String "031" EmptyString)).

(** ** Sample grids *)

Definition grid_of (l : list (list Z)) : list (list pyval) := map (map PyInt) l.

Definition cells_of (l : list (list Z)) : list Cell.t :=
  match Sudoku.init (grid_of l) with
  | Returned cells => cells
  | Raised _ => []
  end.

(** The state [_easy_step] leaves. *)
Definition after_step (fuel : nat) (cells : list Cell.t) : list Cell.t :=
  match Sudoku._easy_step fuel cells with
  | Some (cells', _) => cells'
  | None => []
  end.

(** An order-2 grid with one row given. *)
Definition grid_one_row : list (list Z) :=
  [[1; 2; 3; 4]; [0; 0; 0; 0]; [0; 0; 0; 0]; [0; 0; 0; 0]].

(** An order-2 grid with two givens in the first row: after the pass the two
    other cells of that row, and the two cells below the givens, are each left
    with two candidates. *)
Definition grid_two_given : list (list Z) :=
  [[1; 2; 0; 0]; [0; 0; 0; 0]; [0; 0; 0; 0]; [0; 0; 0; 0]].

(** An order-2 grid on which the search has to guess, and guesses wrong
    first. *)
Definition grid_guess : list (list Z) :=
  [[0; 0; 0; 2]; [0; 0; 0; 0]; [3; 0; 0; 0]; [0; 0; 4; 0]].

Definition guess_store : Sudoku.store :=
  [cells_of grid_guess; after_step 65 (cells_of grid_guess)].

Definition guess_after_clash : Sudoku.store :=
  default [] (all_clash (Sudoku.solve 64 false) 1 0 [1] guess_store).

Definition guess_branch : Sudoku.store * nat :=
  default ([], 0%nat) (branch guess_after_clash 1 0 4).

Definition guess_final : Sudoku.store * result nat :=
  default ([], Raised ValueError)
          (Sudoku.solve 64 false guess_branch.1 guess_branch.2).

(** A completely filled order-2 grid whose first row holds 1 twice. *)
Definition grid_full_clash : list (list Z) :=
  [[1; 1; 3; 4]; [3; 4; 1; 2]; [2; 1; 4; 3]; [4; 3; 2; 1]].

(** ** Outcomes of the search *)

(** The object [r] of the store [h] is filled and keeps, cell by cell, the
    place and one of the candidates of [cells]. *)
Definition filled_from (cells : list Cell.t) (h : Sudoku.store) (r : nat)
    (cells_r : list Cell.t) : Prop :=
  h !! r = Some cells_r /\ Sudoku.is_solved cells_r = true /\ shrinks cells cells_r.

(** A result that is a return or a clash, and no other exception. *)
Definition returned_or_clash (res : result nat) : Prop :=
  (exists r, res = Returned r) \/ (exists msg, res = Raised (ClashException msg)).

(** An order-2 grid with an empty cell and the value 1 twice in one row. *)
Definition grid_row_clash : list (list Z) :=
  [[1; 1; 0; 0]; [0; 0; 0; 0]; [0; 0; 0; 0]; [0; 0; 0; 0]].

(** An order-2 grid without a repeated given that has no completion; the
    pass finds no clash and the search exhausts both candidates of the branch
    cell. *)
Definition grid_no_completion : list (list Z) :=
  [[0; 0; 0; 0]; [0; 0; 4; 0]; [0; 4; 0; 0]; [0; 0; 0; 3]].

Definition store_after (fuel : nat) (cb : bool) (cells : list Cell.t) : Sudoku.store :=
  match Sudoku.solve fuel cb [cells] 0 with
  | Some (h', _) => h'
  | None => []
  end.

(** * Verification *)

(** ** Facts on lists *)

Lemma list_remove_None v l : Cell.list_remove v l = None <-> v ∉ l.
Proof.
  induction l as [|x l IH]; simpl.
  - split; [intros _; apply not_elem_of_nil | done].
  - destruct (decide (x = v)) as [->|Hne].
    + split; [done | intros H; exfalso; apply H; left].
    + rewrite not_elem_of_cons. destruct (Cell.list_remove v l); simpl.
      * split; [done | intros [_ H]; apply IH in H; done].
      * split; [intros _; split; [congruence | by apply IH] | done].
Qed.

Lemma list_remove_Some v l l' :
  Cell.list_remove v l = Some l' <->
  exists l1 l2, l = l1 ++ v :: l2 /\ (v ∉ l1) /\ l' = l1 ++ l2.
Proof.
  revert l'. induction l as [|x l IH]; intros l'; simpl.
  - split; [done | intros (l1 & l2 & H & _); by destruct l1].
  - destruct (decide (x = v)) as [->|Hne].
    + split.
      * intros [= <-]. exists [], l. split_and!; [done | apply not_elem_of_nil | done].
      * intros (l1 & l2 & H & Hn & ->). destruct l1 as [|y l1]; simpl in *.
        -- by inversion H.
        -- inversion H; subst. exfalso; apply Hn; left.
    + split.
      * destruct (Cell.list_remove v l) as [l0|] eqn:E; simpl; [|done].
        intros [= <-]. destruct (proj1 (IH l0) eq_refl) as (l1 & l2 & -> & Hn & ->).
        exists (x :: l1), l2. split_and!; [done | | done].
        rewrite not_elem_of_cons. split; [congruence | done].
      * intros (l1 & l2 & H & Hn & ->). destruct l1 as [|y l1]; simpl in *.
        -- inversion H; congruence.
        -- inversion H; subst. apply not_elem_of_cons in Hn as [_ Hn].
           rewrite (proj2 (IH (l1 ++ l2))); [done|]. by exists l1, l2.
Qed.

Lemma list_remove_length v l l' :
  Cell.list_remove v l = Some l' -> length l = S (length l').
Proof.
  intros H. apply list_remove_Some in H as (l1 & l2 & -> & _ & ->).
  rewrite !length_app. simpl. lia.
Qed.

(** The two outcomes of a [Cell.eliminate] that returns. *)
Lemma cell_eliminate_returned c v c' n :
  Cell.eliminate c v = Returned (c', n) ->
  (c' = c /\ n = 0 /\ Cell.list_remove v (Cell.possibilities c) = None) \/
  (exists ps', Cell.list_remove v (Cell.possibilities c) = Some ps'
               /\ c' = Cell.with_possibilities c ps'
               /\ n = Cell.value c').
Proof.
  unfold Cell.eliminate.
  destruct (_ && _); [done|].
  destruct (Cell.list_remove v (Cell.possibilities c)) as [ps'|] eqn:E.
  - intros [= <- <-]. right. by exists ps'.
  - intros [= <- <-]. by left.
Qed.

Lemma cell_eliminate_raised c v e :
  Cell.eliminate c v = Raised e ->
  Cell.possibilities c = [v] /\ e = ClashException msg_only_value.
Proof.
  unfold Cell.eliminate.
  destruct (bool_decide _ && bool_decide _) eqn:E.
  - intros [= <-]. apply andb_true_iff in E as [H1 H2].
    apply bool_decide_eq_true in H1, H2.
    destruct (Cell.possibilities c) as [|x [|y l]]; simpl in *; try done.
    by inversion H2.
  - by destruct (Cell.list_remove _ _).
Qed.

Lemma total_insert (cells : list Cell.t) i c c' :
  cells !! i = Some c ->
  (total (<[i := c']> cells) + length (Cell.possibilities c)
   = total cells + length (Cell.possibilities c'))%nat.
Proof.
  unfold total. revert i. induction cells as [|x cells IH]; intros [|i] H;
    simplify_eq/=; [lia|].
  specialize (IH _ H). lia.
Qed.

(** A [Cell.eliminate] that returns leaves the state no larger, and strictly
    smaller when it reports a newly set cell. *)
Lemma cell_eliminate_total (cells : list Cell.t) idx other v other' n :
  cells !! idx = Some other ->
  Cell.eliminate other v = Returned (other', n) ->
  (total (<[idx := other']> cells) <= total cells)%nat
  /\ (n <> 0 -> (total (<[idx := other']> cells) < total cells)%nat).
Proof.
  intros Hl He. pose proof (total_insert cells idx other other' Hl) as Ht.
  apply cell_eliminate_returned in He as [(-> & -> & _)|(ps' & Hr & -> & ->)].
  - split; [lia | done].
  - apply list_remove_length in Hr. simpl in Ht. split; intros; lia.
Qed.

Section Cascade.

Variable rec : list Cell.t -> nat -> option (list Cell.t * result unit).
Variable bound : nat.
Hypothesis rec_total : forall cs i, (total cs < bound)%nat ->
  exists cs' r, rec cs i = Some (cs', r)
                /\ (total cs' <= total cs)%nat /\ length cs' = length cs.

Lemma eliminate_loop_total cell value idxs cells :
  (total cells <= bound)%nat ->
  exists cs' r, Sudoku.eliminate_loop rec cell value idxs cells = Some (cs', r)
                /\ (total cs' <= total cells)%nat /\ length cs' = length cells.
Proof.
  revert cells. induction idxs as [|idx rest IH]; intros cells Hb; simpl.
  { by exists cells, (Returned ()). }
  destruct (cells !! idx) as [other|] eqn:Hl; [|by exists cells, (Returned ())].
  destruct (Cell.eqb cell other); [by apply IH|].
  destruct (Cell.matches cell other); [|by apply IH].
  destruct (Cell.eliminate other value) as [[other' n]|e] eqn:He;
    [|by exists cells, (Raised e)].
  destruct (cell_eliminate_total cells idx other value other' n Hl He) as [Hle Hlt].
  destruct (decide (n = 0)) as [->|Hn].
  - destruct (IH (<[idx := other']> cells)) as (cs' & r & -> & Ht & Hlen); [lia|].
    exists cs', r. rewrite Hlen, length_insert. split_and!; [done | lia | done].
  - specialize (Hlt Hn).
    destruct (rec_total (<[idx := other']> cells) idx) as (cs1 & r1 & -> & Ht1 & Hlen1);
      [lia|].
    rewrite length_insert in Hlen1.
    destruct r1 as [[]|e].
    + destruct (IH cs1) as (cs' & r & -> & Ht & Hlen); [lia|].
      exists cs', r. split_and!; [done | lia | congruence].
    + exists cs1, (Raised e). split_and!; [done | lia | done].
Qed.

End Cascade.

Lemma eliminate_total fuel cells i :
  (total cells < fuel)%nat ->
  exists cs' r, Sudoku.eliminate fuel cells i = Some (cs', r)
                /\ (total cs' <= total cells)%nat /\ length cs' = length cells.
Proof.
  revert cells i. induction fuel as [|fuel IH]; intros cells i Hf; [lia|]. simpl.
  destruct (cells !! i) as [cell|]; [|by exists cells, (Returned ())].
  destruct (decide (Cell.value cell = 0)); [by exists cells, (Returned ())|].
  apply eliminate_loop_total with (bound := fuel); [exact IH | lia].
Qed.

(** More fuel than needed changes nothing. *)
Lemma eliminate_loop_mono rec1 rec2 cell value idxs cells out :
  (forall cs i o, rec1 cs i = Some o -> rec2 cs i = Some o) ->
  Sudoku.eliminate_loop rec1 cell value idxs cells = Some out ->
  Sudoku.eliminate_loop rec2 cell value idxs cells = Some out.
Proof.
  intros Hrec. revert cells. induction idxs as [|idx rest IH]; intros cells; simpl; [done|].
  destruct (cells !! idx) as [other|]; [|done].
  destruct (Cell.eqb cell other); [by apply IH|].
  destruct (Cell.matches cell other); [|by apply IH].
  destruct (Cell.eliminate other value) as [[other' n]|e]; [|done].
  destruct (decide (n = 0)); [by apply IH|].
  destruct (rec1 _ idx) as [[cs1 r1]|] eqn:E1; [|done].
  rewrite (Hrec _ _ _ E1). destruct r1; [by apply IH | done].
Qed.

Lemma eliminate_mono fuel fuel' cells i out :
  (fuel <= fuel')%nat ->
  Sudoku.eliminate fuel cells i = Some out ->
  Sudoku.eliminate fuel' cells i = Some out.
Proof.
  revert fuel' cells i out. induction fuel as [|fuel IH]; intros fuel' cells i out Hle; [done|].
  destruct fuel' as [|fuel']; [lia|]. simpl.
  destruct (cells !! i) as [cell|]; [|done].
  destruct (decide (Cell.value cell = 0)); [done|].
  apply eliminate_loop_mono. intros cs j o. apply IH. lia.
Qed.

(** C8. The cascade of [Sudoku.eliminate] terminates on every state: a nesting
    depth above the number of candidates left in the state always suffices for
    the call to finish (returning or raising), it never adds a candidate, and
    every nested call is made on a state that has strictly fewer candidates
    than the state its caller was looking at. *)
Theorem eliminate_terminates fuel (cells : list Cell.t) i :
  (total cells < fuel)%nat ->
  (exists cells' r, Sudoku.eliminate fuel cells i = Some (cells', r)
                    /\ (total cells' <= total cells)%nat)
  /\ (forall (cs : list Cell.t) idx other value other' newly_set,
        cs !! idx = Some other ->
        Cell.eliminate other value = Returned (other', newly_set) ->
        newly_set <> 0 ->
        (length (Cell.possibilities other') < length (Cell.possibilities other))%nat
        /\ (total (<[idx := other']> cs) < total cs)%nat).
Proof.
  intros Hf. split.
  - destruct (eliminate_total fuel cells i Hf) as (cs' & r & H & Ht & _). by exists cs', r.
  - intros cs idx other value other' n Hl He Hn. split.
    + apply cell_eliminate_returned in He as [(_ & -> & _)|(ps' & Hr & -> & _)]; [done|].
      apply list_remove_length in Hr. simpl. lia.
    + by apply (cell_eliminate_total cs idx other value other' n Hl He).
Qed.

Lemma eliminate_terminates_witness :
  (total (cells_of grid_one_row) < 60)%nat
  /\ ((exists cells' r, Sudoku.eliminate 60 (cells_of grid_one_row) 0 = Some (cells', r)
                        /\ (total cells' <= total (cells_of grid_one_row))%nat)
      /\ (forall (cs : list Cell.t) idx other value other' newly_set,
            cs !! idx = Some other ->
            Cell.eliminate other value = Returned (other', newly_set) ->
            newly_set <> 0 ->
            (length (Cell.possibilities other') < length (Cell.possibilities other))%nat
            /\ (total (<[idx := other']> cs) < total cs)%nat)).
Proof.
  split; [vm_compute; lia|].
  apply (eliminate_terminates 60 (cells_of grid_one_row) 0). vm_compute; lia.
Defined.

(** ** The cell model *)

Lemma py_range_elem lo hi x : x ∈ py_range lo hi <-> lo <= x < hi.
Proof.
  unfold py_range. rewrite list_elem_of_fmap. split.
  - intros (k & -> & Hk). apply elem_of_seq in Hk. lia.
  - intros H. exists (Z.to_nat (x - lo)). split; [lia|]. apply elem_of_seq. lia.
Qed.

Lemma py_range_length lo hi : length (py_range lo hi) = Z.to_nat (hi - lo).
Proof. unfold py_range. by rewrite length_fmap, length_seq. Qed.

(** C3, as the code has it.  For a non-zero order and a raw value that is an
    integer or an ASCII string, [Cell.__init__] raises nothing; the candidates
    are the one integer the raw value is or [int] parses it to when that
    integer is not zero, whether or not it lies in [1, order²], and the full
    range 1..order² when the raw value is 0, parses to 0, or is a string [int]
    rejects. *)
Theorem cell_init_candidates row col order v :
  order <> 0 -> int_or_ascii v ->
  (exists n,
     (PyInt.int v = Returned n \/ (PyInt.int v = Raised ValueError /\ n = 0))
     /\ Cell.init row col order v
        = Returned (Cell.mk (if decide (n = 0) then py_range 1 (order ^ 2 + 1) else [n])
                            row col (row `div` order, col `div` order)))
  /\ (forall x, x ∈ py_range 1 (order ^ 2 + 1) <-> 1 <= x <= order ^ 2).
Proof.
  intros Ho Hv. split.
  - unfold Cell.init. destruct v as [z| |s]; [| done |]; simpl.
    + exists z. split; [by left|]. by destruct (decide (order = 0)).
    + destruct (PyInt.of_string s) as [z|].
      * exists z. split; [by left|]. by destruct (decide (order = 0)).
      * exists 0. split; [by right|]. by destruct (decide (order = 0)).
  - intros x. rewrite py_range_elem. lia.
Qed.

Lemma cell_init_candidates_witness :
  (3 <> 0 /\ int_or_ascii (PyStr str_separated))
  /\ ((exists n,
         (PyInt.int (PyStr str_separated) = Returned n
          \/ (PyInt.int (PyStr str_separated) = Raised ValueError /\ n = 0))
         /\ Cell.init 0 0 3 (PyStr str_separated)
            = Returned (Cell.mk (if decide (n = 0) then py_range 1 (3 ^ 2 + 1) else [n])
                                0 0 (0 `div` 3, 0 `div` 3)))
      /\ (forall x, x ∈ py_range 1 (3 ^ 2 + 1) <-> 1 <= x <= 3 ^ 2)).
Proof.
  assert (H1 : 3 <> 0) by lia.
  assert (H2 : int_or_ascii (PyStr str_separated)).
  { repeat constructor; simpl; lia. }
  split; [exact (conj H1 H2)|].
  exact (cell_init_candidates 0 0 3 (PyStr str_separated) H1 H2).
Defined.

(** What [int] makes of strings, as [Cell.__init__] sees it at order 3: space
    around a literal is skipped, a sign and single underscores between digits
    are read, and everything else, the separators 28 to 31 among it, is
    rejected and opens the full range. *)
Lemma cell_init_strings :
  let candidates (s : string) :=
    match Cell.init 0 0 3 (PyStr s) with
    | Returned c => Some (Cell.possibilities c)
    | Raised _ => None
    end in
  candidates str_spaced = Some [4]
  /\ candidates "+12"%string = Some [12]
  /\ candidates "-4"%string = Some [-4]
  /\ candidates "1_0"%string = Some [10]
  /\ candidates "007"%string = Some [7]
  /\ candidates "0"%string = Some [1; 2; 3; 4; 5; 6; 7; 8; 9]
  /\ candidates ""%string = Some [1; 2; 3; 4; 5; 6; 7; 8; 9]
  /\ candidates "x"%string = Some [1; 2; 3; 4; 5; 6; 7; 8; 9]
  /\ candidates "4 2"%string = Some [1; 2; 3; 4; 5; 6; 7; 8; 9]
  /\ candidates "4_"%string = Some [1; 2; 3; 4; 5; 6; 7; 8; 9]
  /\ candidates "1__0"%string = Some [1; 2; 3; 4; 5; 6; 7; 8; 9]
  /\ candidates "+ 4"%string = Some [1; 2; 3; 4; 5; 6; 7; 8; 9]
  /\ candidates str_separated = Some [1; 2; 3; 4; 5; 6; 7; 8; 9].
Proof. cbv zeta. repeat split; vm_compute; reflexivity. Qed.

(** A literal of more than [max_str_digits] digits is rejected, whatever its
    value: the cell gets the full range. *)
Lemma cell_init_long_literal row col order (s : string) :
  order <> 0 ->
  (PyInt.max_str_digits < PyInt.digit_count (list_ascii_of_string s))%nat ->
  Cell.init row col order (PyStr s)
  = Returned (Cell.mk (py_range 1 (order ^ 2 + 1)) row col
                      (row `div` order, col `div` order)).
Proof.
  intros Ho Hlen. unfold Cell.init, PyInt.int, PyInt.of_string.
  rewrite (proj2 (Nat.ltb_lt _ _) Hlen). simpl. by destruct (decide (order = 0)).
Qed.

(** C3, as the specification words it, fails: an integer outside [1, order²]
    becomes the only candidate of the cell instead of opening the full range. *)
Lemma cell_init_out_of_range :
  ~ (exists c, Cell.init 0 0 3 (PyInt 10) = Returned c
               /\ Cell.possibilities c = spec_init_candidates 3 (PyInt 10)).
Proof. intros (c & H & Hc). vm_compute in H. inversion H; subst. vm_compute in Hc. done. Qed.

(** C4. [Cell.eliminate] raises exactly when the candidates are [v] alone, and
    then it is the clash; otherwise it returns, having dropped [v] when [v]
    was a candidate, and the integer returned is the one candidate left when
    the removal left exactly one, and 0 in every other case. *)
Theorem cell_eliminate_spec (c : Cell.t) (v : Z) :
  ((exists e, Cell.eliminate c v = Raised e) <-> Cell.possibilities c = [v])
  /\ (Cell.possibilities c = [v] ->
      Cell.eliminate c v = Raised (ClashException msg_only_value))
  /\ (Cell.possibilities c <> [v] ->
      exists c' r,
        Cell.eliminate c v = Returned (c', r)
        /\ Cell.row c' = Cell.row c /\ Cell.col c' = Cell.col c
        /\ Cell.subgrid c' = Cell.subgrid c
        /\ ((v ∉ Cell.possibilities c) ->
            Cell.possibilities c' = Cell.possibilities c /\ r = 0)
        /\ ((v ∈ Cell.possibilities c) ->
            (exists l1 l2, Cell.possibilities c = l1 ++ v :: l2 /\ (v ∉ l1)
                           /\ Cell.possibilities c' = l1 ++ l2)
            /\ ((exists w, Cell.possibilities c' = [w] /\ r = w)
                \/ (length (Cell.possibilities c') <> 1%nat /\ r = 0)))).
Proof.
  assert (Hr : Cell.possibilities c = [v] ->
               Cell.eliminate c v = Raised (ClashException msg_only_value)).
  { intros H. unfold Cell.eliminate. rewrite H. simpl.
    by rewrite !bool_decide_eq_true_2. }
  split_and!; [split | done |].
  - intros [e He]. by apply cell_eliminate_raised in He as [? _].
  - intros H. eexists. by apply Hr.
  - intros Hne. destruct (Cell.eliminate c v) as [[c' r]|e] eqn:He.
    2: { by apply cell_eliminate_raised in He as [? _]. }
    exists c', r. split; [done|].
    apply cell_eliminate_returned in He as [(-> & -> & Hrem)|(ps' & Hrem & -> & ->)].
    + split_and!; try done. intros Hin. by apply list_remove_None in Hrem.
    + simpl. split_and!; try done.
      * intros Hn. apply list_remove_None in Hn. congruence.
      * intros _. split.
        -- by apply list_remove_Some.
        -- unfold Cell.value. simpl. destruct ps' as [|w [|w' ps']].
           ++ right. done.
           ++ left. by exists w.
           ++ right. done.
Qed.

(** ** Progress *)

Lemma determined_le_length cells : (Sudoku.determined cells <= length cells)%nat.
Proof. unfold Sudoku.determined. apply length_filter. Qed.

(** ** Division of integers *)

(** Rounding a quotient to a multiple of [1 / p]: the multiple chosen is at
    most half a step away, and not above [p] when the quotient is not above
    1. *)
Lemma round_half_even_near a b p m0 r m :
  0 < b -> 0 <= a <= b -> 0 < p ->
  a * p = b * m0 + r -> 0 <= r < b ->
  m = (if 2 * r <? b then m0
       else if b <? 2 * r then m0 + 1
       else if Z.even m0 then m0 else m0 + 1) ->
  0 <= m <= p /\ 2 * Z.abs (m * b - a * p) <= b.
Proof.
  intros Hb Ha Hp Hdiv Hr ->.
  assert (Hm0 : 0 <= m0 <= p) by nia.
  assert (Hlt : m0 = p -> r = 0) by nia.
  destruct (2 * r <? b) eqn:E1; [apply Z.ltb_lt in E1 | apply Z.ltb_ge in E1].
  { split; [lia | nia]. }
  assert (Hm1 : m0 + 1 <= p) by (destruct (decide (m0 = p)) as [H%Hlt|]; lia).
  destruct (b <? 2 * r) eqn:E2; [apply Z.ltb_lt in E2 | apply Z.ltb_ge in E2].
  { split; [lia | nia]. }
  destruct (Z.even m0); split; try lia; nia.
Qed.

(** The exponent [truediv] finds: [b <= a * 2 ^ k < 2 * b]. *)
Lemma truediv_scale a b :
  0 < a <= b ->
  let k0 := Z.log2 b - Z.log2 a in
  let k := if b <=? a * 2 ^ k0 then k0 else k0 + 1 in
  0 <= k <= Z.log2 b + 1 /\ b <= a * 2 ^ k < 2 * b.
Proof.
  intros Hab k0 k.
  assert (Hla : 0 <= Z.log2 a) by apply Z.log2_nonneg.
  assert (Hk0 : 0 <= k0) by (subst k0; pose proof (Z.log2_le_mono a b); lia).
  destruct (Z.log2_spec a ltac:(lia)) as [Ha1 Ha2].
  destruct (Z.log2_spec b ltac:(lia)) as [Hb1 Hb2].
  rewrite Z.pow_succ_r in Ha2, Hb2 by apply Z.log2_nonneg.
  assert (Hpow : 2 ^ Z.log2 b = 2 ^ Z.log2 a * 2 ^ k0).
  { rewrite <- Z.pow_add_r by lia. f_equal. lia. }
  assert (Hp0 : 0 < 2 ^ k0) by (apply Z.pow_pos_nonneg; lia).
  subst k. destruct (b <=? a * 2 ^ k0) eqn:E; [apply Z.leb_le in E | apply Z.leb_gt in E].
  - split; [lia | nia].
  - rewrite Z.pow_add_r, Z.pow_1_r by lia. split; [lia | nia].
Qed.

Lemma truediv_nearest a b :
  0 <= a <= b -> 0 < b ->
  -1074 <= Float.exp (Float.truediv a b) <= -52
  /\ 0 <= Float.mant (Float.truediv a b) <= 2 ^ (- Float.exp (Float.truediv a b))
  /\ 2 * Z.abs (Float.mant (Float.truediv a b) * b
                - a * 2 ^ (- Float.exp (Float.truediv a b))) <= b.
Proof.
  intros Hab Hb. unfold Float.truediv.
  destruct (a =? 0) eqn:E0; [apply Z.eqb_eq in E0 | apply Z.eqb_neq in E0].
  { subst a. simpl Float.exp. simpl Float.mant.
    split; [lia|]. split; [split; [lia | by apply Z.pow_nonneg]|]. lia. }
  cbv zeta.
  destruct (truediv_scale a b ltac:(lia)) as [Hk _]. cbv zeta in Hk.
  set (k := if b <=? a * 2 ^ (Z.log2 b - Z.log2 a) then _ else _) in *.
  set (s := 52 + Z.min k 1022).
  assert (Hs : 52 <= s <= 1074) by lia.
  assert (Hp : 0 < 2 ^ s) by (apply Z.pow_pos_nonneg; lia).
  pose proof (Z.div_mod (a * 2 ^ s) b ltac:(lia)) as Hdiv.
  pose proof (Z.mod_pos_bound (a * 2 ^ s) b Hb) as Hr.
  set (m0 := (a * 2 ^ s) `div` b) in *. set (r := (a * 2 ^ s) `mod` b) in *.
  set (m := if 2 * r <? b then _ else _).
  destruct (round_half_even_near a b (2 ^ s) m0 r m Hb Hab Hp Hdiv Hr eq_refl) as [Hm Hnear].
  destruct (m =? 2 ^ 53) eqn:E; [apply Z.eqb_eq in E | apply Z.eqb_neq in E];
    simpl Float.exp; simpl Float.mant.
  - assert (Hs53 : 53 <= s).
    { destruct (decide (53 <= s)) as [|Hn]; [done|].
      assert (2 ^ s <= 2 ^ 52) by (apply Z.pow_le_mono_r; lia).
      assert (2 ^ 52 < 2 ^ 53) by (apply Z.pow_lt_mono_r; lia). lia. }
    assert (Hps : 2 ^ s = 2 * 2 ^ (s - 1)).
    { rewrite <- Z.pow_succ_r by lia. f_equal. lia. }
    assert (H53 : 2 ^ 53 = 2 * 2 ^ 52) by (rewrite <- Z.pow_succ_r by lia; f_equal).
    replace (- (1 - s)) with (s - 1) by lia.
    split; [lia|]. split; [lia|]. lia.
  - rewrite Z.opp_involutive. split; [lia|]. done.
Qed.

(** On a denominator below [2 ^ 1022] the result is a normal number: its
    mantissa has 53 bits. *)
Lemma truediv_normal a b :
  0 < a <= b -> b < 2 ^ 1022 ->
  2 ^ 52 <= Float.mant (Float.truediv a b) < 2 ^ 53.
Proof.
  intros Hab Hb. unfold Float.truediv.
  rewrite (proj2 (Z.eqb_neq a 0)) by lia. cbv zeta.
  destruct (truediv_scale a b Hab) as [Hk Hscale]. cbv zeta in Hk, Hscale.
  set (k := if b <=? a * 2 ^ (Z.log2 b - Z.log2 a) then _ else _) in *.
  assert (Hlb : Z.log2 b < 1022) by (apply Z.log2_lt_pow2; lia).
  rewrite Z.min_l by lia.
  assert (Hps : 2 ^ (52 + k) = 2 ^ 52 * 2 ^ k) by (apply Z.pow_add_r; lia).
  assert (H52 : 0 < 2 ^ 52) by (apply Z.pow_pos_nonneg; lia).
  assert (H53 : 2 ^ 53 = 2 * 2 ^ 52) by (rewrite <- Z.pow_succ_r by lia; f_equal).
  pose proof (Z.div_mod (a * 2 ^ (52 + k)) b ltac:(lia)) as Hdiv.
  pose proof (Z.mod_pos_bound (a * 2 ^ (52 + k)) b ltac:(lia)) as Hr.
  set (m0 := (a * 2 ^ (52 + k)) `div` b) in *. set (r := (a * 2 ^ (52 + k)) `mod` b) in *.
  assert (Hm0 : 2 ^ 52 <= m0 < 2 ^ 53) by nia.
  set (m := if 2 * r <? b then _ else _).
  assert (Hm : m0 <= m <= m0 + 1).
  { subst m. destruct (2 * r <? b); [lia|]. destruct (b <? 2 * r); [lia|].
    destruct (Z.even m0); lia. }
  destruct (m =? 2 ^ 53) eqn:E; [apply Z.eqb_eq in E | apply Z.eqb_neq in E];
    simpl Float.mant; lia.
Qed.

(** The value of a number at most 1, as a fraction. *)
Lemma float_value_Qmake f :
  Float.exp f <= 0 ->
  (float_value f == Float.mant f # Z.to_pos (2 ^ (- Float.exp f)))%Q.
Proof.
  intros He. unfold float_value.
  assert (Hp : 0 < 2 ^ (- Float.exp f)) by (apply Z.pow_pos_nonneg; lia).
  rewrite (Qmake_Qdiv (Float.mant f)), Z2Pos.id by done.
  rewrite <- (Z.opp_involutive (Float.exp f)) at 1.
  rewrite Qpower_opp, Zpower_Qpower by lia. reflexivity.
Qed.

Lemma truediv_value a b :
  0 <= a <= b -> 0 < b ->
  (0 <= float_value (Float.truediv a b))%Q
  /\ (float_value (Float.truediv a b) <= 1)%Q
  /\ (Qabs (float_value (Float.truediv a b) - inject_Z a / inject_Z b)
      <= 1 # 9007199254740992)%Q
  /\ (b < 2 ^ 53 ->
      ((float_value (Float.truediv a b) == 1)%Q <-> a = b)
      /\ ((float_value (Float.truediv a b) == 0)%Q <-> a = 0)).
Proof.
  intros Hab Hb. destruct (truediv_nearest a b Hab Hb) as (He & Hm & Hnear).
  pose proof (float_value_Qmake (Float.truediv a b) ltac:(lia)) as Hv.
  set (f := Float.truediv a b) in *.
  assert (Hp : 2 ^ 52 <= 2 ^ (- Float.exp f)) by (apply Z.pow_le_mono_r; lia).
  assert (H52 : 2 ^ 52 = 4503599627370496) by reflexivity.
  assert (H53 : 2 ^ 53 = 9007199254740992) by reflexivity.
  set (m := Float.mant f) in *. set (p := 2 ^ (- Float.exp f)) in *.
  assert (Hid : Z.pos (Z.to_pos p) = p) by (apply Z2Pos.id; lia).
  assert (Hb' : Z.pos (Z.to_pos b) = b) by (apply Z2Pos.id; lia).
  split_and!.
  - rewrite Hv. unfold Qle. simpl. lia.
  - rewrite Hv. unfold Qle. simpl. lia.
  - rewrite Hv. rewrite <- (Z2Pos.id b) at 1 by done. rewrite <- Qmake_Qdiv.
    unfold Qminus, Qplus, Qopp, Qabs, Qle. simpl.
    rewrite Pos2Z.inj_mul, Hid, Hb'. nia.
  - intros Hsmall. split.
    + rewrite Hv. unfold Qeq. simpl. rewrite Hid. split; [nia | intros ->; nia].
    + rewrite Hv. unfold Qeq. simpl. split; [nia|].
      intros ->. subst m f. unfold Float.truediv. simpl. lia.
Qed.

(** On a state with at least one cell the quotient is defined and lies
    between 0 and 1. *)
Lemma progress_nonempty (cells : list Cell.t) :
  cells <> [] ->
  exists f, Sudoku.progress cells = Returned f
            /\ f = Float.truediv (Z.of_nat (Sudoku.determined cells))
                                 (Z.of_nat (length cells))
            /\ (0 <= float_value f)%Q /\ (float_value f <= 1)%Q.
Proof.
  intros Hne. eexists. split; [by destruct cells|]. split; [done|].
  pose proof (determined_le_length cells) as Hle.
  destruct (truediv_value (Z.of_nat (Sudoku.determined cells)) (Z.of_nat (length cells)))
    as (H0 & H1 & _); [lia | destruct cells; [done | simpl; lia] | done].
Qed.

(** C10, on the empty grid.  [validate_array] accepts the empty array with
    order 0, the state built from it has no cell, and [progress] divides by the
    number of cells: the division raises, here and in a [solve] that was given
    a callback. *)
Theorem progress_empty_grid :
  validate_array [] = Returned 0
  /\ Sudoku.init [] = Returned []
  /\ Sudoku.progress [] = Raised ZeroDivisionError
  /\ Sudoku.solve 1 true [[]] 0 = Some ([[]; []], Raised ZeroDivisionError).
Proof. by vm_compute. Qed.

(** ** Propagation only removes candidates *)

Global Instance cell_shrinks_preorder : PreOrder cell_shrinks.
Proof.
  split.
  - intros c. by repeat split.
  - intros c1 c2 c3 (? & ? & ? & ?) (? & ? & ? & ?).
    repeat split; try congruence. by etrans.
Qed.

Global Instance shrinks_preorder : PreOrder shrinks.
Proof. unfold shrinks. apply _. Qed.

Lemma list_remove_sublist v l l' :
  Cell.list_remove v l = Some l' -> l' `sublist_of` l.
Proof.
  intros H. apply list_remove_Some in H as (l1 & l2 & -> & _ & ->).
  apply sublist_app; [done|]. by apply sublist_cons.
Qed.

Lemma cell_eliminate_shrinks c v c' n :
  Cell.eliminate c v = Returned (c', n) -> cell_shrinks c c'.
Proof.
  intros H. apply cell_eliminate_returned in H as [(-> & _ & _)|(ps' & Hr & -> & _)];
    [done|].
  repeat split. simpl. by eapply list_remove_sublist.
Qed.

Lemma shrinks_insert (cells : list Cell.t) i c c' :
  cells !! i = Some c -> cell_shrinks c c' -> shrinks cells (<[i := c']> cells).
Proof.
  intros Hl Hs. rewrite <- (list_insert_id cells i c Hl) at 1.
  apply Forall2_insert; [reflexivity | done].
Qed.

Lemma shrinks_length cs cs' : shrinks cs cs' -> length cs' = length cs.
Proof. intros H. symmetry. by eapply Forall2_length. Qed.

Lemma shrinks_lookup cs cs' i c :
  shrinks cs cs' -> cs !! i = Some c ->
  exists c', cs' !! i = Some c' /\ cell_shrinks c c'.
Proof. intros H Hl. by eapply Forall2_lookup_l. Qed.

Lemma shrinks_lookup_r cs cs' i c' :
  shrinks cs cs' -> cs' !! i = Some c' ->
  exists c, cs !! i = Some c /\ cell_shrinks c c'.
Proof. intros H Hl. by eapply Forall2_lookup_r. Qed.

Lemma shrinks_total cs cs' : shrinks cs cs' -> (total cs' <= total cs)%nat.
Proof.
  unfold total. induction 1 as [|c c' cs cs' (_ & _ & _ & Hs) _ IH]; [done|].
  rewrite !fmap_cons. simpl. apply sublist_length in Hs. lia.
Qed.

Section Cascade_shrinks.

Variable rec : list Cell.t -> nat -> option (list Cell.t * result unit).
Hypothesis rec_shrinks : forall cs i cs' r,
  rec cs i = Some (cs', r) -> shrinks cs cs' /\ clash_only r.

Lemma eliminate_loop_shrinks cell value idxs cells cs' r :
  Sudoku.eliminate_loop rec cell value idxs cells = Some (cs', r) ->
  shrinks cells cs' /\ clash_only r.
Proof.
  revert cells. induction idxs as [|idx rest IH]; intros cells; simpl.
  { intros [= <- <-]. split; [reflexivity | by intros ?]. }
  destruct (cells !! idx) as [other|] eqn:Hl.
  2: { intros [= <- <-]. split; [reflexivity | by intros ?]. }
  destruct (Cell.eqb cell other); [by apply IH|].
  destruct (Cell.matches cell other); [|by apply IH].
  destruct (Cell.eliminate other value) as [[other' n]|e] eqn:He.
  2: { intros [= <- <-]. split; [reflexivity|].
       apply cell_eliminate_raised in He as [_ ->]. by intros e' [= <-]. }
  assert (Hs : shrinks cells (<[idx := other']> cells)).
  { eapply shrinks_insert; [done|]. by eapply cell_eliminate_shrinks. }
  destruct (decide (n = 0)).
  { intros H. apply IH in H as [H1 H2]. split; [by etrans | done]. }
  destruct (rec _ idx) as [[cs1 r1]|] eqn:E1; [|done].
  apply rec_shrinks in E1 as [Hs1 Hc1].
  destruct r1 as [[]|e].
  - intros H. apply IH in H as [H1 H2]. split; [|done]. etrans; [done|]. by etrans.
  - intros [= <- <-]. split; [by etrans | done].
Qed.

End Cascade_shrinks.

Lemma eliminate_shrinks fuel cells i cs' r :
  Sudoku.eliminate fuel cells i = Some (cs', r) -> shrinks cells cs' /\ clash_only r.
Proof.
  revert cells i cs' r. induction fuel as [|fuel IH]; intros cells i cs' r; [done|]. simpl.
  destruct (cells !! i) as [cell|].
  2: { intros [= <- <-]. split; [reflexivity | by intros ?]. }
  destruct (decide (Cell.value cell = 0)).
  { intros [= <- <-]. split; [reflexivity | by intros ?]. }
  by apply eliminate_loop_shrinks.
Qed.

Lemma easy_pass_shrinks fuel idxs cells cs' r :
  Sudoku.easy_pass fuel idxs cells = Some (cs', r) -> shrinks cells cs' /\ clash_only r.
Proof.
  revert cells. induction idxs as [|i rest IH]; intros cells; simpl.
  { intros [= <- <-]. split; [reflexivity | by intros ?]. }
  destruct (cells !! i) as [cell|].
  2: { intros [= <- <-]. split; [reflexivity | by intros ?]. }
  destruct (decide (Cell.value cell = 0)); [by apply IH|].
  destruct (Sudoku.eliminate fuel cells i) as [[cs1 r1]|] eqn:E1; [|done].
  apply eliminate_shrinks in E1 as [Hs1 Hc1].
  destruct r1 as [[]|e].
  - intros H. apply IH in H as [H1 H2]. split; [by etrans | done].
  - intros [= <- <-]. done.
Qed.

Lemma easy_pass_total fuel idxs cells :
  (total cells < fuel)%nat ->
  exists cs' r, Sudoku.easy_pass fuel idxs cells = Some (cs', r).
Proof.
  revert cells. induction idxs as [|i rest IH]; intros cells Hf; simpl; [by eauto|].
  destruct (cells !! i) as [cell|]; [|by eauto].
  destruct (decide (Cell.value cell = 0)); [by apply IH|].
  destruct (eliminate_total fuel cells i Hf) as (cs1 & r1 & -> & Ht & _).
  destruct r1 as [[]|e]; [|by eauto]. apply IH. lia.
Qed.

Lemma easy_pass_mono fuel fuel' idxs cells out :
  (fuel <= fuel')%nat ->
  Sudoku.easy_pass fuel idxs cells = Some out ->
  Sudoku.easy_pass fuel' idxs cells = Some out.
Proof.
  intros Hle. revert cells. induction idxs as [|i rest IH]; intros cells; simpl; [done|].
  destruct (cells !! i) as [cell|]; [|done].
  destruct (decide (Cell.value cell = 0)); [by apply IH|].
  destruct (Sudoku.eliminate fuel cells i) as [[cs1 r1]|] eqn:E1; [|done].
  rewrite (eliminate_mono _ _ _ _ _ Hle E1). destruct r1; [by apply IH | done].
Qed.

(** ** Choosing the branch cell *)

Lemma key_ltb_spec a b :
  Sudoku.key_ltb a b = true <-> (a.1 < b.1 \/ (a.1 = b.1 /\ a.2 < b.2))%nat.
Proof.
  unfold Sudoku.key_ltb.
  rewrite orb_true_iff, andb_true_iff, !Nat.ltb_lt, Nat.eqb_eq. done.
Qed.

Lemma min_from_spec best l :
  Sudoku.min_from best l ∈ best :: l
  /\ forall y, y ∈ best :: l ->
               Sudoku.key_ltb (Sudoku.key y) (Sudoku.key (Sudoku.min_from best l)) = false.
Proof.
  revert best. induction l as [|x l IH]; intros best; simpl.
  - split; [left|]. intros y ->%list_elem_of_singleton.
    apply not_true_iff_false. rewrite key_ltb_spec. lia.
  - specialize (IH (if Sudoku.key_ltb (Sudoku.key x) (Sudoku.key best) then x else best)).
    destruct IH as [Hin Hmin].
    destruct (Sudoku.key_ltb (Sudoku.key x) (Sudoku.key best)) eqn:E.
    + split.
      * apply elem_of_cons in Hin as [->|Hin]; [right; left | by do 2 right].
      * intros y Hy. apply elem_of_cons in Hy as [->|Hy]; [|by apply Hmin].
        pose proof (Hmin x ltac:(left)) as Hx.
        apply not_true_iff_false in Hx. apply not_true_iff_false.
        rewrite key_ltb_spec in *. lia.
    + split.
      * apply elem_of_cons in Hin as [->|Hin]; [left | by do 2 right].
      * intros y Hy. apply elem_of_cons in Hy as [->|Hy]; [by apply Hmin; left|].
        apply elem_of_cons in Hy as [->|Hy]; [|by apply Hmin; right].
        pose proof (Hmin best ltac:(left)) as Hb.
        apply not_true_iff_false in Hb, E. apply not_true_iff_false.
        rewrite key_ltb_spec in *. lia.
Qed.

Lemma py_min_spec l x :
  Sudoku.py_min l = Returned x ->
  x ∈ l /\ forall y, y ∈ l -> Sudoku.key_ltb (Sudoku.key y) (Sudoku.key x) = false.
Proof. destruct l as [|b l]; [done|]. intros [= <-]. apply min_from_spec. Qed.

Lemma py_min_raised l e : Sudoku.py_min l = Raised e -> l = [] /\ e = ValueError.
Proof. destruct l; [by intros [= <-] | done]. Qed.

Lemma elem_of_open_cells (cells : list Cell.t) j ps :
  (j, ps) ∈ Sudoku.open_cells cells <->
  (1 < length ps)%nat /\ exists c, cells !! j = Some c /\ ps = Cell.possibilities c.
Proof.
  unfold Sudoku.open_cells. rewrite list_elem_of_filter, elem_of_lookup_imap. simpl.
  split.
  - intros [? (i & c & [= -> ->] & ?)]. eauto.
  - intros [? (c & ? & ->)]. split; [done|]. by exists j, c.
Qed.

(** ** One step of [_easy_step] *)

Lemma easy_step_shrinks fuel cells cs' r :
  Sudoku._easy_step fuel cells = Some (cs', r) ->
  shrinks cells cs'
  /\ forall e, r = Raised e -> e = ClashException msg_only_value \/ e = ValueError.
Proof.
  unfold Sudoku._easy_step. destruct (Sudoku.is_solved cells).
  { intros [= <- <-]. split; [reflexivity | done]. }
  destruct (Sudoku.easy_pass _ _ _) as [[cs1 r1]|] eqn:E; [|done].
  apply easy_pass_shrinks in E as [Hs Hc].
  destruct r1 as [[]|e].
  - destruct (Sudoku.is_solved cs1); simpl.
    + intros [= <- <-]. done.
    + destruct (Sudoku.py_min _) as [x|e] eqn:Em; intros [= <- <-]; [done|].
      split; [done|]. intros ? [= <-]. apply py_min_raised in Em as [_ ->]. by right.
  - intros [= <- <-]. split; [done|]. intros ? [= <-]. left. by apply Hc.
Qed.

Lemma easy_step_total fuel cells :
  (total cells < fuel)%nat -> exists cs' r, Sudoku._easy_step fuel cells = Some (cs', r).
Proof.
  intros Hf. unfold Sudoku._easy_step. destruct (Sudoku.is_solved cells); [by eauto|].
  destruct (easy_pass_total fuel (seq 0 (length cells)) cells Hf) as (cs1 & r1 & ->).
  destruct r1 as [[]|e]; [|by eauto].
  destruct (Sudoku.is_solved cs1); simpl; [by eauto|].
  destruct (Sudoku.py_min _); by eauto.
Qed.

Lemma easy_step_mono fuel fuel' cells out :
  (fuel <= fuel')%nat ->
  Sudoku._easy_step fuel cells = Some out -> Sudoku._easy_step fuel' cells = Some out.
Proof.
  intros Hle. unfold Sudoku._easy_step. destruct (Sudoku.is_solved cells); [done|].
  destruct (Sudoku.easy_pass fuel _ _) as [o|] eqn:E; [|done].
  by rewrite (easy_pass_mono _ _ _ _ _ Hle E).
Qed.

(** What a returned branch point is. *)
Lemma easy_step_branch fuel cells cells' idx ps :
  Sudoku._easy_step fuel cells = Some (cells', Returned (Some (idx, ps))) ->
  Sudoku.is_solved cells' = false
  /\ (idx, ps) ∈ Sudoku.open_cells cells'
  /\ forall y, y ∈ Sudoku.open_cells cells' ->
               Sudoku.key_ltb (Sudoku.key y) (Sudoku.key (idx, ps)) = false.
Proof.
  unfold Sudoku._easy_step. destruct (Sudoku.is_solved cells); [done|].
  destruct (Sudoku.easy_pass _ _ _) as [[cs1 [[]|e]]|]; [|done|done].
  destruct (Sudoku.is_solved cs1) eqn:Es; simpl; [done|].
  destruct (Sudoku.py_min _) as [x|e] eqn:Em; [|done].
  intros [= <- ->]. split; [done|]. by apply py_min_spec.
Qed.

(** A branch point handed back by [_easy_step] is a cell of the state it
    leaves, with more than one candidate, and no such cell has fewer
    candidates, nor as few at a lower position. *)
Lemma easy_step_branch_fewest fuel (cells cells' : list Cell.t) idx ps :
  Sudoku._easy_step fuel cells = Some (cells', Returned (Some (idx, ps))) ->
  Sudoku.is_solved cells' = false
  /\ (exists c, cells' !! idx = Some c /\ ps = Cell.possibilities c
                /\ (1 < length ps)%nat)
  /\ (forall j cj, cells' !! j = Some cj ->
        (1 < length (Cell.possibilities cj))%nat ->
        (length ps < length (Cell.possibilities cj))%nat
        \/ (length ps = length (Cell.possibilities cj) /\ (idx <= j)%nat)).
Proof.
  intros (Hns & Hin & Hmin)%easy_step_branch. split; [done|].
  apply elem_of_open_cells in Hin as (Hlen & c & Hc & ->). split; [by exists c|].
  intros j cj Hj Hlj.
  specialize (Hmin (j, Cell.possibilities cj)).
  rewrite elem_of_open_cells in Hmin.
  specialize (Hmin (conj Hlj (ex_intro _ cj (conj Hj eq_refl)))).
  apply not_true_iff_false in Hmin. rewrite key_ltb_spec in Hmin. simpl in Hmin. lia.
Qed.

(** ** The store *)

Lemma deepcopy_Some h r h1 r' :
  Sudoku.deepcopy h r = Some (h1, r') ->
  exists cells, h !! r = Some cells /\ h1 = h ++ [cells] /\ r' = length h.
Proof.
  unfold Sudoku.deepcopy. destruct (h !! r) as [cells|]; [|done].
  intros [= <- <-]. by exists cells.
Qed.

Lemma deepcopy_lookup (h : Sudoku.store) r cells :
  h !! r = Some cells -> Sudoku.deepcopy h r = Some (h ++ [cells], length h).
Proof. unfold Sudoku.deepcopy. by intros ->. Qed.

Lemma prefix_insert_fresh (h h1 : Sudoku.store) r x :
  h `prefix_of` h1 -> (length h <= r)%nat -> h `prefix_of` <[r := x]> h1.
Proof.
  intros [k ->] Hr. rewrite insert_app_r_alt; [|done]. by apply prefix_app_r.
Qed.

Lemma store_insert_fresh (h : Sudoku.store) x y :
  <[length h := y]> (h ++ [x]) = h ++ [y].
Proof. rewrite insert_app_r_alt; [|done]. by rewrite Nat.sub_diag. Qed.

Lemma assign_Some h r idx p h2 res :
  Sudoku.assign h r idx p = Some (h2, res) ->
  exists cells cell, h !! r = Some cells /\ cells !! idx = Some cell
    /\ ((res = Raised (ClashException msg_illegal_value) /\ (p ∉ Cell.possibilities cell)
         /\ h2 = h)
        \/ (res = Returned () /\ (p ∈ Cell.possibilities cell)
            /\ h2 = <[r := <[idx := Cell.with_possibilities cell [p]]> cells]> h)).
Proof.
  unfold Sudoku.assign. destruct (h !! r) as [cells|]; [|done]. simpl.
  destruct (cells !! idx) as [cell|] eqn:Hc; [|done]. simpl.
  unfold Cell.set_value. destruct (decide (p ∈ Cell.possibilities cell)).
  - intros [= <- <-]. exists cells, cell. split_and!; [done | done |]. by right.
  - intros [= <- <-]. exists cells, cell. split_and!; [done | done |]. by left.
Qed.

(** Steps a and b succeed on every candidate of the branch cell, and give a
    fresh object that differs from the copied one in that cell only. *)
Lemma branch_candidate (h : Sudoku.store) new idx p cells cell :
  h !! new = Some cells -> cells !! idx = Some cell -> p ∈ Cell.possibilities cell ->
  Sudoku.deepcopy h new = Some (h ++ [cells], length h)
  /\ Sudoku.assign (h ++ [cells]) (length h) idx p
     = Some (h ++ [<[idx := Cell.with_possibilities cell [p]]> cells], Returned ())
  /\ branch h new idx p
     = Some (h ++ [<[idx := Cell.with_possibilities cell [p]]> cells], length h).
Proof.
  intros Hn Hc Hp.
  assert (Ha : Sudoku.assign (h ++ [cells]) (length h) idx p
     = Some (h ++ [<[idx := Cell.with_possibilities cell [p]]> cells], Returned ())).
  { unfold Sudoku.assign. rewrite lookup_app_r, Nat.sub_diag; [|done]. simpl.
    rewrite Hc. simpl. unfold Cell.set_value.
    destruct (decide (p ∈ Cell.possibilities cell)); [|done].
    by rewrite store_insert_fresh. }
  split_and!; [by apply deepcopy_lookup | done |].
  unfold branch. rewrite (deepcopy_lookup _ _ _ Hn). simpl. by rewrite Ha.
Qed.

Lemma branch_Some h new idx p h2 new2 :
  branch h new idx p = Some (h2, new2) ->
  exists cells cell, h !! new = Some cells /\ cells !! idx = Some cell
    /\ (p ∈ Cell.possibilities cell) /\ new2 = length h
    /\ h2 = h ++ [<[idx := Cell.with_possibilities cell [p]]> cells].
Proof.
  unfold branch. destruct (Sudoku.deepcopy h new) as [[h1 n2]|] eqn:Ed; [|done]. simpl.
  apply deepcopy_Some in Ed as (cells & Hn & -> & ->).
  destruct (Sudoku.assign _ _ _ _) as [[h3 res]|] eqn:Ea; [|done]. simpl.
  apply assign_Some in Ea as (cells0 & cell & Hl & Hc & Hres).
  rewrite lookup_app_r, Nat.sub_diag in Hl; [|done]. simpl in Hl. inversion Hl; subst cells0.
  destruct Hres as [(-> & _ & _)|(-> & Hp & ->)]; [done|].
  intros [= <- <-]. exists cells, cell. by rewrite store_insert_fresh.
Qed.

Section Search.

Variable rec : Sudoku.store -> nat -> option (Sudoku.store * result nat).
Hypothesis rec_frame : forall h r h' res,
  rec h r = Some (h', res) ->
  h `prefix_of` h' /\ forall r', res = Returned r' -> (length h <= r' < length h')%nat.

Lemma solve_loop_frame new idx ps h h' res :
  (new < length h)%nat ->
  Sudoku.solve_loop rec new idx ps h = Some (h', res) ->
  h `prefix_of` h' /\ forall r', res = Returned r' -> (length h <= r' < length h')%nat.
Proof.
  revert h. induction ps as [|p ps IH]; intros h Hnew; simpl.
  { intros [= <- <-]. done. }
  destruct (Sudoku.deepcopy h new) as [[h1 n2]|] eqn:Ed; [|done]. simpl.
  apply deepcopy_Some in Ed as (cells & Hn & -> & ->).
  destruct (Sudoku.assign _ _ _ _) as [[h2 set]|] eqn:Ea; [|done]. simpl.
  apply assign_Some in Ea as (cells0 & cell & Hl & Hc & Hres).
  assert (Hp2 : h `prefix_of` h2 /\ (length h < length h2)%nat).
  { destruct Hres as [(_ & _ & ->)|(_ & _ & ->)].
    - split; [by apply prefix_app_r|]. rewrite length_app. simpl. lia.
    - split; [apply prefix_insert_fresh; [by apply prefix_app_r | done]|].
      rewrite length_insert, length_app. simpl. lia. }
  destruct Hp2 as [Hp2 Hlen2].
  destruct set as [[]|e]; [|by intros [= <- <-]].
  destruct (rec h2 (length h)) as [[h3 r3]|] eqn:Er; [|done].
  apply rec_frame in Er as [Hp3 Hr3]. pose proof (prefix_length _ _ Hp3) as Hlen3.
  assert (Hdone : Some (h3, r3) = Some (h', res) ->
    h `prefix_of` h' /\ forall r', res = Returned r' -> (length h <= r' < length h')%nat).
  { intros [= <- <-]. split; [by etrans|]. intros r' ->.
    specialize (Hr3 r' eq_refl). lia. }
  destruct r3 as [r3|[]]; try done.
  intros H. apply IH in H as [H1 H2]; [|lia].
  split; [etrans; [|done]; by etrans|]. intros r' Hr'. specialize (H2 r' Hr'). lia.
Qed.

End Search.

(** [solve] spelled out on a reference that is bound in the store. *)
Lemma solve_unfold fuel cb (h : Sudoku.store) self cells :
  h !! self = Some cells ->
  Sudoku.solve (S fuel) cb h self =
  match Sudoku._easy_step (S fuel) cells with
  | None => None
  | Some (cells', Raised e) => Some (h ++ [cells'], Raised e)
  | Some (cells', Returned ret_val) =>
      match (if cb then Sudoku.progress cells' else Returned Float.zero) with
      | Raised e => Some (h ++ [cells'], Raised e)
      | Returned _ =>
          match ret_val with
          | None => Some (h ++ [cells'], Returned (length h))
          | Some (cell_idx, possibilities) =>
              Sudoku.solve_loop (Sudoku.solve fuel cb) (length h) cell_idx possibilities
                                (h ++ [cells'])
          end
      end
  end.
Proof.
  intros Hs. simpl. rewrite (deepcopy_lookup _ _ _ Hs). simpl.
  rewrite lookup_app_r, Nat.sub_diag; [|done]. simpl.
  destruct (Sudoku._easy_step (S fuel) cells) as [[cells' ret]|]; [|done]. simpl.
  by rewrite store_insert_fresh.
Qed.

Lemma solve_unbound fuel cb (h : Sudoku.store) self :
  h !! self = None -> Sudoku.solve fuel cb h self = None.
Proof. intros Hs. destruct fuel; [done|]. simpl. unfold Sudoku.deepcopy. by rewrite Hs. Qed.

(** [solve] only allocates: the store it was given is a prefix of the store
    it leaves, and what it returns is one of the objects it allocated. *)
Lemma solve_frame fuel cb (h : Sudoku.store) self h' res :
  Sudoku.solve fuel cb h self = Some (h', res) ->
  h `prefix_of` h' /\ forall r', res = Returned r' -> (length h <= r' < length h')%nat.
Proof.
  revert h self h' res. induction fuel as [|fuel IH]; intros h self h' res; [done|].
  destruct (h !! self) as [cells|] eqn:Hs; [|by rewrite solve_unbound].
  rewrite (solve_unfold _ _ _ _ _ Hs).
  destruct (Sudoku._easy_step (S fuel) cells) as [[cells' ret]|]; [|done].
  assert (Hnow : forall res0, Some (h ++ [cells'], res0) = Some (h', res) ->
    (forall r', res0 = Returned r' -> r' = length h) ->
    h `prefix_of` h' /\ forall r', res = Returned r' -> (length h <= r' < length h')%nat).
  { intros res0 [= <- <-] Hr. split; [by apply prefix_app_r|].
    intros r' ->%Hr. rewrite length_app. simpl. lia. }
  destruct ret as [ret|e]; [|by intros H; apply (Hnow _ H)].
  destruct (if cb then _ else _); [|by intros H; apply (Hnow _ H)].
  destruct ret as [[idx ps]|]; [|by intros H; apply (Hnow _ H); intros ? [= <-]].
  intros H. apply solve_loop_frame in H as [H1 H2].
  - split; [etrans; [|done]; by apply prefix_app_r|].
    intros r' Hr'. specialize (H2 r' Hr'). rewrite length_app in H2. simpl in H2. lia.
  - apply IH.
  - rewrite length_app. simpl. lia.
Qed.

(** ** The clash of the setter is never raised *)

Section Search_setter.

Variable rec : Sudoku.store -> nat -> option (Sudoku.store * result nat).
Hypothesis rec_frame : forall h r h' res,
  rec h r = Some (h', res) ->
  h `prefix_of` h' /\ forall r', res = Returned r' -> (length h <= r' < length h')%nat.

(** While the object [new_sudoku] is bound to [cells] and the values tried
    are candidates of its cell [cell_idx], the loop ends in a result the
    recursive call returned, or in the clash that reports exhaustion, or in
    an exception, other than the clash, that the recursive call raised. *)
Lemma solve_loop_outcome new idx ps (h : Sudoku.store) cells cell h' res :
  h !! new = Some cells -> cells !! idx = Some cell ->
  ps ⊆ Cell.possibilities cell ->
  Sudoku.solve_loop rec new idx ps h = Some (h', res) ->
  (exists h1 r1, rec h1 r1 = Some (h', res)
                 /\ forall msg, res <> Raised (ClashException msg))
  \/ res = Raised (ClashException msg_not_solvable).
Proof.
  revert h. induction ps as [|p ps IH]; intros h Hn Hc Hps; simpl.
  { intros [= <- <-]. by right. }
  assert (Hp : p ∈ Cell.possibilities cell) by (apply Hps; left).
  destruct (branch_candidate h new idx p cells cell Hn Hc Hp) as (-> & Ha & _). simpl.
  rewrite Ha. simpl.
  destruct (rec _ (length h)) as [[h3 r3]|] eqn:Er; [|done].
  assert (Hret : Some (h3, r3) = Some (h', res) ->
                 (forall msg, r3 <> Raised (ClashException msg)) ->
    (exists h1 r1, rec h1 r1 = Some (h', res)
                   /\ forall msg, res <> Raised (ClashException msg))
    \/ res = Raised (ClashException msg_not_solvable)).
  { intros [= <- <-] Hm. left. eauto. }
  destruct r3 as [r3|[]]; try (by intros H; apply (Hret H)).
  apply rec_frame in Er as [Hp3 _].
  apply IH; [|done|].
  - eapply prefix_lookup_Some; [done|]. etrans; [|done]. by apply prefix_app_r.
  - intros x Hx. apply Hps. by right.
Qed.

End Search_setter.

Lemma progress_raised cells e :
  Sudoku.progress cells = Raised e -> cells = [] /\ e = ZeroDivisionError.
Proof. destruct cells; [by intros [= <-] | done]. Qed.

Lemma solve_clash_message fuel cb (h : Sudoku.store) self h' msg :
  Sudoku.solve fuel cb h self = Some (h', Raised (ClashException msg)) ->
  msg = msg_only_value \/ msg = msg_not_solvable.
Proof.
  destruct fuel as [|fuel]; [done|].
  destruct (h !! self) as [cells|] eqn:Hs; [|by rewrite solve_unbound].
  rewrite (solve_unfold _ _ _ _ _ Hs).
  destruct (Sudoku._easy_step (S fuel) cells) as [[cells' ret]|] eqn:Ee; [|done].
  destruct ret as [ret|e].
  2: { intros [= <- ->]. apply easy_step_shrinks in Ee as [_ He].
       destruct (He _ eq_refl) as [[= ->]|?]; [by left | done]. }
  destruct (if cb then _ else _) as [q|e] eqn:Ep.
  2: { intros [= <- ->]. destruct cb; [|done]. by apply progress_raised in Ep as [_ ?]. }
  destruct ret as [[idx ps]|]; [|done].
  apply easy_step_branch in Ee as (_ & Hin & _).
  apply elem_of_open_cells in Hin as (_ & cell & Hc & ->).
  intros H. eapply solve_loop_outcome in H as [(h1 & r1 & _ & Hm)|[= ->]].
  - by specialize (Hm msg).
  - by right.
  - apply solve_frame.
  - rewrite lookup_app_r, Nat.sub_diag; [|done]. done.
  - done.
  - done.
Qed.

(** C9. Step b cannot clash.  The candidates [_easy_step] hands back are the
    candidate list of the branch cell in the state it leaves; as long as the
    object they were read from is bound to that state, the copy holds the same
    cell and the setter accepts every one of them.  Accordingly no [solve],
    whatever the store, the object and the depth, ends in the clash of the
    setter. *)
Theorem assignment_never_clashes fuel (cells cells' : list Cell.t) idx ps
    (h : Sudoku.store) new_sudoku p :
  Sudoku._easy_step fuel cells = Some (cells', Returned (Some (idx, ps))) ->
  h !! new_sudoku = Some cells' ->
  p ∈ ps ->
  (exists cell,
      cells' !! idx = Some cell /\ ps = Cell.possibilities cell
      /\ Cell.set_value cell p = Returned (Cell.with_possibilities cell [p])
      /\ Sudoku.deepcopy h new_sudoku = Some (h ++ [cells'], length h)
      /\ Sudoku.assign (h ++ [cells']) (length h) idx p
         = Some (h ++ [<[idx := Cell.with_possibilities cell [p]]> cells'], Returned ()))
  /\ (forall fuel' cb (h0 : Sudoku.store) self h' msg,
        Sudoku.solve fuel' cb h0 self = Some (h', Raised (ClashException msg)) ->
        msg <> msg_illegal_value).
Proof.
  intros He Hn Hp. split.
  - apply easy_step_branch in He as (_ & Hin & _).
    apply elem_of_open_cells in Hin as (_ & cell & Hc & ->).
    exists cell. destruct (branch_candidate h new_sudoku idx p cells' cell Hn Hc Hp)
      as (Hd & Ha & _).
    split_and!; try done. unfold Cell.set_value.
    by destruct (decide (p ∈ Cell.possibilities cell)).
  - intros fuel' cb h0 self h' msg [-> | ->]%solve_clash_message; done.
Qed.

(** ** Termination of the search *)

Section Search_total.

Variable rec : Sudoku.store -> nat -> option (Sudoku.store * result nat).
Variable bound : nat.
Hypothesis rec_frame : forall h r h' res,
  rec h r = Some (h', res) ->
  h `prefix_of` h' /\ forall r', res = Returned r' -> (length h <= r' < length h')%nat.
Hypothesis rec_total : forall (h : Sudoku.store) r cells,
  h !! r = Some cells -> (total cells < bound)%nat ->
  exists h' res, rec h r = Some (h', res).

Lemma solve_loop_total new idx ps (h : Sudoku.store) cells cell :
  h !! new = Some cells -> cells !! idx = Some cell ->
  (1 < length (Cell.possibilities cell))%nat ->
  ps ⊆ Cell.possibilities cell ->
  (total cells <= bound)%nat ->
  exists h' res, Sudoku.solve_loop rec new idx ps h = Some (h', res).
Proof.
  intros Hn Hc Hlen Hps Hb. revert h Hn Hps.
  induction ps as [|p ps IH]; intros h Hn Hps; simpl; [by eauto|].
  assert (Hp : p ∈ Cell.possibilities cell) by (apply Hps; left).
  destruct (branch_candidate h new idx p cells cell Hn Hc Hp) as (-> & Ha & _). simpl.
  rewrite Ha. simpl.
  destruct (rec_total (h ++ [<[idx := Cell.with_possibilities cell [p]]> cells])
              (length h) (<[idx := Cell.with_possibilities cell [p]]> cells))
    as (h3 & r3 & Er).
  { rewrite lookup_app_r, Nat.sub_diag; [|done]. done. }
  { pose proof (total_insert cells idx cell (Cell.with_possibilities cell [p]) Hc) as Ht.
    simpl in Ht. lia. }
  rewrite Er. apply rec_frame in Er as [Hp3 _].
  destruct r3 as [r3|[]]; try by eauto.
  apply IH.
  - eapply prefix_lookup_Some; [done|]. etrans; [|done]. by apply prefix_app_r.
  - intros x Hx. apply Hps. by right.
Qed.

End Search_total.

Lemma solve_total fuel cb (h : Sudoku.store) self cells :
  h !! self = Some cells -> (total cells < fuel)%nat ->
  exists h' res, Sudoku.solve fuel cb h self = Some (h', res).
Proof.
  revert h self cells. induction fuel as [|fuel IH]; intros h self cells Hs Hf; [lia|].
  rewrite (solve_unfold _ _ _ _ _ Hs).
  destruct (easy_step_total (S fuel) cells Hf) as (cells' & ret & Ee). rewrite Ee.
  destruct ret as [ret|e]; [|by eauto].
  destruct (if cb then _ else _); [|by eauto].
  destruct ret as [[idx ps]|]; [|by eauto].
  pose proof (easy_step_shrinks _ _ _ _ Ee) as [Hsh%shrinks_total _].
  apply easy_step_branch in Ee as (_ & Hin & _).
  apply elem_of_open_cells in Hin as (Hlen & cell & Hc & ->).
  eapply solve_loop_total with (bound := fuel) (cells := cells') (cell := cell).
  - apply solve_frame.
  - intros h0 r cs. apply IH.
  - rewrite lookup_app_r, Nat.sub_diag; [|done]. done.
  - done.
  - done.
  - done.
  - lia.
Qed.

(** C7. A call of [solve] on an object of the store, with a depth above the
    number of candidates of that object, ends, by returning or by raising; the
    store it leaves extends the store it was given, so the object it was
    called on, and every other object there was, holds the very cells and
    candidate lists it held before; and what is returned is an object
    allocated during the call. *)
Theorem solve_leaves_input fuel cb (h : Sudoku.store) self cells :
  h !! self = Some cells -> (total cells < fuel)%nat ->
  exists h' res,
    Sudoku.solve fuel cb h self = Some (h', res)
    /\ h `prefix_of` h'
    /\ h' !! self = Some cells
    /\ (forall r cs, h !! r = Some cs -> h' !! r = Some cs)
    /\ (forall r, res = Returned r -> (length h <= r < length h')%nat).
Proof.
  intros Hs Hf. destruct (solve_total fuel cb h self cells Hs Hf) as (h' & res & E).
  exists h', res. pose proof (solve_frame _ _ _ _ _ _ E) as [Hp Hr].
  split_and!; try done.
  - by eapply prefix_lookup_Some.
  - intros r cs Hl. by eapply prefix_lookup_Some.
Qed.

(** ** Candidate lists stay in ascending order *)

Lemma sublist_StronglySorted {A} (R : relation A) (l1 l2 : list A) :
  l1 `sublist_of` l2 -> StronglySorted R l2 -> StronglySorted R l1.
Proof.
  induction 1 as [|x l1 l2 Hs IH|x l1 l2 Hs IH]; intros Hss; [done|..].
  - apply StronglySorted_inv in Hss as [Hss Hx]. constructor; [by apply IH|].
    rewrite Forall_forall in *. intros y Hy. apply Hx. by eapply elem_of_sublist.
  - apply StronglySorted_inv in Hss as [Hss _]. by apply IH.
Qed.

Lemma py_range_ascending lo hi : StronglySorted Z.lt (py_range lo hi).
Proof.
  unfold py_range. apply StronglySorted_fmap with (R1 := lt); [intros; lia|].
  generalize 0%nat. induction (Z.to_nat (hi - lo)) as [|n IH]; intros a; simpl.
  - constructor.
  - constructor; [apply IH|]. apply Forall_forall. intros y Hy%elem_of_seq. lia.
Qed.

Lemma cell_init_ascending r c order v cell :
  Cell.init r c order v = Returned cell -> StronglySorted Z.lt (Cell.possibilities cell).
Proof.
  unfold Cell.init.
  destruct (match PyInt.int v with Raised ValueError => _ | r0 => r0 end) as [z|e]; [|done].
  destruct (decide (order = 0)); [done|]. intros [= <-]. simpl.
  destruct (decide (z = 0)); [apply py_range_ascending|].
  repeat constructor.
Qed.

Lemma collect_Returned {A} (l : list (result A)) (al : list A) :
  collect l = Returned al -> l = Returned <$> al.
Proof.
  revert al. induction l as [|[a|e] l IH]; intros al; simpl; [by intros [= <-] | | done].
  destruct (collect l) as [al'|]; [|done]. intros [= <-]. by rewrite (IH al').
Qed.

Lemma cells_from_arr_init arr order cells cell :
  cells_from_arr arr order = Returned cells -> cell ∈ cells ->
  exists r c v, Cell.init r c order v = Returned cell.
Proof.
  unfold cells_from_arr. intros Hc%collect_Returned Hin.
  assert (Hr : Returned cell ∈ Returned <$> cells) by (by apply list_elem_of_fmap_2).
  rewrite <- Hc in Hr. apply list_elem_of_In, in_concat in Hr as (l & Hl & Hr).
  apply list_elem_of_In, elem_of_lookup_imap in Hl as (i & row & -> & _).
  apply list_elem_of_In, elem_of_lookup_imap in Hr as (j & v & Hr & _). eauto.
Qed.

Lemma init_ascending arr cells : Sudoku.init arr = Returned cells -> ascending cells.
Proof.
  unfold Sudoku.init. destruct (validate_array arr) as [order|]; [|done].
  intros Hc. apply Forall_forall. intros cell Hin.
  destruct (cells_from_arr_init _ _ _ _ Hc Hin) as (r & c & v & Hi).
  by eapply cell_init_ascending.
Qed.

Lemma shrinks_ascending cs cs' : shrinks cs cs' -> ascending cs -> ascending cs'.
Proof.
  unfold ascending. induction 1 as [|c c' cs cs' (_ & _ & _ & Hs) _ IH]; [done|].
  intros [Hc Hcs]%Forall_cons. constructor; [|by apply IH].
  by eapply sublist_StronglySorted.
Qed.

Lemma assign_ascending (cells : list Cell.t) idx cell p :
  ascending cells -> ascending (<[idx := Cell.with_possibilities cell [p]]> cells).
Proof. intros H. apply Forall_insert; [done|]. simpl. repeat constructor. Qed.

(** ** The order of the search *)

Lemma branch_steps h new idx p h2 new2 :
  branch h new idx p = Some (h2, new2) ->
  exists h1, Sudoku.deepcopy h new = Some (h1, new2)
             /\ Sudoku.assign h1 new2 idx p = Some (h2, Returned ()).
Proof.
  intros (cells & cell & Hn & Hc & Hp & -> & ->)%branch_Some.
  destruct (branch_candidate h new idx p cells cell Hn Hc Hp) as (Hd & Ha & _). eauto.
Qed.

Lemma solve_loop_first_success rec new idx pre p post h h1 h2 new2 h3 r :
  all_clash rec new idx pre h = Some h1 ->
  branch h1 new idx p = Some (h2, new2) ->
  rec h2 new2 = Some (h3, Returned r) ->
  Sudoku.solve_loop rec new idx (pre ++ p :: post) h = Some (h3, Returned r).
Proof.
  intros Hpre Hb Hr. revert h Hpre. induction pre as [|q pre IH]; intros h; simpl.
  - intros [= ->]. apply branch_steps in Hb as (ha & -> & Ha). simpl.
    rewrite Ha. simpl. by rewrite Hr.
  - destruct (branch h new idx q) as [[hb nb]|] eqn:Eb; [|done]. simpl.
    apply branch_steps in Eb as (ha & -> & Ha). simpl. rewrite Ha. simpl.
    destruct (rec hb nb) as [[hc [rc|[]]]|]; try done. apply IH.
Qed.

(** C6. Let [solve] reach its loop with the candidates [pre ++ p :: post] of
    the branch cell, on an object whose candidate lists are ascending.  Then
    these candidates are in strictly ascending order: those of [pre] are below
    [p] and those of [post] above.  And when the recursive calls for the values
    of [pre], made in that order, all raise the clash and the call for [p]
    returns [r], [solve] returns [r] in the store that call left: no value of
    [post] is tried. *)
Theorem solve_tries_in_order fuel cb (h : Sudoku.store) self cells cells' idx
    pre p post h1 h2 new2 h3 r :
  h !! self = Some cells ->
  ascending cells ->
  Sudoku._easy_step (S fuel) cells = Some (cells', Returned (Some (idx, pre ++ p :: post))) ->
  all_clash (Sudoku.solve fuel cb) (length h) idx pre (h ++ [cells']) = Some h1 ->
  branch h1 (length h) idx p = Some (h2, new2) ->
  Sudoku.solve fuel cb h2 new2 = Some (h3, Returned r) ->
  Sudoku.solve (S fuel) cb h self = Some (h3, Returned r)
  /\ StronglySorted Z.lt (pre ++ p :: post)
  /\ Forall (fun q => q < p) pre /\ Forall (fun q => p < q) post.
Proof.
  intros Hs Hasc He Hpre Hb Hr.
  assert (Hsorted : StronglySorted Z.lt (pre ++ p :: post)).
  { pose proof (easy_step_shrinks _ _ _ _ He) as [Hsh _].
    pose proof (shrinks_ascending _ _ Hsh Hasc) as Hasc'.
    apply easy_step_branch in He as (_ & Hin & _).
    apply elem_of_open_cells in Hin as (_ & cell & Hc & ->).
    unfold ascending in Hasc'. rewrite Forall_forall in Hasc'.
    apply Hasc'. by eapply list_elem_of_lookup_2. }
  split_and!; [|done|..].
  - rewrite (solve_unfold _ _ _ _ _ Hs), He.
    assert (Hprog : exists q, (if cb then Sudoku.progress cells' else Returned Float.zero)
                              = Returned q).
    { destruct cb; [|by eauto]. apply easy_step_branch in He as (_ & Hin & _).
      apply elem_of_open_cells in Hin as (_ & cell & Hc & _).
      destruct cells'; [done|]. by eauto. }
    destruct Hprog as [q ->]. by eapply solve_loop_first_success.
  - apply Forall_forall. intros q Hq.
    eapply StronglySorted_app_1_elem_of; [exact Hsorted | done | left].
  - apply StronglySorted_app_1_r, StronglySorted_inv in Hsorted as [_ H]. done.
Qed.

(** ** What a pass establishes *)

Lemma StronglySorted_lt_NoDup (l : list Z) : StronglySorted Z.lt l -> NoDup l.
Proof.
  induction 1 as [|x l Hs IH Hx]; constructor; [|done].
  intros Hin. rewrite Forall_forall in Hx. specialize (Hx x Hin). lia.
Qed.

Lemma list_remove_not_elem v l l' :
  NoDup l -> Cell.list_remove v l = Some l' -> v ∉ l'.
Proof.
  intros Hnd H. apply list_remove_Some in H as (l1 & l2 & -> & Hn1 & ->).
  apply NoDup_app in Hnd as (_ & Hd & Hnd2). apply NoDup_cons in Hnd2 as [Hn2 _].
  rewrite elem_of_app. tauto.
Qed.

Lemma sublist_singleton (l : list Z) v : l `sublist_of` [v] -> l <> [] -> l = [v].
Proof.
  intros Hs Hne. apply sublist_cons_r in Hs as [Hs|(l' & -> & Hs)].
  - by apply sublist_nil_r in Hs.
  - by apply sublist_nil_r in Hs as ->.
Qed.

Lemma cell_shrinks_determined c c' v :
  cell_shrinks c c' -> Cell.possibilities c = [v] -> Cell.possibilities c' <> [] -> c' = c.
Proof.
  intros (Hr & Hcl & Hsg & Hs) Hv Hne. rewrite Hv in Hs.
  apply sublist_singleton in Hs; [|done].
  destruct c, c'; simpl in *; congruence.
Qed.

Lemma cell_shrinks_matches c d c' d' :
  cell_shrinks c c' -> cell_shrinks d d' -> Cell.matches c' d' = Cell.matches c d.
Proof.
  intros (H1 & H2 & H3 & _) (H4 & H5 & H6 & _). unfold Cell.matches.
  by rewrite H1, H2, H3, H4, H5, H6.
Qed.

Lemma cell_shrinks_eqb c d c' d' :
  cell_shrinks c c' -> cell_shrinks d d' -> Cell.eqb c' d' = Cell.eqb c d.
Proof.
  intros (H1 & H2 & _ & _) (H4 & H5 & _ & _). unfold Cell.eqb.
  by rewrite H1, H2, H4, H5.
Qed.

Lemma cell_eqb_refl c : Cell.eqb c c = true.
Proof. unfold Cell.eqb. by rewrite !bool_decide_eq_true_2. Qed.

Lemma shrinks_placed cs cs' : shrinks cs cs' -> placed cs -> placed cs'.
Proof.
  intros Hs Hp i j ci' cj' Hi Hj He.
  destruct (shrinks_lookup_r _ _ _ _ Hs Hi) as (ci & Hi0 & Hsi).
  destruct (shrinks_lookup_r _ _ _ _ Hs Hj) as (cj & Hj0 & Hsj).
  apply (Hp i j ci cj Hi0 Hj0). by rewrite <- (cell_shrinks_eqb _ _ _ _ Hsi Hsj).
Qed.

Lemma shrinks_no_zero cs cs' :
  shrinks cs cs' -> Forall (fun c => 0 ∉ Cell.possibilities c) cs ->
  Forall (fun c => 0 ∉ Cell.possibilities c) cs'.
Proof.
  induction 1 as [|c c' cs cs' (_ & _ & _ & Hs) _ IH]; [done|].
  intros [Hc Hcs]%Forall_cons. constructor; [|by apply IH].
  intros Hin. apply Hc. by eapply elem_of_sublist.
Qed.

Lemma shrinks_well_formed cs cs' :
  shrinks cs cs' -> nonempty cs' -> well_formed cs -> well_formed cs'.
Proof.
  intros Hs Hne (Hp & Ha & Hz & _). split_and!;
    eauto using shrinks_placed, shrinks_ascending, shrinks_no_zero.
Qed.

(** In a well-formed state a cell has a value exactly when one candidate is
    left. *)
Lemma well_formed_value cs i c :
  well_formed cs -> cs !! i = Some c ->
  (Cell.value c <> 0 <-> exists v, Cell.possibilities c = [v])
  /\ (Cell.value c = 0 -> (1 < length (Cell.possibilities c))%nat)
  /\ NoDup (Cell.possibilities c).
Proof.
  intros (_ & Ha & Hz & Hne) Hi.
  apply list_elem_of_lookup_2 in Hi.
  unfold ascending, nonempty in *. rewrite Forall_forall in Ha, Hz, Hne.
  specialize (Ha c Hi). specialize (Hz c Hi). specialize (Hne c Hi).
  unfold Cell.value. destruct (Cell.possibilities c) as [|v [|w l]]; try done.
  - split_and!; [|intros ->; exfalso; apply Hz; left | by apply StronglySorted_lt_NoDup].
    split; [by eauto | intros _ ->; apply Hz; left].
  - split_and!; [|simpl; lia | by apply StronglySorted_lt_NoDup].
    split; [done | by intros [? ?]].
Qed.

Lemma nonempty_insert (cs : list Cell.t) i c :
  nonempty cs -> Cell.possibilities c <> [] -> nonempty (<[i := c]> cs).
Proof. intros. by apply Forall_insert. Qed.

(** A [Cell.eliminate] that returns never empties the candidate list. *)
Lemma cell_eliminate_nonempty c v c' n :
  Cell.eliminate c v = Returned (c', n) ->
  Cell.possibilities c <> [] -> Cell.possibilities c' <> [].
Proof.
  unfold Cell.eliminate.
  destruct (bool_decide _ && bool_decide _) eqn:E; [done|].
  destruct (Cell.list_remove v (Cell.possibilities c)) as [ps'|] eqn:Er;
    intros [= <- <-]; [|done].
  intros Hne. simpl. intros ->.
  apply list_remove_Some in Er as (l1 & l2 & Hps & _ & Hnil).
  symmetry in Hnil. apply app_eq_nil in Hnil as [-> ->]. simpl in Hps.
  rewrite Hps in E. simpl in E. by rewrite !bool_decide_eq_true_2 in E.
Qed.

Lemma closed_at_step (cs : list Cell.t) idx other other' k :
  cs !! idx = Some other -> cell_shrinks other other' -> k <> idx ->
  closed_at cs k -> closed_at (<[idx := other']> cs) k.
Proof.
  intros Hidx Hsh Hk Hcl ck v Hck Hv j cj Hj Hjk Hm.
  rewrite list_lookup_insert_ne in Hck by done.
  destruct (decide (j = idx)) as [->|Hji].
  - rewrite list_lookup_insert_eq in Hj by (by eapply lookup_lt_Some).
    inversion Hj; subst cj.
    assert (Hm0 : Cell.matches ck other = true).
    { by rewrite <- (cell_shrinks_matches ck other ck other'). }
    specialize (Hcl ck v Hck Hv idx other Hidx Hjk Hm0).
    intros Hin. apply Hcl. destruct Hsh as (_ & _ & _ & Hs). by eapply elem_of_sublist.
  - rewrite list_lookup_insert_ne in Hj by done. by eapply Hcl.
Qed.

Lemma peers_cleared_shrinks (P : nat -> Prop) cell value i cs cs' :
  shrinks cs cs' ->
  (forall j cj, P j -> j <> i -> cs !! j = Some cj ->
                Cell.matches cell cj = true -> value ∉ Cell.possibilities cj) ->
  (forall j cj, P j -> j <> i -> cs' !! j = Some cj ->
                Cell.matches cell cj = true -> value ∉ Cell.possibilities cj).
Proof.
  intros Hs H j cj' HP Hji Hj Hm.
  destruct (shrinks_lookup_r _ _ _ _ Hs Hj) as (cj & Hj0 & Hsj).
  assert (Hm0 : Cell.matches cell cj = true).
  { by rewrite <- (cell_shrinks_matches cell cj cell cj'). }
  intros Hin. apply (H j cj HP Hji Hj0 Hm0).
  destruct Hsj as (_ & _ & _ & Hsub). by eapply elem_of_sublist.
Qed.

Lemma shrinks_keeps_determined cs cs' i cell v :
  shrinks cs cs' -> nonempty cs' -> cs !! i = Some cell ->
  Cell.possibilities cell = [v] -> cs' !! i = Some cell.
Proof.
  intros Hs Hne Hi Hv. destruct (shrinks_lookup _ _ _ _ Hs Hi) as (c' & Hi' & Hsc).
  rewrite Hi'. f_equal. eapply cell_shrinks_determined; [done | done |].
  unfold nonempty in Hne. rewrite Forall_forall in Hne. apply Hne.
  by eapply list_elem_of_lookup_2.
Qed.

Section Cascade_closed.

Variable rec : list Cell.t -> nat -> option (list Cell.t * result unit).
Hypothesis rec_shrinks : forall cs i cs' r,
  rec cs i = Some (cs', r) -> shrinks cs cs' /\ clash_only r.
Hypothesis rec_closed : forall (D : nat -> Prop) cs k cs',
  well_formed cs -> closed_but (fun x => D x \/ x = k) cs ->
  rec cs k = Some (cs', Returned ()) ->
  nonempty cs' /\ closed_but D cs'.

Lemma eliminate_loop_closed (D : nat -> Prop) cell value i idxs (visited : nat -> Prop)
    cs cs' :
  well_formed cs ->
  cs !! i = Some cell -> Cell.possibilities cell = [value] ->
  (forall j, j ∈ idxs -> (j < length cs)%nat) ->
  (forall j cj, visited j -> j <> i -> cs !! j = Some cj ->
                Cell.matches cell cj = true -> value ∉ Cell.possibilities cj) ->
  closed_but (fun k => D k \/ k = i) cs ->
  Sudoku.eliminate_loop rec cell value idxs cs = Some (cs', Returned ()) ->
  nonempty cs' /\ shrinks cs cs'
  /\ (forall j cj, visited j \/ j ∈ idxs -> j <> i -> cs' !! j = Some cj ->
                   Cell.matches cell cj = true -> value ∉ Cell.possibilities cj)
  /\ closed_but (fun k => D k \/ k = i) cs'.
Proof.
  revert visited cs. induction idxs as [|idx rest IH]; intros visited cs Hwf Hi Hv Hlen Hvis Hcl;
    simpl.
  { intros [= <-]. split_and!; [apply Hwf | reflexivity | | done].
    intros j cj [Hj|Hj%elem_of_nil]; [by apply Hvis | done]. }
  destruct (cs !! idx) as [other|] eqn:Hidx.
  2: { apply lookup_ge_None in Hidx. specialize (Hlen idx ltac:(left)). lia. }
  assert (Hlen' : forall j, j ∈ rest -> (j < length cs)%nat).
  { intros j Hj. apply Hlen. by right. }
  (* what the induction hypothesis gives once position [idx] is dealt with *)
  assert (Hnext : forall cs1,
    well_formed cs1 -> cs1 !! i = Some cell -> shrinks cs cs1 ->
    (forall cj, idx <> i -> cs1 !! idx = Some cj ->
                Cell.matches cell cj = true -> value ∉ Cell.possibilities cj) ->
    closed_but (fun k => D k \/ k = i) cs1 ->
    Sudoku.eliminate_loop rec cell value rest cs1 = Some (cs', Returned ()) ->
    nonempty cs' /\ shrinks cs cs'
    /\ (forall j cj, visited j \/ j ∈ idx :: rest -> j <> i -> cs' !! j = Some cj ->
                     Cell.matches cell cj = true -> value ∉ Cell.possibilities cj)
    /\ closed_but (fun k => D k \/ k = i) cs').
  { intros cs1 Hwf1 Hi1 Hs1 Hidx1 Hcl1 Hloop.
    apply (IH (fun j => visited j \/ j = idx)) in Hloop as (Hne' & Hs' & Hvis' & Hcl');
      [|done|done|done| |  |done].
    - split_and!; [done | by etrans | | done].
      intros j cj Hj. apply Hvis'. rewrite elem_of_cons in Hj. tauto.
    - intros j Hj. rewrite (shrinks_length _ _ Hs1). by apply Hlen'.
    - intros j cj [Hj| ->] Hji Hcj Hm; [|by apply Hidx1].
      by apply (peers_cleared_shrinks visited cell value i cs cs1 Hs1 Hvis j cj). }
  destruct (Cell.eqb cell other) eqn:Heq.
  { assert (i = idx) as <- by (eapply (proj1 Hwf); eauto).
    apply Hnext; [done | done | reflexivity | done | done]. }
  assert (Hne_idx : idx <> i).
  { intros ->. rewrite Hi in Hidx. inversion Hidx; subst other.
    by rewrite cell_eqb_refl in Heq. }
  destruct (Cell.matches cell other) eqn:Hm.
  2: { apply Hnext; [done | done | reflexivity | | done].
       intros cj _ Hcj. rewrite Hidx in Hcj. inversion Hcj; subst cj. by rewrite Hm. }
  destruct (Cell.eliminate other value) as [[other' n]|e] eqn:He; [|done].
  pose proof (cell_eliminate_shrinks _ _ _ _ He) as Hso.
  assert (Hs1 : shrinks cs (<[idx := other']> cs)) by (by eapply shrinks_insert).
  assert (Hne1 : nonempty (<[idx := other']> cs)).
  { apply nonempty_insert; [apply Hwf|]. eapply cell_eliminate_nonempty; [done|].
    destruct Hwf as (_ & _ & _ & Hne). unfold nonempty in Hne.
    rewrite Forall_forall in Hne. apply Hne. by eapply list_elem_of_lookup_2. }
  pose proof (shrinks_well_formed _ _ Hs1 Hne1 Hwf) as Hwf1.
  assert (Hi1 : <[idx := other']> cs !! i = Some cell).
  { by rewrite list_lookup_insert_ne. }
  assert (Hidx1 : <[idx := other']> cs !! idx = Some other').
  { apply list_lookup_insert_eq. by eapply lookup_lt_Some. }
  destruct (well_formed_value cs idx other Hwf Hidx) as (_ & _ & Hnd).
  assert (Hgone : value ∉ Cell.possibilities other').
  { pose proof He as He'.
    apply cell_eliminate_returned in He' as [(-> & _ & Hr)|(ps' & Hr & -> & _)].
    - by apply list_remove_None.
    - simpl. by eapply list_remove_not_elem. }
  (* positions other than [idx] that were closed stay closed *)
  assert (Hcl1 : forall k, k <> idx -> ~ (D k \/ k = i) ->
                           closed_at (<[idx := other']> cs) k).
  { intros k Hk Hpend. eapply closed_at_step; eauto. }
  destruct (decide (n = 0)) as [->|Hn].
  - apply Hnext; [done | done | done | | ].
    + intros cj _ Hcj. rewrite Hidx1 in Hcj. by inversion Hcj; subst cj.
    + intros k Hpend. destruct (decide (k = idx)) as [->|Hk]; [|by apply Hcl1].
      apply cell_eliminate_returned in He as [(-> & _ & _)|(ps' & Hr & -> & Hn0)].
      * rewrite list_insert_id by done. by apply Hcl.
      * intros ck v Hck Hvk. rewrite Hidx1 in Hck. inversion Hck; subst ck.
        exfalso. unfold Cell.value in Hn0. rewrite Hvk in Hn0. subst v.
        destruct Hwf1 as (_ & _ & Hz & _). rewrite Forall_forall in Hz.
        apply (Hz _ (list_elem_of_lookup_2 _ _ _ Hidx1)). rewrite Hvk. left.
  - destruct (rec _ idx) as [[cs2 r2]|] eqn:Er; [|done].
    destruct r2 as [[]|e]; [|done].
    pose proof (rec_shrinks _ _ _ _ Er) as [Hs2 _].
    apply (rec_closed (fun k => D k \/ k = i)) in Er as [Hne2 Hcl2]; [|done|].
    2: { intros k Hpend. apply Hcl1; tauto. }
    pose proof (shrinks_well_formed _ _ Hs2 Hne2 Hwf1) as Hwf2.
    apply Hnext; [done | | by etrans | | done].
    + by eapply shrinks_keeps_determined.
    + intros cj _ Hcj Hmj.
      destruct (shrinks_lookup_r _ _ _ _ Hs2 Hcj) as (c1 & Hc1 & Hsc).
      rewrite Hidx1 in Hc1. inversion Hc1; subst c1.
      intros Hin. apply Hgone. destruct Hsc as (_ & _ & _ & Hsub).
      by eapply elem_of_sublist.
Qed.

End Cascade_closed.

Lemma eliminate_closed fuel (D : nat -> Prop) cs i cs' :
  well_formed cs -> closed_but (fun x => D x \/ x = i) cs ->
  Sudoku.eliminate fuel cs i = Some (cs', Returned ()) ->
  nonempty cs' /\ closed_but D cs'.
Proof.
  revert D cs i cs'. induction fuel as [|fuel IH]; intros D cs i cs' Hwf Hcl; [done|]. simpl.
  destruct (cs !! i) as [cell|] eqn:Hi.
  2: { intros [= <-]. split; [apply Hwf|]. intros k Hk.
       destruct (decide (k = i)) as [->|Hki]; [|apply Hcl; tauto].
       intros ck v Hck. by rewrite Hi in Hck. }
  destruct (well_formed_value cs i cell Hwf Hi) as (Hval & _ & _).
  destruct (decide (Cell.value cell = 0)) as [Hz|Hnz].
  { intros [= <-]. split; [apply Hwf|]. intros k Hk.
    destruct (decide (k = i)) as [->|Hki]; [|apply Hcl; tauto].
    intros ck v Hck Hv. rewrite Hi in Hck. inversion Hck; subst ck.
    exfalso. apply (proj2 Hval); [by eauto | done]. }
  destruct (proj1 Hval Hnz) as [v Hv].
  assert (Cell.value cell = v) as Hvv by (unfold Cell.value; by rewrite Hv).
  rewrite Hvv. intros Hloop.
  pose proof (eliminate_loop_shrinks _ (eliminate_shrinks fuel) _ _ _ _ _ _ Hloop) as [Hs _].
  apply (eliminate_loop_closed _ (eliminate_shrinks fuel) (IH) D cell v i _
           (fun _ => False)) in Hloop as (Hne & _ & Hvis & Hcl'); try done.
  2: { intros j Hj%elem_of_seq. lia. }
  split; [done|]. intros k Hk.
  destruct (decide (k = i)) as [->|Hki]; [|apply Hcl'; tauto].
  intros ck w Hck Hw j cj Hj Hji Hm.
  rewrite (shrinks_keeps_determined _ _ _ _ _ Hs Hne Hi Hv) in Hck.
  inversion Hck; subst ck. rewrite Hv in Hw. inversion Hw; subst w.
  apply (Hvis j cj); [|done|done|done].
  right. apply elem_of_seq. apply lookup_lt_Some in Hj.
  rewrite (shrinks_length _ _ Hs) in Hj. lia.
Qed.

Lemma easy_pass_closed fuel idxs cs cs' :
  well_formed cs ->
  (forall j, j ∈ idxs -> (j < length cs)%nat) ->
  closed_but (fun k => k ∈ idxs) cs ->
  Sudoku.easy_pass fuel idxs cs = Some (cs', Returned ()) ->
  nonempty cs' /\ closed_but (fun _ => False) cs'.
Proof.
  revert cs. induction idxs as [|i rest IH]; intros cs Hwf Hlen Hcl; simpl.
  { intros [= <-]. split; [apply Hwf|]. intros k _. apply Hcl. apply not_elem_of_nil. }
  destruct (cs !! i) as [cell|] eqn:Hi.
  2: { apply lookup_ge_None in Hi. specialize (Hlen i ltac:(left)). lia. }
  assert (Hlen' : forall j, j ∈ rest -> (j < length cs)%nat).
  { intros j Hj. apply Hlen. by right. }
  destruct (well_formed_value cs i cell Hwf Hi) as (Hval & _ & _).
  destruct (decide (Cell.value cell = 0)) as [Hz|Hnz].
  { apply IH; [done | done |]. intros k Hk.
    destruct (decide (k = i)) as [->|Hki].
    - intros ck v Hck Hv. rewrite Hi in Hck. inversion Hck; subst ck.
      exfalso. apply (proj2 Hval); [by eauto | done].
    - apply Hcl. rewrite elem_of_cons. tauto. }
  destruct (Sudoku.eliminate fuel cs i) as [[cs1 r1]|] eqn:E1; [|done].
  destruct r1 as [[]|e]; [|done].
  pose proof (eliminate_shrinks _ _ _ _ _ E1) as [Hs1 _].
  apply (eliminate_closed fuel (fun k => k ∈ rest)) in E1 as [Hne1 Hcl1]; [|done|].
  2: { intros k Hk. apply Hcl. rewrite elem_of_cons. tauto. }
  apply IH; [by eapply shrinks_well_formed | | done].
  intros j Hj. rewrite (shrinks_length _ _ Hs1). by apply Hlen'.
Qed.

(** A closed state in which every cell has a value has no conflict. *)
Lemma closed_solved_conflict_free cs :
  well_formed cs -> closed_but (fun _ => False) cs -> conflict_free cs.
Proof.
  intros Hwf Hcl i j ci cj Hi Hj Hij Hm Hvi Heq.
  destruct (well_formed_value cs i ci Hwf Hi) as (Hval & _ & _).
  destruct (proj1 Hval Hvi) as [v Hv].
  assert (Cell.value ci = v) as Hvv by (unfold Cell.value; by rewrite Hv).
  assert (Hvj : Cell.value cj <> 0) by congruence.
  destruct (well_formed_value cs j cj Hwf Hj) as (Hvalj & _ & _).
  destruct (proj1 Hvalj Hvj) as [w Hw].
  assert (Cell.value cj = w) as Hww by (unfold Cell.value; by rewrite Hw).
  apply (Hcl i ltac:(tauto) ci v Hi Hv j cj Hj ltac:(congruence) Hm).
  rewrite Hw. apply list_elem_of_singleton. congruence.
Qed.

(** What [_easy_step] leaves when it returns, on a well-formed state that was
    not solved on entry: a well-formed closed state, and a branch point unless
    the state is solved. *)
Lemma easy_step_closed fuel cs cs' ret :
  well_formed cs -> Sudoku.is_solved cs = false ->
  Sudoku._easy_step fuel cs = Some (cs', Returned ret) ->
  well_formed cs' /\ closed_but (fun _ => False) cs'
  /\ (ret = None <-> Sudoku.is_solved cs' = true).
Proof.
  intros Hwf Hns He. pose proof (easy_step_shrinks _ _ _ _ He) as [Hs _].
  revert He. unfold Sudoku._easy_step. rewrite Hns.
  destruct (Sudoku.easy_pass _ _ _) as [[cs1 [[]|e]]|] eqn:Ep; [|done|done].
  apply easy_pass_closed in Ep as [Hne Hcl]; [|done| |].
  2: { intros j Hj%elem_of_seq. lia. }
  2: { intros k Hk ck v Hck. apply lookup_lt_Some in Hck.
       exfalso. apply Hk. apply elem_of_seq. lia. }
  destruct (Sudoku.is_solved cs1) eqn:Es; simpl.
  - intros [= <- <-]. split_and!; [by eapply shrinks_well_formed | done | done].
  - destruct (Sudoku.py_min _) as [x|e] eqn:Em; intros [= <- <-].
    split_and!; [by eapply shrinks_well_formed | done |].
    split; [done | by rewrite Es].
Qed.

(** On a well-formed state [_easy_step] never fails to find a branch cell. *)
Lemma easy_step_no_value_error fuel cs cs' :
  well_formed cs -> Sudoku._easy_step fuel cs <> Some (cs', Raised ValueError).
Proof.
  intros Hwf He. pose proof (easy_step_shrinks _ _ _ _ He) as [Hs _].
  revert He. unfold Sudoku._easy_step.
  destruct (Sudoku.is_solved cs) eqn:Ens; [done|].
  destruct (Sudoku.easy_pass _ _ _) as [[cs1 [[]|e]]|] eqn:Ep; [|  |done].
  2: { intros [= <- ->]. apply easy_pass_shrinks in Ep as [_ Hc].
       by specialize (Hc _ eq_refl). }
  pose proof Ep as Ep'. apply easy_pass_closed in Ep' as [Hne _]; [|done| |].
  2: { intros j Hj%elem_of_seq. lia. }
  2: { intros k Hk ck v Hck. apply lookup_lt_Some in Hck.
       exfalso. apply Hk. apply elem_of_seq. lia. }
  destruct (Sudoku.is_solved cs1) eqn:Es; simpl; [done|].
  destruct (Sudoku.py_min _) as [x|e] eqn:Em; [done|]. intros [= <- ->].
  apply py_min_raised in Em as [Hempty _].
  apply easy_pass_shrinks in Ep as [Hs1 _].
  pose proof (shrinks_well_formed _ _ Hs1 Hne Hwf) as Hwf1.
  (* some cell has no value, so it has more than one candidate *)
  unfold Sudoku.is_solved in Es. apply not_true_iff_false in Es.
  apply Es. apply forallb_forall. intros c Hc%list_elem_of_In.
  apply list_elem_of_lookup in Hc as [j Hj].
  apply negb_true_iff, bool_decide_eq_false. intros Hz.
  destruct (well_formed_value cs1 j c Hwf1 Hj) as (_ & Hlen & _).
  assert (Hin : (j, Cell.possibilities c) ∈ Sudoku.open_cells cs1).
  { apply elem_of_open_cells. split; [by apply Hlen | by exists c]. }
  rewrite Hempty in Hin. by apply elem_of_nil in Hin.
Qed.

(** ** The state the constructor builds *)

Lemma concat_lookup_rows {A} (ls : list (list A)) (n i : nat) (x : A) :
  Forall (fun l => length l = n) ls ->
  concat ls !! i = Some x <->
  exists r c l, ls !! r = Some l /\ l !! c = Some x /\ i = (r * n + c)%nat.
Proof.
  intros Hlen. revert i. induction Hlen as [|l ls Hl Hls IH]; intros i; simpl.
  { split; [done | by intros (r & c & l & Hr & _)]. }
  rewrite lookup_app_Some. split.
  - intros [Hi|[Hge Hi]].
    + exists 0%nat, i, l. by split_and!.
    + apply IH in Hi as (r & c & l' & Hr & Hc & Hi).
      exists (S r), c, l'. split_and!; [done | done | lia].
  - intros (r & c & l' & Hr & Hc & ->). destruct r as [|r]; simpl in *.
    + left. by inversion Hr; subst.
    + right. pose proof (lookup_lt_Some _ _ _ Hc) as Hlt.
      split; [lia|]. apply IH. exists r, c, l'. split_and!; [done | done | lia].
Qed.

Lemma validate_rows_length n order arr :
  validate_rows n order arr = Returned () -> Forall (fun r => length r = n) arr.
Proof.
  induction arr as [|r arr IH]; simpl; [done|].
  destruct (bool_decide (length r = n)) eqn:E; simpl; [|done].
  apply bool_decide_eq_true in E.
  destruct (forallb _ r); simpl; [|done]. intros H. constructor; [done | by apply IH].
Qed.

Lemma validate_array_length arr order :
  validate_array arr = Returned order -> Forall (fun r => length r = length arr) arr.
Proof.
  unfold validate_array. destruct (negb _); [done|].
  destruct (validate_rows _ _ arr) as [[]|] eqn:E; [|done].
  intros _. by eapply validate_rows_length.
Qed.

(** The cell at row [r] and column [c] of the array sits at position
    [r * n + c] and was made by [Cell(r, c, order, value)]. *)
Lemma init_lookup arr cells i cell :
  Sudoku.init arr = Returned cells ->
  cells !! i = Some cell <->
  exists r c line v order,
    arr !! r = Some line /\ line !! c = Some v /\ i = (r * length arr + c)%nat
    /\ validate_array arr = Returned order
    /\ Cell.init (Z.of_nat r) (Z.of_nat c) order v = Returned cell.
Proof.
  unfold Sudoku.init. destruct (validate_array arr) as [order|] eqn:Ev; [|done].
  pose proof (validate_array_length _ _ Ev) as Hlen.
  unfold cells_from_arr. intros Hc%collect_Returned.
  assert (Hrows : Forall (fun l : list (result Cell.t) => length l = length arr)
      (imap (fun row_idx r => imap (fun col_idx value =>
         Cell.init (Z.of_nat row_idx) (Z.of_nat col_idx) order value) r) arr)).
  { apply Forall_forall. intros l Hl.
    apply elem_of_lookup_imap in Hl as (r & line & -> & Hr).
    rewrite length_imap. rewrite Forall_forall in Hlen. apply Hlen.
    by eapply list_elem_of_lookup_2. }
  pose proof (concat_lookup_rows _ (length arr) i (Returned cell) Hrows) as Hcl.
  rewrite Hc, list_lookup_fmap in Hcl.
  assert (Hinj : Returned <$> cells !! i = Some (Returned cell) <-> cells !! i = Some cell).
  { destruct (cells !! i); simpl; split; intros [= ->]; done. }
  rewrite <- Hinj, Hcl. split.
  - intros (r & c & l & Hr & Hcc & ->).
    rewrite list_lookup_imap in Hr. destruct (arr !! r) as [line|] eqn:Hline; [|done].
    simpl in Hr. inversion Hr; subst l.
    rewrite list_lookup_imap in Hcc. destruct (line !! c) as [v|] eqn:Hv; [|done].
    simpl in Hcc. inversion Hcc as [Hinit].
    exists r, c, line, v, order. by rewrite Hinit.
  - intros (r & c & line & v & order' & Hline & Hv & -> & [= <-] & Hinit).
    exists r, c, (imap (fun col_idx value =>
         Cell.init (Z.of_nat r) (Z.of_nat col_idx) order value) line).
    split_and!; [| |done].
    + by rewrite list_lookup_imap, Hline.
    + by rewrite list_lookup_imap, Hv; simpl; rewrite Hinit.
Qed.

Lemma cell_init_fields r c order v cell :
  Cell.init r c order v = Returned cell ->
  Cell.row cell = r /\ Cell.col cell = c
  /\ Cell.subgrid cell = (r `div` order, c `div` order)
  /\ Cell.possibilities cell <> [] /\ (0 ∉ Cell.possibilities cell).
Proof.
  unfold Cell.init.
  destruct (match PyInt.int v with Raised ValueError => _ | r0 => r0 end) as [z|e]; [|done].
  destruct (decide (order = 0)) as [|Ho]; [done|]. intros [= <-]. simpl.
  split_and!; try done.
  - destruct (decide (z = 0)); [|done]. intros Hnil.
    apply (f_equal length) in Hnil. rewrite py_range_length in Hnil. simpl in Hnil. nia.
  - destruct (decide (z = 0)).
    + rewrite py_range_elem. lia.
    + rewrite list_elem_of_singleton. congruence.
Qed.

Lemma init_well_formed arr cells : Sudoku.init arr = Returned cells -> well_formed cells.
Proof.
  intros Hinit. split_and!.
  - intros i j ci cj Hi Hj Heq.
    apply (init_lookup _ _ _ _ Hinit) in Hi
      as (r1 & c1 & l1 & v1 & o1 & Hl1 & Hv1 & -> & _ & Hc1).
    apply (init_lookup _ _ _ _ Hinit) in Hj
      as (r2 & c2 & l2 & v2 & o2 & Hl2 & Hv2 & -> & _ & Hc2).
    apply cell_init_fields in Hc1 as (Hr1 & Hcc1 & _).
    apply cell_init_fields in Hc2 as (Hr2 & Hcc2 & _).
    unfold Cell.eqb in Heq. apply andb_true_iff in Heq as [H1 H2].
    apply bool_decide_eq_true in H1, H2.
    assert (r1 = r2) by lia. assert (c1 = c2) by lia. by subst.
  - by eapply init_ascending.
  - apply Forall_forall. intros cell Hc. apply list_elem_of_lookup in Hc as [i Hi].
    apply (init_lookup _ _ _ _ Hinit) in Hi as (r & c & l & v & o & _ & _ & _ & _ & Hc).
    by apply cell_init_fields in Hc as (_ & _ & _ & _ & ?).
  - apply Forall_forall. intros cell Hc. apply list_elem_of_lookup in Hc as [i Hi].
    apply (init_lookup _ _ _ _ Hinit) in Hi as (r & c & l & v & o & _ & _ & _ & _ & Hc).
    by apply cell_init_fields in Hc as (_ & _ & _ & ? & _).
Qed.

(** ** What the search returns *)

Lemma cell_matches_sym c d : Cell.matches c d = Cell.matches d c.
Proof.
  unfold Cell.matches.
  rewrite (bool_decide_ext (Cell.row c = Cell.row d) (Cell.row d = Cell.row c)) by done.
  rewrite (bool_decide_ext (Cell.col c = Cell.col d) (Cell.col d = Cell.col c)) by done.
  by rewrite (bool_decide_ext (Cell.subgrid c = Cell.subgrid d)
                (Cell.subgrid d = Cell.subgrid c)) by done.
Qed.

Lemma assign_shrinks (cs : list Cell.t) idx cell p :
  cs !! idx = Some cell -> p ∈ Cell.possibilities cell ->
  shrinks cs (<[idx := Cell.with_possibilities cell [p]]> cs).
Proof.
  intros Hc Hp. eapply shrinks_insert; [done|]. repeat split. simpl.
  by apply singleton_sublist_l.
Qed.

Lemma assign_well_formed (cs : list Cell.t) idx cell p :
  well_formed cs -> cs !! idx = Some cell -> p ∈ Cell.possibilities cell ->
  well_formed (<[idx := Cell.with_possibilities cell [p]]> cs).
Proof.
  intros Hwf Hc Hp. eapply shrinks_well_formed; [by apply assign_shrinks | | done].
  apply nonempty_insert; [apply Hwf | done].
Qed.

(** Giving the branch cell one of its candidates in a closed state creates no
    conflict. *)
Lemma assign_conflict_free (cs : list Cell.t) idx cell p :
  well_formed cs -> closed_but (fun _ => False) cs ->
  cs !! idx = Some cell -> p ∈ Cell.possibilities cell ->
  conflict_free (<[idx := Cell.with_possibilities cell [p]]> cs).
Proof.
  intros Hwf Hcl Hc Hp.
  pose proof (assign_well_formed cs idx cell p Hwf Hc Hp) as Hwf'.
  pose proof (lookup_lt_Some _ _ _ Hc) as Hlt.
  intros i j ci cj Hi Hj Hij Hm Hvi Heq.
  destruct (well_formed_value _ i ci Hwf' Hi) as (Hval & _ & _).
  destruct (proj1 Hval Hvi) as [v Hv].
  assert (Cell.value ci = v) as Hvv by (unfold Cell.value; by rewrite Hv).
  destruct (well_formed_value _ j cj Hwf' Hj) as (Hvalj & _ & _).
  destruct (proj1 Hvalj ltac:(congruence)) as [w Hw].
  assert (Cell.value cj = w) as Hww by (unfold Cell.value; by rewrite Hw).
  assert (Hvw : v = w) by congruence. clear Heq Hvv Hww Hval Hvalj Hvi. subst w.
  destruct (decide (i = idx)) as [->|Hi'].
  - rewrite list_lookup_insert_eq in Hi by done. inversion Hi; subst ci.
    simpl in Hv. inversion Hv; subst v.
    rewrite list_lookup_insert_ne in Hj by done.
    apply (Hcl j ltac:(tauto) cj p Hj Hw idx cell Hc Hij); [|done].
    by rewrite cell_matches_sym.
  - rewrite list_lookup_insert_ne in Hi by done.
    destruct (decide (j = idx)) as [->|Hj'].
    + rewrite list_lookup_insert_eq in Hj by done. inversion Hj; subst cj.
      simpl in Hw. inversion Hw; subst v.
      by apply (Hcl i ltac:(tauto) ci p Hi Hv idx cell Hc ltac:(done)).
    + rewrite list_lookup_insert_ne in Hj by done.
      apply (Hcl i ltac:(tauto) ci v Hi Hv j cj Hj ltac:(done) Hm).
      rewrite Hw. left.
Qed.

Section Search_sound.

Variable rec : Sudoku.store -> nat -> option (Sudoku.store * result nat).
Hypothesis rec_frame : forall h r h' res,
  rec h r = Some (h', res) ->
  h `prefix_of` h' /\ forall r', res = Returned r' -> (length h <= r' < length h')%nat.
Hypothesis rec_sound : forall (h : Sudoku.store) r cells h' r',
  h !! r = Some cells -> solvable_input cells ->
  rec h r = Some (h', Returned r') -> solved_from cells h' r'.

Lemma solve_loop_sound new idx ps (h : Sudoku.store) cells cell h' r :
  h !! new = Some cells -> well_formed cells -> closed_but (fun _ => False) cells ->
  cells !! idx = Some cell -> ps ⊆ Cell.possibilities cell ->
  Sudoku.solve_loop rec new idx ps h = Some (h', Returned r) ->
  solved_from cells h' r.
Proof.
  intros Hn Hwf Hcl Hc. revert h Hn. induction ps as [|p ps IH]; intros h Hn Hps; simpl;
    [done|].
  assert (Hp : p ∈ Cell.possibilities cell) by (apply Hps; left).
  destruct (branch_candidate h new idx p cells cell Hn Hc Hp) as (-> & Ha & _). simpl.
  rewrite Ha. simpl.
  destruct (rec _ (length h)) as [[h3 r3]|] eqn:Er; [|done].
  pose proof (rec_frame _ _ _ _ Er) as [Hp3 _].
  destruct r3 as [r3|[]]; try done.
  - intros [= <- <-].
    apply (rec_sound _ _ (<[idx := Cell.with_possibilities cell [p]]> cells)) in Er
      as (cs_r & Hr & Hsol & Hcf & Hs).
    + exists cs_r. split_and!; [done | done | done |].
      etrans; [|done]. by apply assign_shrinks.
    + rewrite lookup_app_r, Nat.sub_diag; [|done]. done.
    + split; [by apply assign_well_formed | intros _; by apply assign_conflict_free].
  - apply IH.
    + eapply prefix_lookup_Some; [done|]. etrans; [|done]. by apply prefix_app_r.
    + intros x Hx. apply Hps. by right.
Qed.

End Search_sound.

(** Whatever [solve] returns for a well-formed state that is not a filled
    grid with a conflict is a filled state without conflict that keeps every
    value the input had. *)
Lemma solve_sound fuel cb (h : Sudoku.store) self cells h' r :
  h !! self = Some cells -> solvable_input cells ->
  Sudoku.solve fuel cb h self = Some (h', Returned r) ->
  solved_from cells h' r.
Proof.
  revert h self cells h' r. induction fuel as [|fuel IH]; intros h self cells h' r Hs Hin;
    [done|].
  rewrite (solve_unfold _ _ _ _ _ Hs).
  destruct (Sudoku._easy_step (S fuel) cells) as [[cells' ret]|] eqn:Ee; [|done].
  destruct ret as [ret|e]; [|done].
  destruct (if cb then _ else _); [|done].
  destruct Hin as [Hwf Hcf].
  destruct (Sudoku.is_solved cells) eqn:Esol.
  { unfold Sudoku._easy_step in Ee. rewrite Esol in Ee. inversion Ee; subst cells' ret.
    intros [= <- <-]. exists cells. split_and!; [|done|by apply Hcf|reflexivity].
    rewrite lookup_app_r, Nat.sub_diag; [|done]. done. }
  pose proof (easy_step_shrinks _ _ _ _ Ee) as [Hsh _].
  destruct (easy_step_closed _ _ _ _ Hwf Esol Ee) as (Hwf' & Hcl' & Hret).
  destruct ret as [[idx ps]|].
  - apply easy_step_branch in Ee as (_ & Hinb & _).
    apply elem_of_open_cells in Hinb as (_ & cell & Hc & ->).
    intros Hloop.
    eapply (solve_loop_sound _ (solve_frame fuel cb)) in Hloop
      as (cs_r & Hr & Hsol & Hcfr & Hs'); eauto.
    + exists cs_r. split_and!; [done | done | done | by etrans].
    + rewrite lookup_app_r, Nat.sub_diag; [|done]. done.
  - intros [= <- <-]. exists cells'. split_and!; [| |by apply closed_solved_conflict_free|done].
    + rewrite lookup_app_r, Nat.sub_diag; [|done]. done.
    + by apply Hret.
Qed.

(** ** Two equal values that share a row, column or block *)

(** On a well-formed state that is not filled, two determined cells that share
    a row, column or block and hold the same value make [solve] raise the
    clash of [Cell.eliminate]. *)
Lemma solve_duplicate_clash fuel cb (h : Sudoku.store) self cells i j ci cj v :
  h !! self = Some cells -> well_formed cells -> Sudoku.is_solved cells = false ->
  (total cells < fuel)%nat ->
  cells !! i = Some ci -> cells !! j = Some cj -> i <> j ->
  Cell.matches ci cj = true ->
  Cell.possibilities ci = [v] -> Cell.possibilities cj = [v] ->
  exists h', Sudoku.solve fuel cb h self
             = Some (h', Raised (ClashException msg_only_value)).
Proof.
  intros Hs Hwf Hns Hf Hi Hj Hij Hm Hvi Hvj.
  destruct fuel as [|fuel]; [lia|].
  rewrite (solve_unfold _ _ _ _ _ Hs).
  destruct (easy_step_total (S fuel) cells Hf) as (cells' & ret & Ee). rewrite Ee.
  destruct ret as [ret|e].
  - exfalso. pose proof (easy_step_shrinks _ _ _ _ Ee) as [Hsh _].
    destruct (easy_step_closed _ _ _ _ Hwf Hns Ee) as (Hwf' & Hcl' & _).
    pose proof (shrinks_keeps_determined _ _ _ _ _ Hsh (proj2 (proj2 (proj2 Hwf'))) Hi Hvi)
      as Hi'.
    pose proof (shrinks_keeps_determined _ _ _ _ _ Hsh (proj2 (proj2 (proj2 Hwf'))) Hj Hvj)
      as Hj'.
    apply (Hcl' i ltac:(tauto) ci v Hi' Hvi j cj Hj' ltac:(done) Hm).
    rewrite Hvj. left.
  - pose proof (easy_step_shrinks _ _ _ _ Ee) as [_ He].
    destruct (He e eq_refl) as [->| ->]; [by eauto|].
    by apply easy_step_no_value_error in Ee.
Qed.

Lemma validate_array_order arr order :
  validate_array arr = Returned order -> order * order = Z.of_nat (length arr).
Proof.
  unfold validate_array.
  destruct (bool_decide (_ = Z.of_nat (length arr))) eqn:E; simpl; [|done].
  apply bool_decide_eq_true in E. by destruct (validate_rows _ _ arr); intros [= <-].
Qed.

(** The cell built for a given value. *)
Lemma init_lookup_given arr cells r c line v :
  Sudoku.init arr = Returned cells ->
  arr !! r = Some line -> line !! c = Some (PyInt v) -> v <> 0 ->
  exists order cell,
    validate_array arr = Returned order
    /\ cells !! (r * length arr + c)%nat = Some cell
    /\ cell = Cell.mk [v] (Z.of_nat r) (Z.of_nat c)
                      (Z.of_nat r `div` order, Z.of_nat c `div` order).
Proof.
  intros Hinit Hr Hc Hv. pose proof Hinit as Hinit'. unfold Sudoku.init in Hinit'.
  destruct (validate_array arr) as [order|] eqn:Ev; [|done].
  assert (Ho : order <> 0).
  { apply validate_array_order in Ev. apply lookup_lt_Some in Hr. nia. }
  eexists order, _. split; [done|]. split; [|reflexivity].
  apply (init_lookup _ _ _ _ Hinit). exists r, c, line, (PyInt v), order.
  split_and!; try done. unfold Cell.init. simpl.
  destruct (decide (v = 0)); [done|]. by destruct (decide (order = 0)).
Qed.

(** X4. On a grid: when the array is accepted, has an empty cell, and holds
    a value twice in a row, a column or a block, [solve] on the state built
    from it, at a depth above its number of candidates, raises the clash of
    [Cell.eliminate]. *)
Lemma solve_rejects_duplicates fuel cb arr cells order r1 c1 l1 r2 c2 l2 v :
  Sudoku.init arr = Returned cells -> validate_array arr = Returned order ->
  Sudoku.is_solved cells = false ->
  arr !! r1 = Some l1 -> l1 !! c1 = Some (PyInt v) ->
  arr !! r2 = Some l2 -> l2 !! c2 = Some (PyInt v) ->
  v <> 0 -> (r1, c1) <> (r2, c2) ->
  r1 = r2 \/ c1 = c2
  \/ (Z.of_nat r1 `div` order = Z.of_nat r2 `div` order
      /\ Z.of_nat c1 `div` order = Z.of_nat c2 `div` order) ->
  (total cells < fuel)%nat ->
  exists h', Sudoku.solve fuel cb [cells] 0
             = Some (h', Raised (ClashException msg_only_value)).
Proof.
  intros Hinit Ev Hns Hr1 Hc1 Hr2 Hc2 Hv Hne Hshare Hf.
  destruct (init_lookup_given _ _ _ _ _ _ Hinit Hr1 Hc1 Hv) as (o1 & cell1 & Ev1 & Hl1 & Hd1).
  destruct (init_lookup_given _ _ _ _ _ _ Hinit Hr2 Hc2 Hv) as (o2 & cell2 & Ev2 & Hl2 & Hd2).
  rewrite Ev in Ev1, Ev2. inversion Ev1; subst o1. inversion Ev2; subst o2.
  eapply (solve_duplicate_clash fuel cb [cells] 0 cells _ _ cell1 cell2 v);
    try done.
  - by eapply init_well_formed.
  - intros Heq. rewrite Heq, Hl2 in Hl1. inversion Hl1 as [Hcell].
    rewrite Hd1, Hd2 in Hcell. inversion Hcell. apply Hne. f_equal; lia.
  - rewrite Hd1, Hd2. unfold Cell.matches. simpl.
    destruct Hshare as [->|[->|[H1 H2]]].
    + by rewrite bool_decide_eq_true_2.
    + rewrite (bool_decide_eq_true_2 (Z.of_nat c2 = Z.of_nat c2)) by done.
      by rewrite orb_true_r.
    + rewrite (bool_decide_eq_true_2 (_ = _ :> Z * Z)) by (by rewrite H1, H2).
      by rewrite orb_true_r.
  - by rewrite Hd1.
  - by rewrite Hd2.
Qed.

(** The same for what is returned: on a grid that has an empty cell, whatever
    [solve] returns is filled, free of conflicts, and keeps the givens. *)
Lemma solve_sound_on_grid fuel cb arr cells h' r :
  Sudoku.init arr = Returned cells -> Sudoku.is_solved cells = false ->
  Sudoku.solve fuel cb [cells] 0 = Some (h', Returned r) ->
  solved_from cells h' r.
Proof.
  intros Hinit Hns. apply solve_sound; [done|].
  split; [by eapply init_well_formed | by rewrite Hns].
Qed.

(** ** The branch cell *)

(** C5. On a well-formed state that is not solved, with a depth above its
    number of candidates, the propagation pass of [_easy_step] ends, and what
    [_easy_step] does is fixed by how it ended.  If the pass raised, it was the
    clash and [_easy_step] raises it.  If the pass returned and left a solved
    state, [_easy_step] returns no branch point.  If the pass returned and the
    state it left is not solved, [_easy_step] returns a branch point, in that
    very state: one of its cells with more than one candidate, given with its
    candidates, such that among all cells with more than one candidate none
    has fewer, nor as few at a lower position. *)
Theorem easy_step_selects_fewest fuel (cells : list Cell.t) :
  well_formed cells -> (total cells < fuel)%nat -> Sudoku.is_solved cells = false ->
  exists cells1 r1,
    Sudoku.easy_pass fuel (seq 0 (length cells)) cells = Some (cells1, r1)
    /\ match r1 with
       | Raised e =>
           e = ClashException msg_only_value
           /\ Sudoku._easy_step fuel cells = Some (cells1, Raised e)
       | Returned _ =>
           (Sudoku.is_solved cells1 = true ->
            Sudoku._easy_step fuel cells = Some (cells1, Returned None))
           /\ (Sudoku.is_solved cells1 = false ->
               exists idx c,
                 Sudoku._easy_step fuel cells
                 = Some (cells1, Returned (Some (idx, Cell.possibilities c)))
                 /\ cells1 !! idx = Some c
                 /\ (1 < length (Cell.possibilities c))%nat
                 /\ (forall j cj, cells1 !! j = Some cj ->
                       (1 < length (Cell.possibilities cj))%nat ->
                       (length (Cell.possibilities c) < length (Cell.possibilities cj))%nat
                       \/ (length (Cell.possibilities c) = length (Cell.possibilities cj)
                           /\ (idx <= j)%nat)))
       end.
Proof.
  intros Hwf Hf Hns.
  destruct (easy_pass_total fuel (seq 0 (length cells)) cells Hf) as (cells1 & r1 & Ep).
  exists cells1, r1. split; [done|].
  assert (He : Sudoku._easy_step fuel cells
               = match r1 with
                 | Raised e => Some (cells1, Raised e)
                 | Returned _ =>
                     if negb (Sudoku.is_solved cells1) then
                       match Sudoku.py_min (Sudoku.open_cells cells1) with
                       | Raised e => Some (cells1, Raised e)
                       | Returned x => Some (cells1, Returned (Some x))
                       end
                     else Some (cells1, Returned None)
                 end).
  { unfold Sudoku._easy_step. rewrite Hns, Ep. by destruct r1. }
  destruct r1 as [[]|e].
  - split; intros Es; rewrite Es in He; simpl in He; [done|].
    destruct (Sudoku.py_min (Sudoku.open_cells cells1)) as [[idx ps]|e] eqn:Em.
    + destruct (easy_step_branch_fewest _ _ _ _ _ He) as (_ & (c & Hc & -> & Hlen) & Hmin).
      by exists idx, c.
    + apply py_min_raised in Em as [_ ->]. by apply easy_step_no_value_error in He.
  - split; [|done]. apply easy_pass_shrinks in Ep as [_ Hc]. by apply Hc.
Qed.

Lemma easy_step_selects_fewest_witness :
  (well_formed (cells_of grid_two_given) /\ (total (cells_of grid_two_given) < 65)%nat
   /\ Sudoku.is_solved (cells_of grid_two_given) = false)
  /\ exists cells1 r1,
       Sudoku.easy_pass 65 (seq 0 (length (cells_of grid_two_given))) (cells_of grid_two_given)
       = Some (cells1, r1)
       /\ match r1 with
          | Raised e =>
              e = ClashException msg_only_value
              /\ Sudoku._easy_step 65 (cells_of grid_two_given) = Some (cells1, Raised e)
          | Returned _ =>
              (Sudoku.is_solved cells1 = true ->
               Sudoku._easy_step 65 (cells_of grid_two_given) = Some (cells1, Returned None))
              /\ (Sudoku.is_solved cells1 = false ->
                  exists idx c,
                    Sudoku._easy_step 65 (cells_of grid_two_given)
                    = Some (cells1, Returned (Some (idx, Cell.possibilities c)))
                    /\ cells1 !! idx = Some c
                    /\ (1 < length (Cell.possibilities c))%nat
                    /\ (forall j cj, cells1 !! j = Some cj ->
                          (1 < length (Cell.possibilities cj))%nat ->
                          (length (Cell.possibilities c) < length (Cell.possibilities cj))%nat
                          \/ (length (Cell.possibilities c) = length (Cell.possibilities cj)
                              /\ (idx <= j)%nat)))
          end.
Proof.
  assert (H1 : well_formed (cells_of grid_two_given)).
  { apply (init_well_formed (grid_of grid_two_given)). vm_compute; reflexivity. }
  assert (H2 : (total (cells_of grid_two_given) < 65)%nat) by (vm_compute; lia).
  assert (H3 : Sudoku.is_solved (cells_of grid_two_given) = false) by (vm_compute; reflexivity).
  split; [exact (conj H1 (conj H2 H3))|].
  exact (easy_step_selects_fewest 65 (cells_of grid_two_given) H1 H2 H3).
Defined.

(** On the grid with two givens the branch point is the first of the four
    cells left with two candidates. *)
Lemma easy_step_two_given :
  Sudoku._easy_step 65 (cells_of grid_two_given)
  = Some (after_step 65 (cells_of grid_two_given), Returned (Some (2%nat, [3; 4])))
  /\ (Cell.possibilities <$> after_step 65 (cells_of grid_two_given))
     = [[1]; [2]; [3; 4]; [3; 4];
        [3; 4]; [3; 4]; [1; 2; 3; 4]; [1; 2; 3; 4];
        [2; 3; 4]; [1; 3; 4]; [1; 2; 3; 4]; [1; 2; 3; 4];
        [2; 3; 4]; [1; 3; 4]; [1; 2; 3; 4]; [1; 2; 3; 4]].
Proof. split; vm_compute; reflexivity. Qed.

(** ** The statements at sample grids *)

Lemma assignment_never_clashes_witness :
  (Sudoku._easy_step 65 (cells_of grid_guess)
   = Some (after_step 65 (cells_of grid_guess), Returned (Some (0%nat, [1; 4])))
   /\ guess_store !! 1%nat = Some (after_step 65 (cells_of grid_guess))
   /\ 4 ∈ [1; 4])
  /\ (exists cell,
        after_step 65 (cells_of grid_guess) !! 0%nat = Some cell
        /\ [1; 4] = Cell.possibilities cell
        /\ Cell.set_value cell 4 = Returned (Cell.with_possibilities cell [4])
        /\ Sudoku.deepcopy guess_store 1
           = Some (guess_store ++ [after_step 65 (cells_of grid_guess)], length guess_store)
        /\ Sudoku.assign (guess_store ++ [after_step 65 (cells_of grid_guess)])
                         (length guess_store) 0 4
           = Some (guess_store
                     ++ [<[0%nat := Cell.with_possibilities cell [4]]>
                           (after_step 65 (cells_of grid_guess))],
                   Returned ()))
  /\ (forall fuel' cb (h0 : Sudoku.store) self h' msg,
        Sudoku.solve fuel' cb h0 self = Some (h', Raised (ClashException msg)) ->
        msg <> msg_illegal_value).
Proof.
  assert (H1 : Sudoku._easy_step 65 (cells_of grid_guess)
   = Some (after_step 65 (cells_of grid_guess), Returned (Some (0%nat, [1; 4]))))
    by (vm_compute; reflexivity).
  assert (H2 : guess_store !! 1%nat = Some (after_step 65 (cells_of grid_guess)))
    by (vm_compute; reflexivity).
  assert (H3 : 4 ∈ [1; 4]) by (right; left).
  split; [exact (conj H1 (conj H2 H3))|].
  exact (assignment_never_clashes 65 (cells_of grid_guess)
           (after_step 65 (cells_of grid_guess)) 0 [1; 4] guess_store 1 4 H1 H2 H3).
Defined.

Lemma solve_leaves_input_witness :
  ([cells_of grid_guess] !! 0%nat = Some (cells_of grid_guess)
   /\ (total (cells_of grid_guess) < 65)%nat)
  /\ exists h' res,
       Sudoku.solve 65 false [cells_of grid_guess] 0 = Some (h', res)
       /\ [cells_of grid_guess] `prefix_of` h'
       /\ h' !! 0%nat = Some (cells_of grid_guess)
       /\ (forall r cs, [cells_of grid_guess] !! r = Some cs -> h' !! r = Some cs)
       /\ (forall r, res = Returned r -> (length [cells_of grid_guess] <= r < length h')%nat).
Proof.
  assert (H1 : [cells_of grid_guess] !! 0%nat = Some (cells_of grid_guess)) by reflexivity.
  assert (H2 : (total (cells_of grid_guess) < 65)%nat) by (vm_compute; lia).
  split; [exact (conj H1 H2)|].
  exact (solve_leaves_input 65 false [cells_of grid_guess] 0 (cells_of grid_guess) H1 H2).
Defined.

Lemma solve_tries_in_order_witness :
  ([cells_of grid_guess] !! 0%nat = Some (cells_of grid_guess)
   /\ ascending (cells_of grid_guess)
   /\ Sudoku._easy_step 65 (cells_of grid_guess)
      = Some (after_step 65 (cells_of grid_guess), Returned (Some (0%nat, [1] ++ 4 :: [])))
   /\ all_clash (Sudoku.solve 64 false) (length [cells_of grid_guess]) 0 [1]
                ([cells_of grid_guess] ++ [after_step 65 (cells_of grid_guess)])
      = Some guess_after_clash
   /\ branch guess_after_clash (length [cells_of grid_guess]) 0 4
      = Some (guess_branch.1, guess_branch.2)
   /\ Sudoku.solve 64 false guess_branch.1 guess_branch.2 = Some (guess_final.1, Returned 7%nat))
  /\ Sudoku.solve 65 false [cells_of grid_guess] 0 = Some (guess_final.1, Returned 7%nat)
  /\ StronglySorted Z.lt ([1] ++ 4 :: [])
  /\ Forall (fun q => q < 4) [1] /\ Forall (fun q => 4 < q) [].
Proof.
  assert (H1 : [cells_of grid_guess] !! 0%nat = Some (cells_of grid_guess)) by reflexivity.
  assert (H2 : ascending (cells_of grid_guess)).
  { apply (init_ascending (grid_of grid_guess)). vm_compute; reflexivity. }
  assert (H3 : Sudoku._easy_step 65 (cells_of grid_guess)
      = Some (after_step 65 (cells_of grid_guess), Returned (Some (0%nat, [1] ++ 4 :: []))))
    by (vm_compute; reflexivity).
  assert (H4 : all_clash (Sudoku.solve 64 false) (length [cells_of grid_guess]) 0 [1]
                ([cells_of grid_guess] ++ [after_step 65 (cells_of grid_guess)])
               = Some guess_after_clash)
    by (vm_compute; reflexivity).
  assert (H5 : branch guess_after_clash (length [cells_of grid_guess]) 0 4
               = Some (guess_branch.1, guess_branch.2)) by (vm_compute; reflexivity).
  assert (H6 : Sudoku.solve 64 false guess_branch.1 guess_branch.2
               = Some (guess_final.1, Returned 7%nat)) by (vm_compute; reflexivity).
  split; [exact (conj H1 (conj H2 (conj H3 (conj H4 (conj H5 H6)))))|].
  exact (solve_tries_in_order 64 false [cells_of grid_guess] 0 (cells_of grid_guess)
           (after_step 65 (cells_of grid_guess)) 0 [1] 4 [] guess_after_clash
           guess_branch.1 guess_branch.2 guess_final.1 7 H1 H2 H3 H4 H5 H6).
Defined.

(** ** A filled grid that holds a value twice in one row *)

Lemma solve_solved fuel cb (cells : list Cell.t) :
  cells <> [] -> Sudoku.is_solved cells = true ->
  Sudoku.solve (S fuel) cb [cells] 0 = Some ([cells; cells], Returned 1%nat).
Proof.
  intros Hne Hsol. rewrite (solve_unfold fuel cb [cells] 0 cells eq_refl).
  unfold Sudoku._easy_step. rewrite Hsol.
  destruct cb; [|done]. by destruct cells.
Qed.

(** C1, on a filled grid.  The array passes [validate_array], its first row
    holds the value 1 twice, and [solve] on the state built from it raises
    nothing: at every depth, with or without a callback, it returns a copy of
    that very state. *)
Theorem solve_returns_clashing_grid :
  validate_array (grid_of grid_full_clash) = Returned 2
  /\ Sudoku.init (grid_of grid_full_clash) = Returned (cells_of grid_full_clash)
  /\ (exists r, grid_full_clash !! 0%nat = Some r /\ r !! 0%nat = Some 1 /\ r !! 1%nat = Some 1)
  /\ forall fuel cb,
       Sudoku.solve (S fuel) cb [cells_of grid_full_clash] 0
       = Some ([cells_of grid_full_clash; cells_of grid_full_clash], Returned 1%nat).
Proof.
  split_and!; [vm_compute; reflexivity | vm_compute; reflexivity | by eexists |].
  intros fuel cb. apply solve_solved; [discriminate | vm_compute; reflexivity].
Qed.

(** C2, on the same filled grid.  In the state [solve] returns, the first two
    cells are distinct cells of one row and both hold the value 1. *)
Theorem solve_result_holds_value_twice :
  forall fuel cb, exists h r cells c0 c1,
    Sudoku.solve (S fuel) cb [cells_of grid_full_clash] 0 = Some (h, Returned r)
    /\ h !! r = Some cells
    /\ Sudoku.is_solved cells = true
    /\ cells !! 0%nat = Some c0 /\ cells !! 1%nat = Some c1
    /\ Cell.eqb c0 c1 = false
    /\ Cell.row c0 = Cell.row c1
    /\ Cell.matches c0 c1 = true
    /\ Cell.value c0 = 1 /\ Cell.value c1 = 1.
Proof.
  intros fuel cb. eexists _, _, _, _, _. split.
  - apply solve_solved; [discriminate | vm_compute; reflexivity].
  - vm_compute. by repeat split.
Qed.

(** ** Propagation and search lose no completion *)

Lemma completes_shrinks cs cs' sol :
  shrinks cs cs' -> completes cs sol ->
  (forall i c' v, cs' !! i = Some c' -> sol !! i = Some v -> v ∈ Cell.possibilities c') ->
  completes cs' sol.
Proof.
  intros Hs (Hlen & Hin & Hcf) Hin'. split_and!; [|done|].
  - by rewrite (shrinks_length _ _ Hs).
  - intros i j ci' cj' vi vj Hi Hj Hvi Hvj Hij Hm.
    destruct (shrinks_lookup_r _ _ _ _ Hs Hi) as (ci & Hi0 & Hsi).
    destruct (shrinks_lookup_r _ _ _ _ Hs Hj) as (cj & Hj0 & Hsj).
    apply (Hcf i j ci cj vi vj Hi0 Hj0 Hvi Hvj Hij).
    by rewrite <- (cell_shrinks_matches _ _ _ _ Hsi Hsj).
Qed.

Lemma completes_insert (cs : list Cell.t) sol idx other other' :
  completes cs sol -> cs !! idx = Some other -> cell_shrinks other other' ->
  (forall v, sol !! idx = Some v -> v ∈ Cell.possibilities other') ->
  completes (<[idx := other']> cs) sol.
Proof.
  intros Hc Hidx Hsh Hv. eapply completes_shrinks; [by eapply shrinks_insert | done |].
  intros i c' v Hi Hsi. destruct (decide (i = idx)) as [->|Hne].
  - rewrite list_lookup_insert_eq in Hi by (by eapply lookup_lt_Some).
    inversion Hi; subst c'. by apply Hv.
  - rewrite list_lookup_insert_ne in Hi by done. by apply (proj1 (proj2 Hc) i).
Qed.

Lemma completes_lookup cs sol i c :
  completes cs sol -> cs !! i = Some c ->
  exists v, sol !! i = Some v /\ (v ∈ Cell.possibilities c).
Proof.
  intros (Hlen & Hin & _) Hi. destruct (sol !! i) as [v|] eqn:Hs.
  - exists v. split; [done | by eapply Hin].
  - apply lookup_ge_None in Hs. apply lookup_lt_Some in Hi. lia.
Qed.

Lemma completes_keeps_determined cs cs' sol i cell v :
  shrinks cs cs' -> completes cs' sol -> cs !! i = Some cell ->
  Cell.possibilities cell = [v] -> cs' !! i = Some cell.
Proof.
  intros Hs Hc Hi Hv. destruct (shrinks_lookup _ _ _ _ Hs Hi) as (c' & Hi' & Hsc).
  rewrite Hi'. f_equal. eapply cell_shrinks_determined; [done | done |].
  destruct (completes_lookup _ _ _ _ Hc Hi') as (w & _ & Hw). intros Hnil.
  rewrite Hnil in Hw. by apply elem_of_nil in Hw.
Qed.

Section Cascade_complete.

Variable sol : list Z.
Variable rec : list Cell.t -> nat -> option (list Cell.t * result unit).
Hypothesis rec_shrinks : forall cs i cs' r,
  rec cs i = Some (cs', r) -> shrinks cs cs' /\ clash_only r.
Hypothesis rec_keeps : forall cs k cs' r,
  completes cs sol -> rec cs k = Some (cs', r) -> completes cs' sol /\ r = Returned ().

Lemma eliminate_loop_keeps cell value i idxs cs cs' r :
  completes cs sol -> cs !! i = Some cell -> Cell.possibilities cell = [value] ->
  Sudoku.eliminate_loop rec cell value idxs cs = Some (cs', r) ->
  completes cs' sol /\ r = Returned ().
Proof.
  revert cs. induction idxs as [|idx rest IH]; intros cs Hc Hi Hv; simpl.
  { by intros [= <- <-]. }
  destruct (cs !! idx) as [other|] eqn:Hidx; [|by intros [= <- <-]].
  destruct (Cell.eqb cell other) eqn:Heq; [by apply IH|].
  destruct (Cell.matches cell other) eqn:Hm; [|by apply IH].
  assert (Hne : idx <> i).
  { intros ->. rewrite Hi in Hidx. inversion Hidx; subst other.
    by rewrite cell_eqb_refl in Heq. }
  destruct (completes_lookup _ _ _ _ Hc Hi) as (vi & Hsi & Hvi).
  rewrite Hv in Hvi. apply list_elem_of_singleton in Hvi. subst vi.
  destruct (completes_lookup _ _ _ _ Hc Hidx) as (vx & Hsx & Hvx).
  assert (Hdiff : value <> vx).
  { apply (proj2 (proj2 Hc) i idx cell other value vx Hi Hidx Hsi Hsx); [done | done]. }
  destruct (Cell.eliminate other value) as [[other' n]|e] eqn:He.
  2: { exfalso. apply cell_eliminate_raised in He as [Ho _].
       rewrite Ho in Hvx. apply list_elem_of_singleton in Hvx. congruence. }
  assert (Hc1 : completes (<[idx := other']> cs) sol).
  { eapply completes_insert; [done | done | by eapply cell_eliminate_shrinks |].
    intros v Hsv. rewrite Hsx in Hsv. inversion Hsv; subst v.
    apply cell_eliminate_returned in He as [(-> & _ & _)|(ps' & Hr & -> & _)]; [done|].
    simpl. apply list_remove_Some in Hr as (l1 & l2 & Hps & _ & ->).
    rewrite Hps in Hvx. rewrite elem_of_app, elem_of_cons in Hvx.
    rewrite elem_of_app. destruct Hvx as [?|[?|?]]; [by left | congruence | by right]. }
  assert (Hi1 : <[idx := other']> cs !! i = Some cell).
  { by rewrite list_lookup_insert_ne. }
  destruct (decide (n = 0)); [by apply IH|].
  destruct (rec _ idx) as [[cs2 r2]|] eqn:Er; [|done].
  pose proof (rec_shrinks _ _ _ _ Er) as [Hs2 _].
  apply rec_keeps in Er as [Hc2 ->]; [|done].
  apply IH; [done | by eapply completes_keeps_determined | done].
Qed.

End Cascade_complete.

Lemma eliminate_keeps sol fuel cs i cs' r :
  completes cs sol -> Sudoku.eliminate fuel cs i = Some (cs', r) ->
  completes cs' sol /\ r = Returned ().
Proof.
  revert cs i cs' r. induction fuel as [|fuel IH]; intros cs i cs' r Hc; [done|]. simpl.
  destruct (cs !! i) as [cell|] eqn:Hi; [|by intros [= <- <-]].
  destruct (decide (Cell.value cell = 0)) as [|Hnz]; [by intros [= <- <-]|].
  assert (Hv : Cell.possibilities cell = [Cell.value cell]).
  { unfold Cell.value in *. by destruct (Cell.possibilities cell) as [|v [|w l]]. }
  eapply eliminate_loop_keeps; eauto using eliminate_shrinks.
Qed.

Lemma easy_pass_keeps sol fuel idxs cs cs' r :
  completes cs sol -> Sudoku.easy_pass fuel idxs cs = Some (cs', r) ->
  completes cs' sol /\ r = Returned ().
Proof.
  revert cs. induction idxs as [|i rest IH]; intros cs Hc; simpl; [by intros [= <- <-]|].
  destruct (cs !! i) as [cell|]; [|by intros [= <- <-]].
  destruct (decide (Cell.value cell = 0)); [by apply IH|].
  destruct (Sudoku.eliminate fuel cs i) as [[cs1 r1]|] eqn:E1; [|done].
  apply (eliminate_keeps sol) in E1 as [Hc1 ->]; [|done]. by apply IH.
Qed.

Lemma easy_step_keeps sol fuel cs cs' r :
  completes cs sol -> Sudoku._easy_step fuel cs = Some (cs', r) ->
  completes cs' sol /\ forall msg, r <> Raised (ClashException msg).
Proof.
  intros Hc. unfold Sudoku._easy_step. destruct (Sudoku.is_solved cs).
  { by intros [= <- <-]. }
  destruct (Sudoku.easy_pass _ _ _) as [[cs1 r1]|] eqn:Ep; [|done].
  apply (easy_pass_keeps sol) in Ep as [Hc1 ->]; [|done].
  destruct (negb (Sudoku.is_solved cs1)); [|by intros [= <- <-]].
  destruct (Sudoku.py_min _) as [x|e] eqn:Em; intros [= <- <-]; [done|].
  apply py_min_raised in Em as [_ ->]. done.
Qed.

Section Search_complete.

Variable sol : list Z.
Variable rec : Sudoku.store -> nat -> option (Sudoku.store * result nat).
Hypothesis rec_frame : forall h r h' res,
  rec h r = Some (h', res) ->
  h `prefix_of` h' /\ forall r', res = Returned r' -> (length h <= r' < length h')%nat.
Hypothesis rec_complete : forall (h : Sudoku.store) r cells h' res,
  h !! r = Some cells -> completes cells sol -> rec h r = Some (h', res) ->
  forall msg, res <> Raised (ClashException msg).

Lemma solve_loop_complete new idx ps (h : Sudoku.store) cells cell v h' res :
  h !! new = Some cells -> completes cells sol -> cells !! idx = Some cell ->
  sol !! idx = Some v -> v ∈ ps -> ps ⊆ Cell.possibilities cell ->
  Sudoku.solve_loop rec new idx ps h = Some (h', res) ->
  forall msg, res <> Raised (ClashException msg).
Proof.
  intros Hn Hc Hcell Hsv. revert h Hn. induction ps as [|p ps IH]; intros h Hn Hv Hps;
    [by apply elem_of_nil in Hv|]. simpl.
  assert (Hp : p ∈ Cell.possibilities cell) by (apply Hps; left).
  destruct (branch_candidate h new idx p cells cell Hn Hcell Hp) as (-> & Ha & _). simpl.
  rewrite Ha. simpl.
  destruct (rec _ (length h)) as [[h3 r3]|] eqn:Er; [|done].
  pose proof (rec_frame _ _ _ _ Er) as [Hp3 _].
  destruct (decide (p = v)) as [->|Hpv].
  - assert (Hnc : forall msg, r3 <> Raised (ClashException msg)).
    { eapply (rec_complete _ _ (<[idx := Cell.with_possibilities cell [v]]> cells));
        [|  |done].
      - rewrite lookup_app_r, Nat.sub_diag; [|done]. done.
      - eapply completes_insert; [done | done | |].
        + repeat split. simpl. by apply singleton_sublist_l.
        + intros w Hw. rewrite Hsv in Hw. inversion Hw; subst w. simpl. left. }
    destruct r3 as [r3|[]]; try (by intros [= <- <-]). by specialize (Hnc msg).
  - destruct r3 as [r3|[]]; try (by intros [= <- <-]).
    apply IH.
    + eapply prefix_lookup_Some; [done|]. etrans; [|done]. by apply prefix_app_r.
    + apply elem_of_cons in Hv as [?|?]; [congruence | done].
    + intros x Hx. apply Hps. by right.
Qed.

End Search_complete.

Lemma solve_complete sol fuel cb (h : Sudoku.store) self cells h' res :
  h !! self = Some cells -> completes cells sol ->
  Sudoku.solve fuel cb h self = Some (h', res) ->
  forall msg, res <> Raised (ClashException msg).
Proof.
  revert h self cells h' res. induction fuel as [|fuel IH]; intros h self cells h' res Hs Hc;
    [done|].
  rewrite (solve_unfold _ _ _ _ _ Hs).
  destruct (Sudoku._easy_step (S fuel) cells) as [[cells' ret]|] eqn:Ee; [|done].
  pose proof (easy_step_keeps sol _ _ _ _ Hc Ee) as [Hc' Hr].
  destruct ret as [ret|e].
  2: { intros [= <- <-] msg [= ->]. by apply (Hr msg). }
  destruct (if cb then _ else _) as [q|e] eqn:Ep.
  2: { intros [= <- <-] msg [= ->]. destruct cb; [|done].
       by apply progress_raised in Ep as [_ ?]. }
  destruct ret as [[idx ps]|]; [|by intros [= <- <-]].
  apply easy_step_branch in Ee as (_ & Hin & _).
  apply elem_of_open_cells in Hin as (_ & cell & Hcell & ->).
  destruct (completes_lookup _ _ _ _ Hc' Hcell) as (v & Hsv & Hv).
  eapply (solve_loop_complete sol _ (solve_frame fuel cb)); eauto.
  rewrite lookup_app_r, Nat.sub_diag; [|done]. done.
Qed.

(** ** What [solve] returns, on any state *)

Section Search_filled.

Variable cb : bool.
Variable rec : Sudoku.store -> nat -> option (Sudoku.store * result nat).
Hypothesis rec_frame : forall h r h' res,
  rec h r = Some (h', res) ->
  h `prefix_of` h' /\ forall r', res = Returned r' -> (length h <= r' < length h')%nat.
Hypothesis rec_filled : forall (h : Sudoku.store) r cells h' r',
  h !! r = Some cells -> rec h r = Some (h', Returned r') ->
  exists cells_r, filled_from cells h' r' cells_r /\ (cb = true -> cells_r <> []).

Lemma solve_loop_filled new idx ps (h : Sudoku.store) cells cell h' r :
  h !! new = Some cells -> cells !! idx = Some cell -> ps ⊆ Cell.possibilities cell ->
  Sudoku.solve_loop rec new idx ps h = Some (h', Returned r) ->
  exists cells_r, filled_from cells h' r cells_r /\ (cb = true -> cells_r <> []).
Proof.
  intros Hn Hc. revert h Hn. induction ps as [|p ps IH]; intros h Hn Hps; simpl; [done|].
  assert (Hp : p ∈ Cell.possibilities cell) by (apply Hps; left).
  destruct (branch_candidate h new idx p cells cell Hn Hc Hp) as (-> & Ha & _). simpl.
  rewrite Ha. simpl.
  destruct (rec _ (length h)) as [[h3 r3]|] eqn:Er; [|done].
  pose proof (rec_frame _ _ _ _ Er) as [Hp3 _].
  destruct r3 as [r3|[]]; try done.
  - intros [= <- <-].
    apply (rec_filled _ _ (<[idx := Cell.with_possibilities cell [p]]> cells)) in Er
      as (cs_r & (Hr & Hsol & Hs) & Hne).
    + exists cs_r. split; [|done]. split_and!; [done | done |].
      etrans; [|done]. by apply assign_shrinks.
    + rewrite lookup_app_r, Nat.sub_diag; [|done]. done.
  - apply IH.
    + eapply prefix_lookup_Some; [done|]. etrans; [|done]. by apply prefix_app_r.
    + intros x Hx. apply Hps. by right.
Qed.

End Search_filled.

Lemma easy_step_None_solved fuel cells cells' :
  Sudoku._easy_step fuel cells = Some (cells', Returned None) ->
  Sudoku.is_solved cells' = true.
Proof.
  unfold Sudoku._easy_step. destruct (Sudoku.is_solved cells) eqn:Es.
  { by intros [= <-]. }
  destruct (Sudoku.easy_pass _ _ _) as [[cs1 [[]|e]]|]; [|done|done].
  destruct (Sudoku.is_solved cs1) eqn:Es1; simpl; [by intros [= <-]|].
  by destruct (Sudoku.py_min _).
Qed.

Lemma solve_filled fuel cb (h : Sudoku.store) self cells h' r :
  h !! self = Some cells ->
  Sudoku.solve fuel cb h self = Some (h', Returned r) ->
  exists cells_r, filled_from cells h' r cells_r /\ (cb = true -> cells_r <> []).
Proof.
  revert h self cells h' r. induction fuel as [|fuel IH]; intros h self cells h' r Hs; [done|].
  rewrite (solve_unfold _ _ _ _ _ Hs).
  destruct (Sudoku._easy_step (S fuel) cells) as [[cells' ret]|] eqn:Ee; [|done].
  pose proof (easy_step_shrinks _ _ _ _ Ee) as [Hsh _].
  destruct ret as [ret|e]; [|done].
  destruct (if cb then _ else _) as [q|e] eqn:Ep; [|done].
  destruct ret as [[idx ps]|].
  - apply easy_step_branch in Ee as (_ & Hin & _).
    apply elem_of_open_cells in Hin as (_ & cell & Hc & ->).
    intros Hloop.
    eapply (solve_loop_filled cb _ (solve_frame fuel cb)) in Hloop
      as (cs_r & (Hr & Hsol & Hs') & Hne); eauto.
    + exists cs_r. split; [|done]. split_and!; [done | done | by etrans].
    + rewrite lookup_app_r, Nat.sub_diag; [|done]. done.
  - intros [= <- <-]. exists cells'. split.
    + split_and!; [|by eapply easy_step_None_solved|done].
      rewrite lookup_app_r, Nat.sub_diag; [|done]. done.
    + intros ->. by destruct cells'.
Qed.

(** [solve] on an object in which every cell has a value: a fresh copy. *)
Lemma solve_filled_copy fuel cb (h : Sudoku.store) self cells :
  h !! self = Some cells -> Sudoku.is_solved cells = true ->
  (cb = true -> cells <> []) ->
  Sudoku.solve (S fuel) cb h self = Some (h ++ [cells], Returned (length h)).
Proof.
  intros Hs Hsol Hne. rewrite (solve_unfold _ _ _ _ _ Hs).
  unfold Sudoku._easy_step. rewrite Hsol.
  destruct cb; [|done]. specialize (Hne eq_refl). by destruct cells.
Qed.

(** X5. Whatever state [solve] is called on and however deep it may recurse,
    the object it returns has a value in every cell, and every cell of it has
    the place of the input cell at its position and candidates taken from that
    cell's; so a cell that had a value keeps it.  Calling [solve] on the
    returned object returns a fresh object with the same cells. *)
Theorem solve_returns_filled fuel cb (h : Sudoku.store) self cells h' r :
  h !! self = Some cells ->
  Sudoku.solve fuel cb h self = Some (h', Returned r) ->
  exists cells_r,
    h' !! r = Some cells_r
    /\ Sudoku.is_solved cells_r = true
    /\ shrinks cells cells_r
    /\ (forall i c v, cells !! i = Some c -> Cell.possibilities c = [v] ->
                      cells_r !! i = Some c)
    /\ forall fuel',
         Sudoku.solve (S fuel') cb h' r = Some (h' ++ [cells_r], Returned (length h')).
Proof.
  intros Hs Hsolve.
  destruct (solve_filled _ _ _ _ _ _ _ Hs Hsolve) as (cells_r & (Hr & Hsol & Hsh) & Hne).
  exists cells_r. split_and!; [done | done | done | |].
  - intros i c v Hi Hv. destruct (shrinks_lookup _ _ _ _ Hsh Hi) as (c' & Hi' & Hsc).
    rewrite Hi'. f_equal. eapply cell_shrinks_determined; [done | done |].
    unfold Sudoku.is_solved in Hsol. rewrite forallb_forall in Hsol.
    specialize (Hsol c' ltac:(by eapply list_elem_of_In, list_elem_of_lookup_2)).
    apply negb_true_iff, bool_decide_eq_false in Hsol.
    intros Hnil. apply Hsol. unfold Cell.value. by rewrite Hnil.
  - intros fuel'. by apply solve_filled_copy.
Qed.

Lemma solve_returns_filled_witness :
  ([cells_of grid_guess] !! 0%nat = Some (cells_of grid_guess)
   /\ Sudoku.solve 65 false [cells_of grid_guess] 0 = Some (guess_final.1, Returned 7%nat))
  /\ exists cells_r,
       guess_final.1 !! 7%nat = Some cells_r
       /\ Sudoku.is_solved cells_r = true
       /\ shrinks (cells_of grid_guess) cells_r
       /\ (forall i c v, cells_of grid_guess !! i = Some c -> Cell.possibilities c = [v] ->
                         cells_r !! i = Some c)
       /\ forall fuel',
            Sudoku.solve (S fuel') false guess_final.1 7
            = Some (guess_final.1 ++ [cells_r], Returned (length guess_final.1)).
Proof.
  assert (H1 : [cells_of grid_guess] !! 0%nat = Some (cells_of grid_guess)) by reflexivity.
  assert (H2 : Sudoku.solve 65 false [cells_of grid_guess] 0
               = Some (guess_final.1, Returned 7%nat)) by (vm_compute; reflexivity).
  split; [exact (conj H1 H2)|].
  exact (solve_returns_filled 65 false [cells_of grid_guess] 0 (cells_of grid_guess)
           guess_final.1 7 H1 H2).
Defined.

(** ** The search decides whether a completion exists *)

Lemma is_solved_lookup cells i c :
  Sudoku.is_solved cells = true -> cells !! i = Some c ->
  Cell.value c <> 0 /\ Cell.possibilities c = [Cell.value c].
Proof.
  intros Hsol Hi. unfold Sudoku.is_solved in Hsol. rewrite forallb_forall in Hsol.
  specialize (Hsol c ltac:(by eapply list_elem_of_In, list_elem_of_lookup_2)).
  apply negb_true_iff, bool_decide_eq_false in Hsol. split; [done|].
  unfold Cell.value in *. by destruct (Cell.possibilities c) as [|v [|w l]].
Qed.

(** The values of a filled conflict-free shrink of a state complete it. *)
Lemma solved_from_completes cells cells_r :
  shrinks cells cells_r -> Sudoku.is_solved cells_r = true -> conflict_free cells_r ->
  completes cells (Cell.value <$> cells_r).
Proof.
  intros Hsh Hsol Hcf. split_and!.
  - by rewrite length_fmap, (shrinks_length _ _ Hsh).
  - intros i c v Hi Hv. rewrite list_lookup_fmap in Hv.
    destruct (shrinks_lookup _ _ _ _ Hsh Hi) as (c' & Hi' & (_ & _ & _ & Hsub)).
    rewrite Hi' in Hv. simpl in Hv. inversion Hv; subst v.
    destruct (is_solved_lookup _ _ _ Hsol Hi') as [_ Hp].
    eapply elem_of_sublist; [|done]. rewrite Hp. left.
  - intros i j ci cj vi vj Hi Hj Hvi Hvj Hij Hm.
    rewrite list_lookup_fmap in Hvi, Hvj.
    destruct (shrinks_lookup _ _ _ _ Hsh Hi) as (ci' & Hi' & Hsi).
    destruct (shrinks_lookup _ _ _ _ Hsh Hj) as (cj' & Hj' & Hsj).
    rewrite Hi' in Hvi. rewrite Hj' in Hvj. simpl in *.
    inversion Hvi; subst vi. inversion Hvj; subst vj.
    apply (Hcf i j ci' cj' Hi' Hj' Hij).
    + by rewrite (cell_shrinks_matches _ _ _ _ Hsi Hsj).
    + by apply (is_solved_lookup _ _ _ Hsol Hi').
Qed.

Section Search_outcome.

Variable cb : bool.
Variable rec : Sudoku.store -> nat -> option (Sudoku.store * result nat).
Hypothesis rec_frame : forall h r h' res,
  rec h r = Some (h', res) ->
  h `prefix_of` h' /\ forall r', res = Returned r' -> (length h <= r' < length h')%nat.
Hypothesis rec_outcome : forall (h : Sudoku.store) r cells h' res,
  h !! r = Some cells -> solvable_input cells -> (cb = true -> cells <> []) ->
  rec h r = Some (h', res) -> returned_or_clash res.

Lemma solve_loop_outcome_wf new idx ps (h : Sudoku.store) cells cell h' res :
  h !! new = Some cells -> well_formed cells -> closed_but (fun _ => False) cells ->
  cells !! idx = Some cell -> ps ⊆ Cell.possibilities cell ->
  Sudoku.solve_loop rec new idx ps h = Some (h', res) -> returned_or_clash res.
Proof.
  intros Hn Hwf Hcl Hc. revert h Hn. induction ps as [|p ps IH]; intros h Hn Hps; simpl.
  { intros [= <- <-]. right. by eauto. }
  assert (Hp : p ∈ Cell.possibilities cell) by (apply Hps; left).
  destruct (branch_candidate h new idx p cells cell Hn Hc Hp) as (-> & Ha & _). simpl.
  rewrite Ha. simpl.
  destruct (rec _ (length h)) as [[h3 r3]|] eqn:Er; [|done].
  pose proof (rec_frame _ _ _ _ Er) as [Hp3 _].
  apply (rec_outcome _ _ (<[idx := Cell.with_possibilities cell [p]]> cells)) in Er as Ho.
  - destruct Ho as [[r' ->]|[msg ->]].
    + intros [= <- <-]. left. by eauto.
    + apply IH.
      * eapply prefix_lookup_Some; [done|]. etrans; [|done]. by apply prefix_app_r.
      * intros x Hx. apply Hps. by right.
  - rewrite lookup_app_r, Nat.sub_diag; [|done]. done.
  - split; [by apply assign_well_formed | intros _; by apply assign_conflict_free].
  - intros _ Hnil. apply (f_equal length) in Hnil. rewrite length_insert in Hnil.
    apply lookup_lt_Some in Hc. simpl in Hnil. lia.
Qed.

End Search_outcome.

Lemma solve_outcome fuel cb (h : Sudoku.store) self cells h' res :
  h !! self = Some cells -> solvable_input cells -> (cb = true -> cells <> []) ->
  Sudoku.solve fuel cb h self = Some (h', res) -> returned_or_clash res.
Proof.
  revert h self cells h' res.
  induction fuel as [|fuel IH]; intros h self cells h' res Hs [Hwf Hcf] Hne; [done|].
  rewrite (solve_unfold _ _ _ _ _ Hs).
  destruct (Sudoku._easy_step (S fuel) cells) as [[cells' ret]|] eqn:Ee; [|done].
  pose proof (easy_step_shrinks _ _ _ _ Ee) as [Hsh He].
  destruct ret as [ret|e].
  2: { intros [= <- <-]. destruct (He e eq_refl) as [->| ->]; [right; by eauto|].
       by apply easy_step_no_value_error in Ee. }
  destruct (if cb then _ else _) as [q|e] eqn:Ep.
  2: { exfalso. destruct cb; [|done]. apply progress_raised in Ep as [-> _].
       apply shrinks_length in Hsh. destruct cells; [by apply Hne | done]. }
  destruct ret as [[idx ps]|]; [|intros [= <- <-]; left; by eauto].
  destruct (Sudoku.is_solved cells) eqn:Esol.
  { unfold Sudoku._easy_step in Ee. by rewrite Esol in Ee. }
  destruct (easy_step_closed _ _ _ _ Hwf Esol Ee) as (Hwf' & Hcl' & _).
  apply easy_step_branch in Ee as (_ & Hin & _).
  apply elem_of_open_cells in Hin as (_ & cell & Hc & ->).
  eapply (solve_loop_outcome_wf cb _ (solve_frame fuel cb)); eauto.
  rewrite lookup_app_r, Nat.sub_diag; [|done]. done.
Qed.

(** X1. On a well-formed state that is not a filled grid with a conflict,
    whatever [solve] returns is an object in which every cell has a value, no
    two cells sharing a row, column or block hold the same value, and the
    values are taken from the candidates of the input: they complete it. *)
Theorem solve_returns_completion fuel cb (h : Sudoku.store) self cells h' r :
  h !! self = Some cells -> solvable_input cells ->
  Sudoku.solve fuel cb h self = Some (h', Returned r) ->
  exists cells_r,
    h' !! r = Some cells_r
    /\ Sudoku.is_solved cells_r = true
    /\ conflict_free cells_r
    /\ shrinks cells cells_r
    /\ completes cells (Cell.value <$> cells_r).
Proof.
  intros Hs Hin Hsolve.
  destruct (solve_sound _ _ _ _ _ _ _ Hs Hin Hsolve) as (cells_r & Hr & Hsol & Hcf & Hsh).
  exists cells_r. split_and!; try done. by apply solved_from_completes.
Qed.

(** X2. On any state, a [solve] that ends in [ClashException] was called on a
    state that has no completion: neither propagation nor the search over the
    candidates of the branch cell loses one. *)
Theorem solve_clash_no_completion fuel cb (h : Sudoku.store) self cells h' msg :
  h !! self = Some cells ->
  Sudoku.solve fuel cb h self = Some (h', Raised (ClashException msg)) ->
  forall sol, ~ completes cells sol.
Proof.
  intros Hs Hsolve sol Hc.
  by apply (solve_complete sol _ _ _ _ _ _ _ Hs Hc Hsolve msg).
Qed.

(** X3. On a well-formed state that is not a filled grid with a conflict, with
    a depth above its number of candidates, [solve] decides whether the state
    has a completion: it ends, and either returns an object whose values
    complete the state, or raises [ClashException] and the state has no
    completion.  It raises nothing else. *)
Theorem solve_decides fuel cb (h : Sudoku.store) self cells :
  h !! self = Some cells -> solvable_input cells -> (cb = true -> cells <> []) ->
  (total cells < fuel)%nat ->
  exists h' res,
    Sudoku.solve fuel cb h self = Some (h', res)
    /\ ((exists r cells_r,
           res = Returned r /\ h' !! r = Some cells_r
           /\ Sudoku.is_solved cells_r = true
           /\ completes cells (Cell.value <$> cells_r))
        \/ ((exists msg, res = Raised (ClashException msg))
            /\ forall sol, ~ completes cells sol)).
Proof.
  intros Hs Hin Hne Hf.
  destruct (solve_total fuel cb h self cells Hs Hf) as (h' & res & Hsolve).
  exists h', res. split; [done|].
  destruct (solve_outcome _ _ _ _ _ _ _ Hs Hin Hne Hsolve) as [[r ->]|[msg ->]].
  - left. destruct (solve_sound _ _ _ _ _ _ _ Hs Hin Hsolve)
      as (cells_r & Hr & Hsol & Hcf & Hsh).
    exists r, cells_r. split_and!; try done. by apply solved_from_completes.
  - right. split; [by eauto|]. intros sol Hc.
    by apply (solve_complete sol _ _ _ _ _ _ _ Hs Hc Hsolve msg).
Qed.

Lemma solve_returns_completion_witness :
  ([cells_of grid_guess] !! 0%nat = Some (cells_of grid_guess)
   /\ solvable_input (cells_of grid_guess)
   /\ Sudoku.solve 65 false [cells_of grid_guess] 0 = Some (guess_final.1, Returned 7%nat))
  /\ exists cells_r,
       guess_final.1 !! 7%nat = Some cells_r
       /\ Sudoku.is_solved cells_r = true
       /\ conflict_free cells_r
       /\ shrinks (cells_of grid_guess) cells_r
       /\ completes (cells_of grid_guess) (Cell.value <$> cells_r).
Proof.
  assert (H1 : [cells_of grid_guess] !! 0%nat = Some (cells_of grid_guess)) by reflexivity.
  assert (H2 : solvable_input (cells_of grid_guess)).
  { split; [apply (init_well_formed (grid_of grid_guess)); vm_compute; reflexivity|].
    vm_compute. discriminate. }
  assert (H3 : Sudoku.solve 65 false [cells_of grid_guess] 0
               = Some (guess_final.1, Returned 7%nat)) by (vm_compute; reflexivity).
  split; [exact (conj H1 (conj H2 H3))|].
  exact (solve_returns_completion 65 false [cells_of grid_guess] 0 (cells_of grid_guess)
           guess_final.1 7 H1 H2 H3).
Defined.

Lemma solve_clash_no_completion_witness :
  ([cells_of grid_no_completion] !! 0%nat = Some (cells_of grid_no_completion)
   /\ Sudoku.solve 65 false [cells_of grid_no_completion] 0
      = Some (store_after 65 false (cells_of grid_no_completion),
              Raised (ClashException msg_not_solvable)))
  /\ forall sol, ~ completes (cells_of grid_no_completion) sol.
Proof.
  assert (H1 : [cells_of grid_no_completion] !! 0%nat = Some (cells_of grid_no_completion))
    by reflexivity.
  assert (H2 : Sudoku.solve 65 false [cells_of grid_no_completion] 0
      = Some (store_after 65 false (cells_of grid_no_completion),
              Raised (ClashException msg_not_solvable))) by (vm_compute; reflexivity).
  split; [exact (conj H1 H2)|].
  exact (solve_clash_no_completion 65 false [cells_of grid_no_completion] 0
           (cells_of grid_no_completion) _ msg_not_solvable H1 H2).
Defined.

Lemma solve_decides_witness :
  ([cells_of grid_guess] !! 0%nat = Some (cells_of grid_guess)
   /\ solvable_input (cells_of grid_guess)
   /\ (true = true -> cells_of grid_guess <> [])
   /\ (total (cells_of grid_guess) < 65)%nat)
  /\ exists h' res,
       Sudoku.solve 65 true [cells_of grid_guess] 0 = Some (h', res)
       /\ ((exists r cells_r,
              res = Returned r /\ h' !! r = Some cells_r
              /\ Sudoku.is_solved cells_r = true
              /\ completes (cells_of grid_guess) (Cell.value <$> cells_r))
           \/ ((exists msg, res = Raised (ClashException msg))
               /\ forall sol, ~ completes (cells_of grid_guess) sol)).
Proof.
  assert (H1 : [cells_of grid_guess] !! 0%nat = Some (cells_of grid_guess)) by reflexivity.
  assert (H2 : solvable_input (cells_of grid_guess)).
  { split; [apply (init_well_formed (grid_of grid_guess)); vm_compute; reflexivity|].
    vm_compute. discriminate. }
  assert (H3 : true = true -> cells_of grid_guess <> []) by (intros _; vm_compute; discriminate).
  assert (H4 : (total (cells_of grid_guess) < 65)%nat) by (vm_compute; lia).
  split; [exact (conj H1 (conj H2 (conj H3 H4)))|].
  exact (solve_decides 65 true [cells_of grid_guess] 0 (cells_of grid_guess) H1 H2 H3 H4).
Defined.

Lemma solve_rejects_duplicates_witness :
  (Sudoku.init (grid_of grid_row_clash) = Returned (cells_of grid_row_clash)
   /\ validate_array (grid_of grid_row_clash) = Returned 2
   /\ Sudoku.is_solved (cells_of grid_row_clash) = false
   /\ grid_of grid_row_clash !! 0%nat = Some [PyInt 1; PyInt 1; PyInt 0; PyInt 0]
   /\ [PyInt 1; PyInt 1; PyInt 0; PyInt 0] !! 0%nat = Some (PyInt 1)
   /\ [PyInt 1; PyInt 1; PyInt 0; PyInt 0] !! 1%nat = Some (PyInt 1)
   /\ 1 <> 0 /\ (0%nat, 0%nat) <> (0%nat, 1%nat)
   /\ (total (cells_of grid_row_clash) < 65)%nat)
  /\ exists h', Sudoku.solve 65 false [cells_of grid_row_clash] 0
                = Some (h', Raised (ClashException msg_only_value)).
Proof.
  assert (H1 : Sudoku.init (grid_of grid_row_clash) = Returned (cells_of grid_row_clash))
    by (vm_compute; reflexivity).
  assert (H2 : validate_array (grid_of grid_row_clash) = Returned 2)
    by (vm_compute; reflexivity).
  assert (H3 : Sudoku.is_solved (cells_of grid_row_clash) = false)
    by (vm_compute; reflexivity).
  assert (H4 : grid_of grid_row_clash !! 0%nat = Some [PyInt 1; PyInt 1; PyInt 0; PyInt 0])
    by reflexivity.
  assert (H5 : [PyInt 1; PyInt 1; PyInt 0; PyInt 0] !! 0%nat = Some (PyInt 1)) by reflexivity.
  assert (H6 : [PyInt 1; PyInt 1; PyInt 0; PyInt 0] !! 1%nat = Some (PyInt 1)) by reflexivity.
  assert (H7 : 1 <> 0) by lia.
  assert (H8 : (0%nat, 0%nat) <> (0%nat, 1%nat)) by discriminate.
  assert (H9 : (total (cells_of grid_row_clash) < 65)%nat) by (vm_compute; lia).
  split; [exact (conj H1 (conj H2 (conj H3 (conj H4 (conj H5 (conj H6 (conj H7 (conj H8 H9))))))))|].
  exact (solve_rejects_duplicates 65 false (grid_of grid_row_clash) (cells_of grid_row_clash)
           2 0 0 _ 0 1 _ 1 H1 H2 H3 H4 H5 H4 H6 H7 H8 (or_introl eq_refl) H9).
Defined.

(** ** Invariants of the cascade, on any state *)

Section Cascade_Forall.

Variable Q : Cell.t -> Prop.
Hypothesis Q_eliminate : forall c v c' n,
  Q c -> Cell.eliminate c v = Returned (c', n) -> Q c'.

Lemma eliminate_loop_Forall rec cell value idxs cs cs' r :
  (forall cs0 k cs1 r1, Forall Q cs0 -> rec cs0 k = Some (cs1, r1) -> Forall Q cs1) ->
  Forall Q cs ->
  Sudoku.eliminate_loop rec cell value idxs cs = Some (cs', r) -> Forall Q cs'.
Proof.
  intros Hrec. revert cs. induction idxs as [|idx rest IH]; intros cs HQ; simpl.
  { by intros [= <- <-]. }
  destruct (cs !! idx) as [other|] eqn:Hidx; [|by intros [= <- <-]].
  destruct (Cell.eqb cell other); [by apply IH|].
  destruct (Cell.matches cell other); [|by apply IH].
  destruct (Cell.eliminate other value) as [[other' n]|e] eqn:He; [|by intros [= <- <-]].
  assert (HQ1 : Forall Q (<[idx := other']> cs)).
  { apply Forall_insert; [done|]. eapply Q_eliminate; [|done].
    rewrite Forall_forall in HQ. apply HQ. by eapply list_elem_of_lookup_2. }
  destruct (decide (n = 0)); [by apply IH|].
  destruct (rec _ idx) as [[cs2 r2]|] eqn:Er; [|done].
  apply Hrec in Er; [|done].
  destruct r2 as [[]|e]; [by apply IH | by intros [= <- <-]].
Qed.

Lemma eliminate_Forall fuel cs i cs' r :
  Forall Q cs -> Sudoku.eliminate fuel cs i = Some (cs', r) -> Forall Q cs'.
Proof.
  revert cs i cs' r. induction fuel as [|fuel IH]; intros cs i cs' r HQ; [done|]. simpl.
  destruct (cs !! i) as [cell|]; [|by intros [= <- <-]].
  destruct (decide (Cell.value cell = 0)); [by intros [= <- <-]|].
  apply eliminate_loop_Forall; [|done]. intros cs0 k cs1 r1. apply IH.
Qed.

End Cascade_Forall.

(** X6. On every state, a call of [Sudoku.eliminate] at a depth above the
    number of candidates ends, and whether it returns or raises, the state it
    leaves has the same cells at the same places with candidate lists that are
    sublists of the former ones; if no candidate list was empty, none is; and
    the only exception it raises is the clash of [Cell.eliminate]. *)
Theorem eliminate_only_removes fuel (cells : list Cell.t) i :
  (total cells < fuel)%nat ->
  exists cells' r,
    Sudoku.eliminate fuel cells i = Some (cells', r)
    /\ length cells' = length cells
    /\ (forall j c, cells !! j = Some c ->
          exists c', cells' !! j = Some c'
                     /\ Cell.row c' = Cell.row c /\ Cell.col c' = Cell.col c
                     /\ Cell.subgrid c' = Cell.subgrid c
                     /\ Cell.possibilities c' `sublist_of` Cell.possibilities c)
    /\ (nonempty cells -> nonempty cells')
    /\ (forall e, r = Raised e -> e = ClashException msg_only_value).
Proof.
  intros Hf. destruct (eliminate_total fuel cells i Hf) as (cells' & r & He & _ & Hlen).
  exists cells', r. destruct (eliminate_shrinks _ _ _ _ _ He) as [Hsh Hc].
  split_and!; [done | done | | | done].
  - intros j c Hj.
    destruct (shrinks_lookup _ _ _ _ Hsh Hj) as (c' & Hj' & Hr & Hcl & Hsg & Hsub).
    by exists c'.
  - intros Hne. eapply (eliminate_Forall (fun c => Cell.possibilities c <> [])); [|done|done].
    intros c v c' n Hq Hel. by eapply cell_eliminate_nonempty.
Qed.

Lemma eliminate_only_removes_witness :
  (total (cells_of grid_one_row) < 60)%nat
  /\ exists cells' r,
       Sudoku.eliminate 60 (cells_of grid_one_row) 0 = Some (cells', r)
       /\ length cells' = length (cells_of grid_one_row)
       /\ (forall j c, cells_of grid_one_row !! j = Some c ->
             exists c', cells' !! j = Some c'
                        /\ Cell.row c' = Cell.row c /\ Cell.col c' = Cell.col c
                        /\ Cell.subgrid c' = Cell.subgrid c
                        /\ Cell.possibilities c' `sublist_of` Cell.possibilities c)
       /\ (nonempty (cells_of grid_one_row) -> nonempty cells')
       /\ (forall e, r = Raised e -> e = ClashException msg_only_value).
Proof.
  assert (H1 : (total (cells_of grid_one_row) < 60)%nat) by (vm_compute; lia).
  split; [exact H1|].
  exact (eliminate_only_removes 60 (cells_of grid_one_row) 0 H1).
Defined.

(** ** A second pass changes nothing *)

Lemma cell_eliminate_absent c v :
  v ∉ Cell.possibilities c -> Cell.eliminate c v = Returned (c, 0).
Proof.
  intros Hv. unfold Cell.eliminate.
  destruct (bool_decide _ && bool_decide _) eqn:E.
  - exfalso. apply andb_true_iff in E as [H1 H2].
    apply bool_decide_eq_true in H1, H2. apply Hv.
    destruct (Cell.possibilities c) as [|x l]; [done|]. simpl in H2.
    inversion H2; subst x. left.
  - by rewrite (proj2 (list_remove_None v _) Hv).
Qed.

Lemma eliminate_loop_closed_noop rec cell value i idxs (cs : list Cell.t) :
  cs !! i = Some cell -> Cell.possibilities cell = [value] -> closed_at cs i ->
  Sudoku.eliminate_loop rec cell value idxs cs = Some (cs, Returned ()).
Proof.
  intros Hi Hv Hcl. induction idxs as [|idx rest IH]; simpl; [done|].
  destruct (cs !! idx) as [other|] eqn:Hidx; [|done].
  destruct (Cell.eqb cell other) eqn:Heq; [done|].
  destruct (Cell.matches cell other) eqn:Hm; [|done].
  assert (Hne : idx <> i).
  { intros ->. rewrite Hi in Hidx. inversion Hidx; subst other.
    by rewrite cell_eqb_refl in Heq. }
  rewrite cell_eliminate_absent by (by eapply (Hcl cell value Hi Hv idx other)).
  rewrite list_insert_id by done. by destruct (decide (0 = 0)).
Qed.

Lemma eliminate_closed_noop fuel (cs : list Cell.t) i :
  closed_at cs i -> Sudoku.eliminate (S fuel) cs i = Some (cs, Returned ()).
Proof.
  intros Hcl. simpl. destruct (cs !! i) as [cell|] eqn:Hi; [|done].
  destruct (decide (Cell.value cell = 0)) as [|Hnz]; [done|].
  eapply eliminate_loop_closed_noop; [done | | done].
  unfold Cell.value in *. by destruct (Cell.possibilities cell) as [|v [|w l]].
Qed.

Lemma easy_pass_closed_noop fuel idxs (cs : list Cell.t) :
  closed_but (fun _ => False) cs ->
  Sudoku.easy_pass (S fuel) idxs cs = Some (cs, Returned ()).
Proof.
  intros Hcl. induction idxs as [|i rest IH]; [done|]. cbn [Sudoku.easy_pass].
  destruct (cs !! i) as [cell|]; [|done].
  destruct (decide (Cell.value cell = 0)); [done|].
  rewrite eliminate_closed_noop by (apply Hcl; tauto). done.
Qed.

(** In a state where every cell has a value and no two cells sharing a row,
    column or block hold the same one, nothing is left to eliminate. *)
Lemma solved_conflict_free_closed (cells : list Cell.t) :
  Sudoku.is_solved cells = true -> conflict_free cells ->
  closed_but (fun _ => False) cells.
Proof.
  intros Hs Hcf k _ ck v Hk Hv j cj Hj Hjk Hm Hin.
  assert (Hvk : Cell.value ck = v) by (unfold Cell.value; by rewrite Hv).
  destruct (is_solved_lookup _ _ _ Hs Hk) as [Hnk _].
  destruct (is_solved_lookup _ _ _ Hs Hj) as [_ Hpj].
  apply (Hcf k j ck cj Hk Hj ltac:(congruence) Hm Hnk).
  rewrite Hvk. rewrite Hpj in Hin. by apply list_elem_of_singleton in Hin.
Qed.

(** X7. One pass is a fixed point.  When [_easy_step] returns on a
    well-formed state, running [_easy_step] again on the state it left, at any
    depth, leaves that state as it is and returns the same answer; and unless
    the state it was called on was a filled grid with a conflict, which it
    returns untouched, no cell of the state it left keeps as a candidate the
    value of another determined cell sharing its row, column or block. *)
Theorem easy_step_fixed_point fuel (cells cells' : list Cell.t) ret :
  well_formed cells ->
  Sudoku._easy_step fuel cells = Some (cells', Returned ret) ->
  ((Sudoku.is_solved cells = true -> conflict_free cells) ->
   closed_but (fun _ => False) cells')
  /\ forall fuel', Sudoku._easy_step (S fuel') cells' = Some (cells', Returned ret).
Proof.
  intros Hwf He. destruct (Sudoku.is_solved cells) eqn:Es.
  { unfold Sudoku._easy_step in He. rewrite Es in He. inversion He; subst cells' ret.
    split; [by intros Hcf; apply solved_conflict_free_closed; [|apply Hcf]|].
    intros fuel'. unfold Sudoku._easy_step. by rewrite Es. }
  destruct (easy_step_closed _ _ _ _ Hwf Es He) as (Hwf' & Hcl' & Hret).
  split; [done|]. intros fuel'.
  assert (Hmin : Sudoku.is_solved cells' = false ->
                 Sudoku.py_min (Sudoku.open_cells cells') = Returned
                   (match ret with Some x => x | None => (0%nat, []) end) /\ ret <> None).
  { intros Hns. revert He. unfold Sudoku._easy_step. rewrite Es.
    destruct (Sudoku.easy_pass _ _ _) as [[cs1 [[]|e]]|]; [|done|done].
    destruct (Sudoku.is_solved cs1) eqn:Es1; simpl.
    - intros [= <- <-]. congruence.
    - destruct (Sudoku.py_min _) as [x|e] eqn:Em; intros [= <- <-]. done. }
  unfold Sudoku._easy_step. destruct (Sudoku.is_solved cells') eqn:Es'.
  - by rewrite (proj2 Hret eq_refl).
  - rewrite easy_pass_closed_noop by done. rewrite Es'. simpl.
    destruct (Hmin eq_refl) as [-> Hnn]. by destruct ret.
Qed.

Lemma easy_step_fixed_point_witness :
  (well_formed (cells_of grid_two_given)
   /\ Sudoku._easy_step 65 (cells_of grid_two_given)
      = Some (after_step 65 (cells_of grid_two_given), Returned (Some (2%nat, [3; 4]))))
  /\ ((Sudoku.is_solved (cells_of grid_two_given) = true ->
       conflict_free (cells_of grid_two_given)) ->
      closed_but (fun _ => False) (after_step 65 (cells_of grid_two_given)))
  /\ forall fuel',
       Sudoku._easy_step (S fuel') (after_step 65 (cells_of grid_two_given))
       = Some (after_step 65 (cells_of grid_two_given), Returned (Some (2%nat, [3; 4]))).
Proof.
  assert (H1 : well_formed (cells_of grid_two_given)).
  { apply (init_well_formed (grid_of grid_two_given)). vm_compute; reflexivity. }
  assert (H2 : Sudoku._easy_step 65 (cells_of grid_two_given)
      = Some (after_step 65 (cells_of grid_two_given), Returned (Some (2%nat, [3; 4]))))
    by (vm_compute; reflexivity).
  split; [exact (conj H1 H2)|].
  exact (easy_step_fixed_point 65 (cells_of grid_two_given)
           (after_step 65 (cells_of grid_two_given)) (Some (2%nat, [3; 4])) H1 H2).
Defined.

(** ** What [validate_array] accepts *)

Lemma in_valid_numbers_spec n v :
  in_valid_numbers n v = true <-> exists z, v = PyInt z /\ 0 <= z <= n.
Proof.
  destruct v as [z| |s]; simpl.
  - rewrite bool_decide_eq_true. split; [by eauto | by intros (? & [= <-] & ?)].
  - split; [done | by intros (? & ? & _)].
  - split; [done | by intros (? & ? & _)].
Qed.

Lemma validate_rows_spec n order arr :
  validate_rows n order arr = Returned () <->
  Forall (fun line => length line = n
                      /\ Forall (fun v => exists z, v = PyInt z /\ 0 <= z <= order ^ 2) line)
         arr.
Proof.
  induction arr as [|line arr IH]; simpl; [done|].
  rewrite Forall_cons, <- IH.
  destruct (bool_decide (length line = n)) eqn:E; simpl.
  - apply bool_decide_eq_true in E.
    destruct (forallb (in_valid_numbers (order ^ 2)) line) eqn:Ef; simpl.
    + rewrite forallb_forall in Ef. split; [|tauto]. intros H. split_and!; try done.
      apply Forall_forall. intros v Hv. apply in_valid_numbers_spec, Ef.
      by apply list_elem_of_In.
    + split; [done|]. intros [[_ Hall] _]. apply not_true_iff_false in Ef. exfalso.
      apply Ef. apply forallb_forall. intros v Hv. apply in_valid_numbers_spec.
      rewrite Forall_forall in Hall. by apply Hall, list_elem_of_In.
  - apply bool_decide_eq_false in E. split; [done | tauto].
Qed.

Lemma validate_rows_raised n order arr e :
  validate_rows n order arr = Raised e -> exists msg, e = AssertionError msg.
Proof.
  induction arr as [|line arr IH]; simpl; [done|].
  destruct (negb _); [intros [= <-]; by eauto|].
  destruct (negb _); [intros [= <-]; by eauto | done].
Qed.

Lemma validate_array_Returned (arr : list (list pyval)) (order : Z) :
  validate_array arr = Returned order ->
  0 <= order /\ order * order = Z.of_nat (length arr)
  /\ Forall (fun line =>
               length line = length arr
               /\ Forall (fun v => exists z, v = PyInt z /\ 0 <= z <= order * order) line)
            arr.
Proof.
  unfold validate_array.
  destruct (bool_decide (_ = Z.of_nat (length arr))) eqn:E; simpl; [|done].
  apply bool_decide_eq_true in E.
  destruct (validate_rows _ _ arr) as [[]|] eqn:Ev; [|done]. intros [= <-].
  split_and!; [apply Z.sqrt_nonneg | done |].
  apply validate_rows_spec in Ev. by rewrite Z.pow_2_r in Ev.
Qed.

Lemma validate_array_raised (arr : list (list pyval)) e :
  validate_array arr = Raised e -> exists msg, e = AssertionError msg.
Proof.
  unfold validate_array. destruct (negb _); [intros [= <-]; by eauto|].
  destruct (validate_rows _ _ arr) as [[]|e'] eqn:Ev; [done|].
  intros [= <-]. by eapply validate_rows_raised.
Qed.

(** X8. [validate_array] returns [order] exactly when [order] is the
    non-negative root of the number of rows, every row is as long as the array
    and every entry is an integer of [0, order²]; and when it does not return
    it raises [AssertionError], nothing else. *)
Theorem validate_array_accepts (arr : list (list pyval)) (order : Z) :
  (validate_array arr = Returned order <->
   0 <= order /\ order * order = Z.of_nat (length arr)
   /\ Forall (fun line =>
                length line = length arr
                /\ Forall (fun v => exists z, v = PyInt z /\ 0 <= z <= order * order) line)
             arr)
  /\ (forall e, validate_array arr = Raised e -> exists msg, e = AssertionError msg).
Proof.
  split; [split; [apply validate_array_Returned|] | intros e; apply validate_array_raised].
  intros (Hpos & Hsq & Hrows). unfold validate_array.
  assert (Hs : Z.sqrt (Z.of_nat (length arr)) = order).
  { rewrite <- Hsq. by apply Z.sqrt_square. }
  rewrite Hs, bool_decide_eq_true_2 by done. simpl.
  rewrite (proj2 (validate_rows_spec (length arr) order arr)); [done|].
  by rewrite Z.pow_2_r.
Qed.

(** ** What the constructor builds *)

Lemma collect_all_returned {A} (l : list (result A)) :
  Forall (fun x => exists a, x = Returned a) l -> exists al, collect l = Returned al.
Proof.
  induction 1 as [|x l [a ->] _ [al IH]]; simpl; [by eauto|]. rewrite IH. by eauto.
Qed.

Lemma concat_length_rows {A} (ls : list (list A)) n :
  Forall (fun l => length l = n) ls -> length (concat ls) = (length ls * n)%nat.
Proof.
  induction 1 as [|l ls Hl _ IH]; simpl; [done|]. rewrite length_app, IH, Hl. lia.
Qed.

Lemma init_entry (arr : list (list pyval)) (order : Z) (r c : nat) (z : Z) :
  validate_array arr = Returned order -> arr <> [] ->
  Cell.init (Z.of_nat r) (Z.of_nat c) order (PyInt z)
  = Returned (Cell.mk (if decide (z = 0) then py_range 1 (order ^ 2 + 1) else [z])
                      (Z.of_nat r) (Z.of_nat c)
                      (Z.of_nat r `div` order, Z.of_nat c `div` order)).
Proof.
  intros Ev Hne. pose proof (validate_array_Returned arr order Ev) as (_ & Hsq & _).
  unfold Cell.init. simpl. destruct (decide (order = 0)) as [->|]; [|done].
  destruct arr; [done|]. simpl in Hsq. lia.
Qed.

Lemma init_accepted (arr : list (list pyval)) (order : Z) :
  validate_array arr = Returned order ->
  exists cells,
    Sudoku.init arr = Returned cells
    /\ length cells = (length arr * length arr)%nat
    /\ well_formed cells.
Proof.
  intros Ev. pose proof (validate_array_length _ _ Ev) as Hlen.
  pose proof (validate_array_Returned arr order Ev) as (Hpos & Hsq & Hrows).
  assert (Hex : exists cells, Sudoku.init arr = Returned cells).
  { unfold Sudoku.init, cells_from_arr. rewrite Ev. apply collect_all_returned.
    apply Forall_forall. intros x Hx.
    apply list_elem_of_In, in_concat in Hx as (l & Hl & Hx).
    apply list_elem_of_In, elem_of_lookup_imap in Hl as (r & line & -> & Hr).
    apply list_elem_of_In, elem_of_lookup_imap in Hx as (c & v & -> & Hc).
    rewrite Forall_forall in Hrows.
    destruct (Hrows line (list_elem_of_lookup_2 _ _ _ Hr)) as [_ Hvals].
    rewrite Forall_forall in Hvals.
    destruct (Hvals v (list_elem_of_lookup_2 _ _ _ Hc)) as (z & -> & _).
    erewrite (init_entry arr order r c z Ev); [by eauto|]. intros ->. done. }
  destruct Hex as [cells Hcells]. exists cells. split_and!; [done | | ].
  - pose proof Hcells as Hc. unfold Sudoku.init, cells_from_arr in Hc. rewrite Ev in Hc.
    apply collect_Returned in Hc. apply (f_equal length) in Hc.
    rewrite length_fmap in Hc. rewrite <- Hc.
    rewrite (concat_length_rows _ (length arr)); [by rewrite length_imap|].
    apply Forall_forall. intros l Hl.
    apply elem_of_lookup_imap in Hl as (r & line & -> & Hr).
    rewrite length_imap. rewrite Forall_forall in Hlen. apply Hlen.
    by eapply list_elem_of_lookup_2.
  - by eapply init_well_formed.
Qed.

(** X9. On an array that [validate_array] accepts, the constructor raises
    nothing and builds one cell per entry, in row-major order: the cell of row
    [r] and column [c] sits at position [r * n + c], knows its row, its column
    and its block [(r // order, c // order)], and has the given value as its
    only candidate, or all of 1..order² when the entry is 0.  The state is
    well formed. *)
Theorem init_builds_grid (arr : list (list pyval)) (order : Z) :
  validate_array arr = Returned order ->
  exists cells,
    Sudoku.init arr = Returned cells
    /\ length cells = (length arr * length arr)%nat
    /\ well_formed cells
    /\ forall r c line z,
         arr !! r = Some line -> line !! c = Some (PyInt z) ->
         cells !! (r * length arr + c)%nat
         = Some (Cell.mk (if decide (z = 0) then py_range 1 (order ^ 2 + 1) else [z])
                         (Z.of_nat r) (Z.of_nat c)
                         (Z.of_nat r `div` order, Z.of_nat c `div` order)).
Proof.
  intros Ev. destruct (init_accepted arr order Ev) as (cells & Hcells & Hlen & Hwf).
  exists cells. split_and!; [done | done | done |].
  intros r c line z Hr Hc. apply (init_lookup _ _ _ _ Hcells).
  exists r, c, line, (PyInt z), order. split_and!; try done.
  apply (init_entry arr order r c z Ev). intros ->. done.
Qed.

Lemma init_builds_grid_witness :
  validate_array (grid_of grid_guess) = Returned 2
  /\ exists cells,
       Sudoku.init (grid_of grid_guess) = Returned cells
       /\ length cells = (length (grid_of grid_guess) * length (grid_of grid_guess))%nat
       /\ well_formed cells
       /\ forall r c line z,
            grid_of grid_guess !! r = Some line -> line !! c = Some (PyInt z) ->
            cells !! (r * length (grid_of grid_guess) + c)%nat
            = Some (Cell.mk (if decide (z = 0) then py_range 1 (2 ^ 2 + 1) else [z])
                            (Z.of_nat r) (Z.of_nat c)
                            (Z.of_nat r `div` 2, Z.of_nat c `div` 2)).
Proof.
  assert (H1 : validate_array (grid_of grid_guess) = Returned 2) by (vm_compute; reflexivity).
  split; [exact H1|].
  exact (init_builds_grid (grid_of grid_guess) 2 H1).
Defined.

(** ** Progress and solvedness *)

Lemma determined_all (cells : list Cell.t) :
  Sudoku.determined cells = length cells <-> Sudoku.is_solved cells = true.
Proof.
  unfold Sudoku.determined, Sudoku.is_solved.
  induction cells as [|c cells IH]; simpl; [done|].
  rewrite filter_cons. pose proof (length_filter (fun c => Cell.value c <> 0) cells) as Hle.
  destruct (decide (Cell.value c <> 0)) as [Hv|Hv]; simpl.
  - rewrite bool_decide_eq_false_2 by done. simpl. rewrite <- IH. lia.
  - rewrite bool_decide_eq_true_2 by (by destruct (decide (Cell.value c = 0))). simpl.
    split; [lia | done].
Qed.

(** X10. On a state with at least one cell [progress] returns a float,
    the one true division gives for the number of cells that have a value
    over the number of cells: a number between 0 and 1, within 2^-53 of the
    exact fraction.  On a state of fewer than 2^53 cells it is a number with a
    53-bit mantissa or zero, it is 1 exactly when [is_solved] holds, and 0
    exactly when no cell has a value. *)
Theorem progress_fraction (cells : list Cell.t) :
  cells <> [] ->
  exists f,
    Sudoku.progress cells = Returned f
    /\ (0 <= float_value f)%Q /\ (float_value f <= 1)%Q
    /\ (Qabs (float_value f - inject_Z (Z.of_nat (Sudoku.determined cells))
                              / inject_Z (Z.of_nat (length cells)))
        <= 1 # 9007199254740992)%Q
    /\ (Z.of_nat (length cells) < 2 ^ 53 ->
        (f = Float.zero \/ 2 ^ 52 <= Float.mant f < 2 ^ 53)
        /\ ((float_value f == 1)%Q <-> Sudoku.is_solved cells = true)
        /\ ((float_value f == 0)%Q <-> Sudoku.determined cells = 0%nat)).
Proof.
  intros Hne. destruct (progress_nonempty cells Hne) as (f & Hf & -> & _).
  exists (Float.truediv (Z.of_nat (Sudoku.determined cells)) (Z.of_nat (length cells))).
  pose proof (determined_le_length cells) as Hle.
  assert (Hn : 0 < Z.of_nat (length cells)) by (destruct cells; [done | simpl; lia]).
  destruct (truediv_value (Z.of_nat (Sudoku.determined cells)) (Z.of_nat (length cells)))
    as (H0 & H1 & Hnear & Hsmall); [lia | done |].
  split_and!; [done | done | done | done |].
  intros Hlt. destruct (Hsmall Hlt) as [Hone Hzero]. split_and!.
  - destruct (decide (Sudoku.determined cells = 0%nat)) as [->|Hd]; [by left|]. right.
    apply truediv_normal; [lia|].
    assert (2 ^ 53 < 2 ^ 1022) by (apply Z.pow_lt_mono_r; lia). lia.
  - rewrite Hone, <- determined_all. lia.
  - rewrite Hzero. lia.
Qed.

Lemma progress_fraction_witness :
  cells_of grid_guess <> []
  /\ exists f,
       Sudoku.progress (cells_of grid_guess) = Returned f
       /\ (0 <= float_value f)%Q /\ (float_value f <= 1)%Q
       /\ (Qabs (float_value f
                 - inject_Z (Z.of_nat (Sudoku.determined (cells_of grid_guess)))
                   / inject_Z (Z.of_nat (length (cells_of grid_guess))))
           <= 1 # 9007199254740992)%Q
       /\ (Z.of_nat (length (cells_of grid_guess)) < 2 ^ 53 ->
           (f = Float.zero \/ 2 ^ 52 <= Float.mant f < 2 ^ 53)
           /\ ((float_value f == 1)%Q <-> Sudoku.is_solved (cells_of grid_guess) = true)
           /\ ((float_value f == 0)%Q
               <-> Sudoku.determined (cells_of grid_guess) = 0%nat)).
Proof.
  assert (H1 : cells_of grid_guess <> []) by (vm_compute; discriminate).
  split; [exact H1|]. exact (progress_fraction (cells_of grid_guess) H1).
Defined.

(** The progress of a grid of 81 cells with 30 givens is the float
    0.37037037037037035, [0x1.7b425ed097b42p-2]. *)
Lemma progress_30_of_81 :
  Float.truediv 30 81 = Float.mk 6671999447956290 (-54)
  /\ 6671999447956290 = 0x17b425ed097b42.
Proof. split; vm_compute; reflexivity. Qed.

(** ** Assignment *)

(** X11. The [value] setter accepts exactly the candidates of the cell.  After
    it accepted [v] the cell keeps its place, [value] reads [v], setting [v]
    again changes nothing, setting any other value raises the clash, and
    eliminating [v] raises the clash while eliminating any other value
    returns 0 and leaves the cell as it is. *)
Theorem set_value_contract (c : Cell.t) (v : Z) :
  ((v ∉ Cell.possibilities c) ->
   Cell.set_value c v = Raised (ClashException msg_illegal_value))
  /\ ((v ∈ Cell.possibilities c) ->
      exists c',
        Cell.set_value c v = Returned c'
        /\ Cell.possibilities c' = [v] /\ Cell.value c' = v
        /\ Cell.row c' = Cell.row c /\ Cell.col c' = Cell.col c
        /\ Cell.subgrid c' = Cell.subgrid c
        /\ Cell.set_value c' v = Returned c'
        /\ Cell.eliminate c' v = Raised (ClashException msg_only_value)
        /\ forall w, w <> v ->
             Cell.set_value c' w = Raised (ClashException msg_illegal_value)
             /\ Cell.eliminate c' w = Returned (c', 0)).
Proof.
  unfold Cell.set_value. split.
  - intros Hv. by destruct (decide (v ∈ Cell.possibilities c)).
  - intros Hv. destruct (decide (v ∈ Cell.possibilities c)); [|done].
    eexists. split; [reflexivity|]. simpl. split_and!; try done.
    + destruct (decide (v ∈ [v])) as [|Hn]; [done|]. exfalso. apply Hn. left.
    + unfold Cell.eliminate. simpl. by rewrite !bool_decide_eq_true_2.
    + intros w Hw. split.
      * destruct (decide (w ∈ [v])) as [Hin|]; [|done].
        apply list_elem_of_singleton in Hin. done.
      * apply cell_eliminate_absent. simpl. rewrite list_elem_of_singleton. done.
Qed.

(** ** Formatting a template *)

Lemma emit_emit l1 l2 r : Text.emit l1 (Text.emit l2 r) = Text.emit (l1 ++ l2) r.
Proof. destruct r; simpl; [by rewrite app_assoc | done]. Qed.

Lemma format_go_literal args num l rest :
  brace_free l ->
  Text.format_go args num None (l ++ rest)
  = Text.emit l (Text.format_go args num None rest).
Proof.
  induction 1 as [|a l [Ho Hc] _ IH]; simpl.
  { by destruct (Text.format_go args num None rest). }
  destruct (Ascii.eqb a "{") eqn:E1; [by apply Ascii.eqb_eq in E1|].
  destruct (Ascii.eqb a "}") eqn:E2; [by apply Ascii.eqb_eq in E2|].
  rewrite IH. by rewrite emit_emit.
Qed.

Definition next_index (num : Text.numbering) : nat :=
  match num with
  | Text.Auto k => k
  | _ => 0%nat
  end.

Lemma format_go_field args num rest :
  num <> Text.Manual ->
  Text.format_go args num None (token_text Field ++ rest)
  = match args !! next_index num with
    | Some a => Text.emit a (Text.format_go args (Text.Auto (S (next_index num))) None rest)
    | None => Text.FormatRaised Text.IndexError
    end.
Proof.
  intros Hn. simpl. destruct num as [|k|]; [| |done]; simpl;
    by destruct (args !! _).
Qed.

Lemma fields_app ts1 ts2 : fields (ts1 ++ ts2) = (fields ts1 + fields ts2)%nat.
Proof. induction ts1 as [|[l|] ts1 IH]; simpl; [done | done | by rewrite IH]. Qed.

Lemma flatten_app ts1 ts2 : flatten (ts1 ++ ts2) = flatten ts1 ++ flatten ts2.
Proof. unfold flatten. by rewrite fmap_app, concat_app. Qed.

Lemma fill_no_field ts args : fields ts = 0%nat -> fill ts args = fill ts [].
Proof.
  induction ts as [|[l|] ts IH]; intros Hf; simpl in *; [done | | done].
  by rewrite IH.
Qed.

(** The scan on a template made of brace-free text and [{}] fields: each
    field takes the next argument, and the scan fails when one is missing. *)
Lemma format_go_tokens args ts num :
  Forall literal_ok ts -> num <> Text.Manual ->
  Text.format_go args num None (flatten ts)
  = if decide (fields ts = 0 \/ next_index num + fields ts <= length args)%nat
    then Text.Formatted (fill ts (drop (next_index num) args))
    else Text.FormatRaised Text.IndexError.
Proof.
  intros Hok. revert num. induction Hok as [|t ts Ht _ IH]; intros num Hn.
  { cbn [flatten fmap list_fmap concat Text.format_go fields fill].
    rewrite decide_True by (by left). done. }
  destruct t as [l|].
  - change (flatten (Lit l :: ts)) with (l ++ flatten ts).
    rewrite format_go_literal by done. rewrite IH by done.
    change (fields (Lit l :: ts)) with (fields ts).
    by destruct (decide (fields ts = 0 \/ next_index num + fields ts <= length args)%nat).
  - change (flatten (Field :: ts)) with (token_text Field ++ flatten ts).
    rewrite format_go_field by done.
    change (fields (Field :: ts)) with (S (fields ts)).
    destruct (args !! next_index num) as [a|] eqn:Ha.
    + rewrite IH by done. change (next_index (Text.Auto (S (next_index num))))
        with (S (next_index num)).
      pose proof (lookup_lt_Some _ _ _ Ha) as Hlt.
      rewrite (drop_S _ _ _ Ha).
      destruct (decide (fields ts = 0 \/ (S (next_index num) + fields ts <= length args))%nat)
        as [Hc|Hc].
      * rewrite decide_True by lia. done.
      * rewrite decide_False by lia. done.
    + apply lookup_ge_None in Ha. rewrite decide_False by lia. done.
Qed.

Lemma format_tokens ts args :
  Forall literal_ok ts ->
  Text.format (flatten ts) args
  = if decide (fields ts <= length args)%nat
    then Text.Formatted (fill ts args)
    else Text.FormatRaised Text.IndexError.
Proof.
  intros Hok. unfold Text.format. rewrite format_go_tokens by done. simpl.
  destruct (decide (fields ts <= length args)%nat).
  - rewrite decide_True by lia. done.
  - rewrite decide_False by lia. done.
Qed.

(** ** The template [create_template] builds *)

Lemma join_tokens_flatten sep pieces :
  flatten (join_tokens sep pieces) = Text.join (flatten sep) (flatten <$> pieces).
Proof.
  induction pieces as [|p [|q pieces] IH]; [done | done |].
  change (join_tokens sep (p :: q :: pieces)) with (p ++ sep ++ join_tokens sep (q :: pieces)).
  rewrite !flatten_app, IH. done.
Qed.

Lemma join_tokens_fields sep p n :
  fields (join_tokens sep (replicate n p)) = (n * fields p + (n - 1) * fields sep)%nat.
Proof.
  induction n as [|n IH]; [done|]. destruct n as [|n]; [simpl; nia|].
  change (replicate (S (S n)) p) with (p :: p :: replicate n p).
  change (join_tokens sep (p :: p :: replicate n p))
    with (p ++ sep ++ join_tokens sep (replicate (S n) p)).
  rewrite !fields_app, IH. simpl. nia.
Qed.

Lemma join_tokens_ok sep pieces :
  Forall literal_ok sep -> Forall (Forall literal_ok) pieces ->
  Forall literal_ok (join_tokens sep pieces).
Proof.
  intros Hsep. induction 1 as [|p pieces Hp Hps IH]; [done|].
  destruct pieces as [|q pieces]; [done|].
  change (join_tokens sep (p :: q :: pieces)) with (p ++ sep ++ join_tokens sep (q :: pieces)).
  rewrite !Forall_app. done.
Qed.

Lemma join_replicate_length sep p n :
  length (Text.join sep (replicate n p)) = (n * length p + (n - 1) * length sep)%nat.
Proof.
  induction n as [|n IH]; [done|]. destruct n as [|n]; [simpl; nia|].
  change (replicate (S (S n)) p) with (p :: p :: replicate n p).
  change (Text.join sep (p :: p :: replicate n p))
    with (p ++ sep ++ Text.join sep (replicate (S n) p)).
  rewrite !length_app, IH. simpl. nia.
Qed.

Lemma count_app c l1 l2 : Text.count c (l1 ++ l2) = (Text.count c l1 + Text.count c l2)%nat.
Proof. unfold Text.count. by rewrite filter_app, length_app. Qed.

Lemma join_replicate_count c sep p n :
  Text.count c (Text.join sep (replicate n p))
  = (n * Text.count c p + (n - 1) * Text.count c sep)%nat.
Proof.
  induction n as [|n IH]; [done|]. destruct n as [|n]; [simpl; nia|].
  change (replicate (S (S n)) p) with (p :: p :: replicate n p).
  change (Text.join sep (p :: p :: replicate n p))
    with (p ++ sep ++ Text.join sep (replicate (S n) p)).
  rewrite !count_app, IH. simpl. nia.
Qed.

Lemma times_brace_free n : brace_free (Text.times BLOCK_HSEP n).
Proof.
  unfold Text.times. induction n as [|n IH]; simpl; [constructor|].
  constructor; [by split | done].
Qed.

Lemma template_tokens_ok o : Forall literal_ok (template_tokens o).
Proof.
  unfold template_tokens.
  assert (Hpad : brace_free PAD) by (repeat constructor; done).
  assert (Hbar : brace_free BLOCK_VSEP) by (repeat constructor; done).
  assert (Hnl : brace_free newline) by (repeat constructor; done).
  apply join_tokens_ok.
  { constructor; [|constructor]. unfold literal_ok, brace_free. rewrite !Forall_app.
    split_and!; [exact Hnl | apply times_brace_free | exact Hnl]. }
  apply Forall_replicate, join_tokens_ok; [constructor; [exact Hnl | constructor]|].
  apply Forall_replicate, join_tokens_ok; [constructor; [exact Hbar | constructor]|].
  apply Forall_replicate, join_tokens_ok; [constructor|].
  apply Forall_replicate.
  constructor; [exact Hpad|]. constructor; [exact I|]. constructor; [exact Hpad | constructor].
Qed.

Lemma template_tokens_fields o : fields (template_tokens o) = (o * o * o * o)%nat.
Proof.
  unfold template_tokens. rewrite !join_tokens_fields. simpl. nia.
Qed.

Lemma flatten_replicate n ts : flatten <$> replicate n ts = replicate n (flatten ts).
Proof. by rewrite fmap_replicate. Qed.

Lemma create_template_tokens (order : Z) :
  create_template order = Text.Formatted (flatten (template_tokens (Z.to_nat order))).
Proof.
  unfold create_template, template_tokens.
  set (o := Z.to_nat order).
  change (Text.format (list_ascii_of_string "{0}{{}}{0}") [PAD])
    with (Text.Formatted (flatten [Lit PAD; Field; Lit PAD])).
  cbv beta iota zeta.
  change (hline CELL_HSEP ?n) with (Text.Formatted newline).
  cbv beta iota zeta.
  set (row := Text.join BLOCK_VSEP
                (replicate o (Text.join CELL_VSEP (replicate o (flatten [Lit PAD; Field; Lit PAD]))))).
  assert (Hlen : (length row - Text.count "}" row = 3 * o * o + o - 1)%nat).
  { subst row. rewrite join_replicate_length, join_replicate_count.
    rewrite join_replicate_length, join_replicate_count.
    change (length (flatten [Lit PAD; Field; Lit PAD])) with 4%nat.
    change (Text.count "}" (flatten [Lit PAD; Field; Lit PAD])) with 1%nat.
    change (length CELL_VSEP) with 0%nat. change (Text.count "}" CELL_VSEP) with 0%nat.
    change (length BLOCK_VSEP) with 1%nat. change (Text.count "}" BLOCK_VSEP) with 0%nat.
    nia. }
  rewrite Hlen.
  assert (Hh : hline BLOCK_HSEP (3 * o * o + o - 1)
               = Text.Formatted (newline ++ Text.times BLOCK_HSEP (3 * o * o + o - 1)
                                          ++ newline)).
  { unfold hline, BLOCK_HSEP. simpl list_ascii_of_string.
    change [_; "{"%char; "}"%char; _] with (flatten [Lit newline; Field; Lit newline]).
    rewrite format_tokens by (repeat constructor; done).
    rewrite decide_True by (simpl; lia). cbn [fill]. by rewrite app_nil_r. }
  rewrite Hh. f_equal. subst row.
  repeat (rewrite join_tokens_flatten, flatten_replicate).
  assert (Hlit : forall l, flatten [Lit l] = l).
  { intros l. unfold flatten. simpl. by rewrite app_nil_r. }
  rewrite !Hlit. done.
Qed.

(** X12. For every order [create_template] raises nothing; the template it
    returns is the layout [template_tokens]: bands of rows of bar-separated
    groups of padded [{}] fields, the bands separated by a line of
    [3 * order² + order - 1] dashes; it has order⁴ fields (none for an order
    below 1), and formatting it returns the layout filled with the arguments
    in order when at least that many are given, and raises [IndexError] when
    fewer are. *)
Theorem create_template_layout (order : Z) :
  create_template order = Text.Formatted (flatten (template_tokens (Z.to_nat order)))
  /\ fields (template_tokens (Z.to_nat order))
     = (Z.to_nat order * Z.to_nat order * Z.to_nat order * Z.to_nat order)%nat
  /\ forall args,
       Text.format (flatten (template_tokens (Z.to_nat order))) args
       = if decide (Z.to_nat order * Z.to_nat order * Z.to_nat order * Z.to_nat order
                    <= length args)%nat
         then Text.Formatted (fill (template_tokens (Z.to_nat order)) args)
         else Text.FormatRaised Text.IndexError.
Proof.
  split_and!.
  - apply create_template_tokens.
  - apply template_tokens_fields.
  - intros args. rewrite format_tokens by apply template_tokens_ok.
    by rewrite template_tokens_fields.
Qed.

(** X13. [__str__] never fails on a state built by the constructor from an
    accepted array, nor on any state the solver derives from it: the template
    made for the order of the array has exactly one field per cell, and the
    text is the layout with the fields replaced, in row-major order, by the
    value of each cell, or by a blank where the cell has none. *)
Theorem str_of_grid (arr : list (list pyval)) (order : Z) (cells cells' : list Cell.t) :
  validate_array arr = Returned order ->
  Sudoku.init arr = Returned cells ->
  shrinks cells cells' ->
  exists template,
    create_template order = Text.Formatted template
    /\ fields (template_tokens (Z.to_nat order)) = length cells'
    /\ Sudoku_str template cells'
       = Text.Formatted (fill (template_tokens (Z.to_nat order)) (cell_text <$> cells')).
Proof.
  intros Ev Hinit Hsh. eexists. split; [apply create_template_tokens|].
  destruct (init_accepted arr order Ev) as (cells0 & Hinit0 & Hlen & _).
  rewrite Hinit in Hinit0. inversion Hinit0; subst cells0.
  pose proof (validate_array_order _ _ Ev) as Hsq.
  pose proof (validate_array_Returned arr order Ev) as (Hpos & _ & _).
  assert (Hf : fields (template_tokens (Z.to_nat order)) = length cells').
  { rewrite template_tokens_fields, (shrinks_length _ _ Hsh), Hlen.
    assert (length arr = (Z.to_nat order * Z.to_nat order)%nat) as -> by nia. lia. }
  split; [done|]. unfold Sudoku_str.
  rewrite format_tokens by apply template_tokens_ok.
  rewrite decide_True; [done|]. rewrite length_fmap. lia.
Qed.

Lemma str_of_grid_witness :
  (validate_array (grid_of grid_guess) = Returned 2
   /\ Sudoku.init (grid_of grid_guess) = Returned (cells_of grid_guess)
   /\ shrinks (cells_of grid_guess) (after_step 65 (cells_of grid_guess)))
  /\ exists template,
       create_template 2 = Text.Formatted template
       /\ fields (template_tokens (Z.to_nat 2)) = length (after_step 65 (cells_of grid_guess))
       /\ Sudoku_str template (after_step 65 (cells_of grid_guess))
          = Text.Formatted (fill (template_tokens (Z.to_nat 2))
                                 (cell_text <$> after_step 65 (cells_of grid_guess))).
Proof.
  assert (H1 : validate_array (grid_of grid_guess) = Returned 2) by (vm_compute; reflexivity).
  assert (H2 : Sudoku.init (grid_of grid_guess) = Returned (cells_of grid_guess))
    by (vm_compute; reflexivity).
  assert (H3 : shrinks (cells_of grid_guess) (after_step 65 (cells_of grid_guess))).
  { apply (easy_step_shrinks 65 _ _ (Returned (Some (0%nat, [1; 4])))).
    vm_compute; reflexivity. }
  split; [exact (conj H1 (conj H2 H3))|].
  exact (str_of_grid (grid_of grid_guess) 2 (cells_of grid_guess)
           (after_step 65 (cells_of grid_guess)) H1 H2 H3).
Defined.

(** ** Loading a grid from text *)

Lemma split_nonempty sep s : split sep s <> [].
Proof.
  destruct s as [|a s]; simpl; [done|].
  destruct (Ascii.eqb a sep); [done|]. by destruct (split sep s).
Qed.

Lemma collect_raised {A} (l : list (result A)) e :
  collect l = Raised e -> Raised e ∈ l.
Proof.
  induction l as [|[a|e'] l IH]; simpl; [done | | intros [= ->]; left].
  destruct (collect l) as [al|e'']; [done|]. intros [= ->]. right. by apply IH.
Qed.

Lemma collect_raises {A} (l : list (result A)) e0 :
  Raised e0 ∈ l -> (forall e, Raised e ∈ l -> e = e0) -> collect l = Raised e0.
Proof.
  intros Hin Hall. destruct (collect l) as [al|e] eqn:Hc.
  - apply collect_Returned in Hc. rewrite Hc in Hin.
    by apply list_elem_of_fmap in Hin as (a & ? & _).
  - apply collect_raised in Hc. by rewrite (Hall e Hc).
Qed.

Lemma item_value_raised item e : item_value item = Raised e -> e = ValueError.
Proof.
  unfold item_value. destruct item; [done|].
  by destruct (PyInt.signed _); [|intros [= <-]].
Qed.

Lemma row_values_raised arr_str row e :
  collect (item_value <$> split_row arr_str row) = Raised e -> e = ValueError.
Proof.
  intros H%collect_raised. apply list_elem_of_fmap in H as (item & Hi & _).
  symmetry in Hi. by apply item_value_raised in Hi.
Qed.

Lemma load_str_Returned arr_str arr order :
  load_str arr_str = Returned (arr, order) ->
  collect ((fun row => collect (item_value <$> split_row arr_str row))
             <$> split NEWLINE arr_str) = Returned arr
  /\ validate_array (map (map PyInt) arr) = Returned order.
Proof.
  unfold load_str. destruct (collect _) as [array|]; [|done].
  destruct (validate_array _) as [o|] eqn:Ev; [|done]. by intros [= <- <-].
Qed.

Lemma load_str_returns (arr_str : list ascii) arr order :
  load_str arr_str = Returned (arr, order) ->
  arr <> [] /\ 1 <= order
  /\ validate_array (map (map PyInt) arr) = Returned order
  /\ exists cells, Sudoku.init (map (map PyInt) arr) = Returned cells
                   /\ cells <> [] /\ well_formed cells.
Proof.
  intros Hl. apply load_str_Returned in Hl as [Hc Ev].
  assert (Hne : arr <> []).
  { apply collect_Returned in Hc. intros ->.
    apply fmap_nil_inv in Hc. by apply split_nonempty in Hc. }
  pose proof (validate_array_order _ _ Ev) as Hsq.
  pose proof (validate_array_Returned _ order Ev) as (Hpos & _ & _).
  assert (Hlen : (0 < length (map (map PyInt) arr))%nat).
  { rewrite length_map. destruct arr; [done | simpl; lia]. }
  split_and!; [done | nia | done |].
  destruct (init_accepted _ order Ev) as (cells & Hinit & Hcl & Hwf).
  exists cells. split_and!; [done | | done].
  intros ->. simpl in Hcl. nia.
Qed.

Lemma load_str_raises (arr_str : list ascii) e :
  load_str arr_str = Raised e -> e = ValueError \/ exists msg, e = AssertionError msg.
Proof.
  intros Hl. unfold load_str in Hl. destruct (collect _) as [array|e'] eqn:Hc.
  - destruct (validate_array _) as [o|e''] eqn:Ev; [done|]. inversion Hl; subst e''.
    right. by apply validate_array_raised in Ev.
  - inversion Hl; subst e'. left.
    apply collect_raised in Hc. apply list_elem_of_fmap in Hc as (row & Hr & _).
    symmetry in Hr. by apply row_values_raised in Hr.
Qed.

(** X14. [load_str] returns only arrays that [validate_array] accepts, with
    the order it computed, and never an empty one: the array has at least one
    row and the order is at least 1, so the constructor builds from it a
    well-formed state with at least one cell.  When it does not return it
    raises [ValueError] (a field that [int] rejects) or [AssertionError] (the
    validation), nothing else. *)
Theorem load_str_outcome (arr_str : list ascii) :
  match load_str arr_str with
  | Returned (arr, order) =>
      arr <> [] /\ 1 <= order
      /\ validate_array (map (map PyInt) arr) = Returned order
      /\ exists cells, Sudoku.init (map (map PyInt) arr) = Returned cells
                       /\ cells <> [] /\ well_formed cells
  | Raised e => e = ValueError \/ exists msg, e = AssertionError msg
  end.
Proof.
  destruct (load_str arr_str) as [[arr order]|e] eqn:Hl.
  - by apply (load_str_returns arr_str).
  - by apply (load_str_raises arr_str).
Qed.

(** X15. [Sudoku.from_file], the file given by its contents, either raises
    [ValueError] or [AssertionError], or builds a well-formed state with at
    least one cell; on that state [progress] is defined. *)
Theorem from_file_outcome (contents : list ascii) :
  match Sudoku_from_file contents with
  | Returned cells =>
      cells <> [] /\ well_formed cells /\ exists q, Sudoku.progress cells = Returned q
  | Raised e => e = ValueError \/ exists msg, e = AssertionError msg
  end.
Proof.
  unfold Sudoku_from_file, load_file.
  destruct (load_str (PyInt.strip contents)) as [[arr order]|e] eqn:Hl.
  - apply load_str_returns in Hl as (_ & _ & _ & cells & -> & Hne & Hwf).
    split_and!; [done | done |]. destruct cells; [done|]. by eexists.
  - by apply (load_str_raises (PyInt.strip contents)).
Qed.

Lemma lstrip_spaces l : Forall (fun a => PyInt.is_space a = true) l -> PyInt.lstrip l = [].
Proof. induction 1 as [|a l Ha _ IH]; simpl; [done|]. by rewrite Ha. Qed.

(** X16. An empty field stands for 0, but a field that is not empty and
    holds only white space is refused: whatever the separator in use, if some
    row has such a field, [load_str] raises [ValueError] (in the format
    without separators every blank character is such a field). *)
Theorem load_str_blank_field (arr_str row item : list ascii) :
  row ∈ split NEWLINE arr_str ->
  item ∈ split_row arr_str row ->
  item <> [] -> Forall (fun a => PyInt.is_space a = true) item ->
  item_value [] = Returned 0
  /\ item_value item = Raised ValueError
  /\ load_str arr_str = Raised ValueError.
Proof.
  intros Hrow Hitem Hne Hsp.
  assert (Hv : item_value item = Raised ValueError).
  { unfold item_value. destruct item as [|a item]; [done|].
    unfold PyInt.strip at 2. rewrite (lstrip_spaces _ Hsp). by vm_compute. }
  split_and!; [done | done |].
  unfold load_str. rewrite (collect_raises _ ValueError); [done | |].
  - apply list_elem_of_fmap. exists row. split; [|done]. symmetry.
    apply collect_raises.
    + apply list_elem_of_fmap. by exists item.
    + intros e He. apply list_elem_of_fmap in He as (it & Hi & _).
      symmetry in Hi. by apply item_value_raised in Hi.
  - intros e He. apply list_elem_of_fmap in He as (r & Hr & _).
    symmetry in Hr. by apply row_values_raised in Hr.
Qed.

Lemma load_str_blank_field_witness :
  ([text_blank_field] = split NEWLINE text_blank_field
   /\ [" "%char] ∈ split_row text_blank_field text_blank_field
   /\ [" "%char] <> [] /\ Forall (fun a => PyInt.is_space a = true) [" "%char])
  /\ item_value [] = Returned 0
  /\ item_value [" "%char] = Raised ValueError
  /\ load_str text_blank_field = Raised ValueError.
Proof.
  assert (H0 : [text_blank_field] = split NEWLINE text_blank_field) by reflexivity.
  assert (H1 : text_blank_field ∈ split NEWLINE text_blank_field).
  { rewrite <- H0. left. }
  assert (H2 : [" "%char] ∈ split_row text_blank_field text_blank_field).
  { vm_compute. right. left. }
  assert (H3 : [" "%char] <> []) by discriminate.
  assert (H4 : Forall (fun a => PyInt.is_space a = true) [" "%char]).
  { constructor; [reflexivity | constructor]. }
  split; [exact (conj H0 (conj H2 (conj H3 H4)))|].
  exact (load_str_blank_field text_blank_field text_blank_field [" "%char] H1 H2 H3 H4).
Defined.

(** ** Numbers written in decimal are read back *)

Lemma digit_code a d :
  PyInt.digit_of a = Some d ->
  (48 <= nat_of_ascii a <= 57)%nat /\ d = Z.of_nat (nat_of_ascii a - 48).
Proof.
  unfold PyInt.digit_of.
  destruct (_ && _) eqn:E; [|done]. intros [= <-].
  apply andb_true_iff in E as [H1 H2]. apply Nat.leb_le in H1, H2. done.
Qed.

Lemma is_digit_code a : is_digit a -> (48 <= nat_of_ascii a <= 57)%nat.
Proof. intros [d Hd]. by apply digit_code in Hd as [? _]. Qed.

Lemma is_digit_not_space a : is_digit a -> PyInt.is_space a = false.
Proof.
  intros H%is_digit_code. unfold PyInt.is_space.
  apply orb_false_iff. split; apply andb_false_iff.
  - right. apply Nat.leb_gt. lia.
  - right. apply Nat.leb_gt. lia.
Qed.

Lemma is_digit_neq a c :
  is_digit a -> (nat_of_ascii c < 48 \/ 57 < nat_of_ascii c)%nat -> Ascii.eqb a c = false.
Proof.
  intros H%is_digit_code Hc. apply not_true_iff_false. intros ->%Ascii.eqb_eq. lia.
Qed.

Lemma digits_uint d n :
  PyInt.digits true (Z.of_nat n) (list_ascii_of_string (NilEmpty.string_of_uint d))
  = Some (Z.of_nat (Nat.of_uint_acc d n)).
Proof.
  revert n. induction d as [|d IH|d IH|d IH|d IH|d IH|d IH|d IH|d IH|d IH|d IH];
    intros n; [done|..];
    cbn [NilEmpty.string_of_uint list_ascii_of_string PyInt.digits Nat.of_uint_acc];
    change (PyInt.digit_of ?a) with (Some (Z.of_nat (nat_of_ascii a - 48)));
    cbv beta iota; rewrite Nat.tail_mul_spec, <- IH; f_equal;
    match goal with
    | |- context [(nat_of_ascii ?a - 48)%nat] =>
        let v := eval vm_compute in (nat_of_ascii a - 48)%nat in
        change (nat_of_ascii a - 48)%nat with v
    end; lia.
Qed.

Lemma digits_of_nat n : PyInt.digits false 0 (Text.of_nat n) = Some (Z.of_nat n).
Proof.
  unfold Text.of_nat. rewrite <- (Unsigned.of_to n) at 2. unfold Nat.of_uint.
  rewrite <- (digits_uint (Nat.to_uint n) 0).
  destruct (Nat.to_uint n); done.
Qed.

Lemma of_nat_digit_chars n : Text.of_nat n <> [] /\ Forall is_digit (Text.of_nat n).
Proof.
  unfold Text.of_nat. generalize (Nat.to_uint n). intros d.
  assert (Hall : forall d, Forall is_digit (list_ascii_of_string (NilEmpty.string_of_uint d))).
  { clear d. induction d; simpl; constructor; try done; by eexists. }
  destruct d; simpl; (split; [done|]); try (constructor; [by eexists | apply Hall]).
  constructor; [by eexists | constructor].
Qed.

Lemma lstrip_head a l : PyInt.is_space a = false -> PyInt.lstrip (a :: l) = a :: l.
Proof. intros H. simpl. by rewrite H. Qed.

(** Text that neither starts nor ends with white space is its own strip. *)
Lemma strip_id l a b l1 l2 :
  l = a :: l1 -> l = l2 ++ [b] ->
  PyInt.is_space a = false -> PyInt.is_space b = false -> PyInt.strip l = l.
Proof.
  intros Ha Hb Hsa Hsb. unfold PyInt.strip.
  rewrite Ha, (lstrip_head _ _ Hsa), <- Ha, Hb, rev_unit, (lstrip_head _ _ Hsb).
  by rewrite <- (rev_unit l2 b), rev_involutive.
Qed.

Lemma last_decompose {A} (l : list A) : l <> [] -> exists l2 b, l = l2 ++ [b] /\ b ∈ l.
Proof.
  intros Hne. destruct (exists_last Hne) as (l2 & b & ->). exists l2, b.
  split; [done|]. apply elem_of_app. right. left.
Qed.

Lemma strip_digits l : l <> [] -> Forall is_digit l -> PyInt.strip l = l.
Proof.
  intros Hne Hd. destruct l as [|a l1] eqn:El; [done|]. rewrite <- El in *.
  destruct (last_decompose l Hne) as (l2 & b & Hb & Hin).
  rewrite Forall_forall in Hd.
  apply (strip_id l a b l1 l2); [done | done | |].
  - apply is_digit_not_space, Hd. rewrite El. left.
  - by apply is_digit_not_space, Hd.
Qed.

Lemma signed_digits l : l <> [] -> Forall is_digit l -> PyInt.signed l = PyInt.digits false 0 l.
Proof.
  intros Hne Hd. destruct l as [|a l]; [done|]. simpl.
  apply Forall_cons in Hd as [Ha%is_digit_code _].
  rewrite (proj2 (Nat.eqb_neq _ 45)) by lia. rewrite (proj2 (Nat.eqb_neq _ 43)) by lia. done.
Qed.

(** A number that is not negative, written by [str], is read back by the
    field expression of [load_str]. *)
Lemma item_value_of_int z : 0 <= z -> item_value (Text.of_int z) = Returned z.
Proof.
  intros Hz. unfold Text.of_int. rewrite (proj2 (Z.ltb_ge z 0)) by done.
  destruct (of_nat_digit_chars (Z.to_nat z)) as [Hne Hd].
  assert (Hi : item_value (Text.of_nat (Z.to_nat z))
               = match PyInt.signed (PyInt.strip (PyInt.strip (Text.of_nat (Z.to_nat z)))) with
                 | Some z => Returned z
                 | None => Raised ValueError
                 end) by (by destruct (Text.of_nat (Z.to_nat z))).
  rewrite Hi. rewrite (strip_digits _ Hne Hd), (strip_digits _ Hne Hd).
  rewrite (signed_digits _ Hne Hd), digits_of_nat. f_equal. lia.
Qed.

(** ** Tables written as text are loaded back *)

Lemma split_no_sep sep p :
  Forall (fun a => Ascii.eqb a sep = false) p -> split sep p = [p].
Proof.
  induction 1 as [|a p Ha _ IH]; [done|]. simpl. by rewrite Ha, IH.
Qed.

Lemma split_app sep p s :
  Forall (fun a => Ascii.eqb a sep = false) p ->
  split sep (p ++ sep :: s) = p :: split sep s.
Proof.
  induction 1 as [|a p Ha _ IH]; simpl.
  - by rewrite Ascii.eqb_refl.
  - by rewrite Ha, IH.
Qed.

(** [split] undoes [join] when no piece holds the separator. *)
Lemma split_join sep pieces :
  pieces <> [] ->
  Forall (Forall (fun a => Ascii.eqb a sep = false)) pieces ->
  split sep (Text.join [sep] pieces) = pieces.
Proof.
  intros Hne Hall. induction Hall as [|p ps Hp Hps IH]; [done|].
  destruct ps as [|q ps].
  - simpl. by apply split_no_sep.
  - change (Text.join [sep] (p :: q :: ps)) with (p ++ sep :: Text.join [sep] (q :: ps)).
    rewrite split_app by done. f_equal. by apply IH.
Qed.

Lemma join_Forall (P : ascii -> Prop) sep pieces :
  Forall P sep -> Forall (Forall P) pieces -> Forall P (Text.join sep pieces).
Proof.
  intros Hsep Hall. induction Hall as [|p ps Hp Hps IH]; [constructor|].
  destruct ps as [|q ps]; [done|].
  change (Text.join sep (p :: q :: ps)) with (p ++ sep ++ Text.join sep (q :: ps)).
  rewrite !Forall_app. done.
Qed.

Lemma join_head sep a p ps : exists l, Text.join sep ((a :: p) :: ps) = a :: l.
Proof. destruct ps; simpl; eauto. Qed.

Lemma join_last sep ps p b : exists l, Text.join sep (ps ++ [p ++ [b]]) = l ++ [b].
Proof.
  induction ps as [|q ps [l Hl]]; [by exists p|].
  destruct ps as [|q' ps].
  - exists (q ++ sep ++ p). simpl. by rewrite <- !app_assoc.
  - exists (q ++ sep ++ l).
    change (q ++ sep ++ Text.join sep ((q' :: ps) ++ [p ++ [b]]) = (q ++ sep ++ l) ++ [b]).
    rewrite Hl. by rewrite <- !app_assoc.
Qed.

Lemma join_elem sep pieces p a : p ∈ pieces -> a ∈ p -> a ∈ Text.join sep pieces.
Proof.
  intros Hp Ha. induction pieces as [|q ps IH]; [by apply elem_of_nil in Hp|].
  destruct ps as [|q' ps].
  - apply list_elem_of_singleton in Hp as ->. done.
  - change (a ∈ q ++ sep ++ Text.join sep (q' :: ps)).
    rewrite !elem_of_app. apply elem_of_cons in Hp as [->|Hp]; [by left|].
    right. right. by apply IH.
Qed.

Lemma join_sep_elem sep p q ps a : a ∈ sep -> a ∈ Text.join sep (p :: q :: ps).
Proof.
  intros Ha. change (a ∈ p ++ sep ++ Text.join sep (q :: ps)).
  rewrite !elem_of_app. right. by left.
Qed.

Lemma contains_true c s : c ∈ s -> contains c s = true.
Proof.
  intros H. apply existsb_exists. exists c.
  split; [by apply list_elem_of_In | apply Ascii.eqb_refl].
Qed.

Lemma contains_false c s : Forall (fun a => Ascii.eqb a c = false) s -> contains c s = false.
Proof.
  induction 1 as [|a s Ha _ IH]; [done|]. unfold contains in *. simpl.
  rewrite IH, orb_false_r. apply not_true_iff_false. intros E%Ascii.eqb_eq.
  subst a. by rewrite Ascii.eqb_refl in Ha.
Qed.

Lemma of_int_digit_chars z :
  0 <= z -> Text.of_int z <> [] /\ Forall is_digit (Text.of_int z).
Proof.
  intros Hz. unfold Text.of_int. rewrite (proj2 (Z.ltb_ge z 0)) by done.
  apply of_nat_digit_chars.
Qed.

Lemma collect_fmap_Returned {A} (l : list A) : collect (Returned <$> l) = Returned l.
Proof.
  induction l as [|a l IH]; [done|]. rewrite fmap_cons. cbn [collect]. by rewrite IH.
Qed.

Lemma row_values row :
  Forall (fun z => 0 <= z) row ->
  collect (item_value <$> (Text.of_int <$> row)) = Returned row.
Proof.
  intros Hrow. rewrite <- (collect_fmap_Returned row). f_equal.
  rewrite <- list_fmap_compose. apply Forall_fmap_ext_1.
  eapply Forall_impl; [done|]. intros z Hz. by apply item_value_of_int.
Qed.

Lemma validated_table (arr : list (list Z)) order :
  validate_array (map (map PyInt) arr) = Returned order ->
  order * order = Z.of_nat (length arr)
  /\ Forall (fun row => length row = length arr
                        /\ Forall (fun z => 0 <= z <= order * order) row) arr.
Proof.
  intros (_ & Hsq & Hrows)%validate_array_Returned. rewrite length_map in Hsq, Hrows.
  split; [done|]. rewrite Forall_forall in Hrows.
  apply Forall_forall. intros row Hrow.
  destruct (Hrows (map PyInt row)) as [Hlen Hvals].
  { by apply list_elem_of_In, in_map, list_elem_of_In. }
  rewrite length_map in Hlen. split; [done|].
  rewrite Forall_forall in Hvals. apply Forall_forall. intros z Hz.
  destruct (Hvals (PyInt z)) as (z' & [= <-] & Hz'); [|done].
  by apply list_elem_of_In, in_map, list_elem_of_In.
Qed.

Lemma join_cons2 sep p q ps :
  Text.join sep (p :: q :: ps) = p ++ sep ++ Text.join sep (q :: ps).
Proof. done. Qed.

Lemma digit_not_special a c :
  is_digit a -> c = TAB \/ c = COMMA \/ c = NEWLINE -> Ascii.eqb a c = false.
Proof.
  intros Ha Hc. apply is_digit_neq; [done|]. left.
  destruct Hc as [-> | [-> | ->]]; apply Nat.ltb_lt; reflexivity.
Qed.

Lemma nonneg_rows (arr : list (list Z)) (n : nat) (k : Z) :
  Forall (fun row => length row = n /\ Forall (fun z => 0 <= z <= k) row) arr ->
  Forall (Forall (fun z => 0 <= z)) arr.
Proof.
  intros H. eapply Forall_impl; [exact H|]. intros row [_ Hr].
  eapply Forall_impl; [exact Hr|]. intros z Hz. simpl in Hz. lia.
Qed.

Lemma row_text_chars (P : ascii -> Prop) sep row :
  (forall a, is_digit a -> P a) -> Forall P sep -> Forall (fun z => 0 <= z) row ->
  Forall P (Text.join sep (Text.of_int <$> row)).
Proof.
  intros Hd Hsep Hrow. apply join_Forall; [done|]. rewrite Forall_fmap.
  eapply Forall_impl; [exact Hrow|]. intros z Hz. simpl.
  destruct (of_int_digit_chars z Hz) as [_ Hall]. eapply Forall_impl; [exact Hall|]. done.
Qed.

Lemma table_text_chars (P : ascii -> Prop) sep arr :
  (forall a, is_digit a -> P a) -> Forall P sep -> P NEWLINE ->
  Forall (Forall (fun z => 0 <= z)) arr ->
  Forall P (table_text sep arr).
Proof.
  intros Hd Hsep Hnl Harr. unfold table_text. apply join_Forall; [by constructor|].
  rewrite Forall_fmap. eapply Forall_impl; [exact Harr|]. intros row Hrow. simpl.
  by apply row_text_chars.
Qed.

(** The lines of a table are the texts of its rows. *)
Lemma table_text_lines sep arr :
  arr <> [] -> Forall (fun a => Ascii.eqb a NEWLINE = false) sep ->
  Forall (Forall (fun z => 0 <= z)) arr ->
  split NEWLINE (table_text sep arr)
  = (fun row => Text.join sep (Text.of_int <$> row)) <$> arr.
Proof.
  intros Hne Hsep Harr. unfold table_text. apply split_join.
  - by destruct arr.
  - rewrite Forall_fmap. eapply Forall_impl; [exact Harr|]. intros row Hrow. simpl.
    apply row_text_chars; [|done|done]. intros a Ha. apply digit_not_special; auto.
Qed.

(** *** White space around a text *)

Lemma lstrip_app_spaces ws l :
  Forall (fun a => PyInt.is_space a = true) ws -> PyInt.lstrip (ws ++ l) = PyInt.lstrip l.
Proof. induction 1 as [|a ws Ha _ IH]; simpl; [done|]. by rewrite Ha. Qed.

Lemma strip_digit_ended l ws1 ws2 :
  digit_ended l ->
  Forall (fun a => PyInt.is_space a = true) ws1 ->
  Forall (fun a => PyInt.is_space a = true) ws2 ->
  PyInt.strip (ws1 ++ l ++ ws2) = l.
Proof.
  intros (a & l1 & l2 & b & Ha & Hb & Hda & Hdb) H1 H2. unfold PyInt.strip.
  rewrite (lstrip_app_spaces _ _ H1).
  rewrite Ha at 1. rewrite <- app_comm_cons, (lstrip_head _ _ (is_digit_not_space _ Hda)).
  rewrite app_comm_cons, <- Ha, rev_app_distr.
  rewrite lstrip_app_spaces by (by apply Forall_rev).
  rewrite Hb, rev_unit, (lstrip_head _ _ (is_digit_not_space _ Hdb)).
  by rewrite <- (rev_unit l2 b), rev_involutive.
Qed.

Lemma of_int_digit_ended z : 0 <= z -> digit_ended (Text.of_int z).
Proof.
  intros Hz. destruct (of_int_digit_chars z Hz) as [Hn Hd].
  destruct (last_decompose _ Hn) as (l2 & b & Hb & Hin).
  rewrite Forall_forall in Hd.
  destruct (Text.of_int z) as [|a l1] eqn:E; [done|].
  exists a, l1, l2, b. split_and!; [done | done | | by apply Hd].
  apply Hd. left.
Qed.

Lemma join_digit_ended sep pieces :
  pieces <> [] -> Forall digit_ended pieces -> digit_ended (Text.join sep pieces).
Proof.
  intros Hne Hall.
  assert (Hhead : exists a l1, Text.join sep pieces = a :: l1 /\ is_digit a).
  { destruct pieces as [|p ps]; [done|].
    apply Forall_cons in Hall as [(a & l1 & _ & _ & -> & _ & Ha & _) _].
    destruct (join_head sep a l1 ps) as [l Hl]. by exists a, l. }
  assert (Hlast : exists l2 b, Text.join sep pieces = l2 ++ [b] /\ is_digit b).
  { destruct (last_decompose pieces Hne) as (ps & p & -> & _).
    apply Forall_app in Hall as [_ Hp].
    apply Forall_cons in Hp as [(_ & _ & l2 & b & _ & -> & _ & Hb) _].
    destruct (join_last sep ps l2 b) as [l Hl]. by exists l, b. }
  destruct Hhead as (a & l1 & Ha & Hda), Hlast as (l2 & b & Hb & Hdb).
  by exists a, l1, l2, b.
Qed.

Lemma row_text_digit_ended sep row :
  row <> [] -> Forall (fun z => 0 <= z) row ->
  digit_ended (Text.join sep (Text.of_int <$> row)).
Proof.
  intros Hne Hrow. apply join_digit_ended; [by destruct row|].
  rewrite Forall_fmap. eapply Forall_impl; [exact Hrow|]. intros z Hz.
  by apply of_int_digit_ended.
Qed.

Lemma table_text_digit_ended sep arr :
  arr <> [] -> Forall (fun row => row <> [] /\ Forall (fun z => 0 <= z) row) arr ->
  digit_ended (table_text sep arr).
Proof.
  intros Hne Harr. apply join_digit_ended; [by destruct arr|].
  rewrite Forall_fmap. eapply Forall_impl; [exact Harr|]. intros row [Hr Hz].
  by apply row_text_digit_ended.
Qed.

(** *** The fields of a row *)

Lemma row_text_fields sep row :
  sep = TAB \/ sep = COMMA -> row <> [] -> Forall (fun z => 0 <= z) row ->
  split sep (PyInt.strip (Text.join [sep] (Text.of_int <$> row))) = Text.of_int <$> row.
Proof.
  intros Hsep Hne Hrow.
  rewrite <- (app_nil_r (Text.join _ _)), <- (app_nil_l (Text.join _ _ ++ [])).
  rewrite strip_digit_ended; [| by apply row_text_digit_ended | constructor..].
  apply split_join; [by destruct row|].
  rewrite Forall_fmap. eapply Forall_impl; [exact Hrow|]. intros z Hz. simpl.
  destruct (of_int_digit_chars z Hz) as [_ Hall]. eapply Forall_impl; [exact Hall|].
  intros a Ha. apply digit_not_special; [done|]. destruct Hsep; auto.
Qed.

Lemma of_int_one_digit z : 0 <= z <= 9 -> exists c, Text.of_int z = [c].
Proof.
  intros Hz. rewrite <- (Z2Nat.id z) by lia.
  assert (Hn : (Z.to_nat z <= 9)%nat) by lia. revert Hn. generalize (Z.to_nat z).
  intros n Hn. do 10 (destruct n as [|n]; [by eexists|]). lia.
Qed.

Lemma singletons_join (ps : list (list ascii)) :
  Forall (fun p => exists c, p = [c]) ps -> (fun a => [a]) <$> Text.join [] ps = ps.
Proof.
  induction 1 as [|p ps [c ->] _ IH]; [done|].
  destruct ps as [|q ps]; [done|].
  rewrite join_cons2, !fmap_app, IH. done.
Qed.

Lemma row_text_digits row :
  Forall (fun z => 0 <= z <= 9) row ->
  (fun a => [a]) <$> Text.join [] (Text.of_int <$> row) = Text.of_int <$> row.
Proof.
  intros Hrow. apply singletons_join. rewrite Forall_fmap.
  eapply Forall_impl; [exact Hrow|]. intros z Hz. by apply of_int_one_digit.
Qed.

(** *** Loading *)

Lemma load_rows (f : list ascii -> list (list ascii)) sep (arr : list (list Z)) :
  (forall row, row ∈ arr -> f (Text.join sep (Text.of_int <$> row)) = Text.of_int <$> row) ->
  Forall (Forall (fun z => 0 <= z)) arr ->
  collect ((fun t => collect (item_value <$> f t))
             <$> ((fun row => Text.join sep (Text.of_int <$> row)) <$> arr))
  = Returned arr.
Proof.
  intros Hf Harr. rewrite <- list_fmap_compose, <- (collect_fmap_Returned arr). f_equal.
  apply Forall_fmap_ext_1, Forall_forall. intros row Hrow. simpl.
  rewrite (Hf row Hrow). apply row_values.
  rewrite Forall_forall in Harr. by apply Harr.
Qed.

Lemma load_str_with_sep sep (arr : list (list Z)) order :
  sep = TAB \/ sep = COMMA ->
  validate_array (map (map PyInt) arr) = Returned order ->
  (2 <= length arr)%nat ->
  load_str (table_text [sep] arr) = Returned (arr, order).
Proof.
  intros Hsep Ev Hn. destruct (validated_table arr order Ev) as [Hsq Hrows].
  assert (Hne : arr <> []) by (intros ->; simpl in Hn; lia).
  pose proof (nonneg_rows _ _ _ Hrows) as Hpos.
  assert (Hin : sep ∈ table_text [sep] arr).
  { destruct arr as [|r0 arr']; [done|].
    apply Forall_cons in Hrows as [[Hl0 _] _].
    destruct r0 as [|z1 [|z2 r0]]; [simpl in *; lia..|].
    unfold table_text. eapply join_elem; [rewrite fmap_cons; left|].
    cbv beta. rewrite !fmap_cons. apply join_sep_elem. left. }
  assert (Hsr : forall t, split_row (table_text [sep] arr) t = split sep (PyInt.strip t)).
  { intros t. unfold split_row. destruct Hsep as [->| ->].
    - by rewrite (contains_true TAB _ Hin).
    - rewrite contains_false, (contains_true COMMA _ Hin); [done|].
      apply table_text_chars; [|by repeat constructor|done|done].
      intros a Ha. apply digit_not_special; auto. }
  unfold load_str. rewrite table_text_lines; [|done| |done].
  - rewrite (load_rows (split_row (table_text [sep] arr)) [sep] arr); [by rewrite Ev| |done].
    intros row Hrow. rewrite Hsr. apply row_text_fields; [done| |].
    + rewrite Forall_forall in Hrows. destruct (Hrows row Hrow) as [Hl _].
      intros ->. simpl in Hl. lia.
    + rewrite Forall_forall in Hpos. by apply Hpos.
  - destruct Hsep as [->| ->]; by repeat constructor.
Qed.

Lemma load_str_digits_only (arr : list (list Z)) order :
  validate_array (map (map PyInt) arr) = Returned order ->
  arr <> [] -> order <= 3 ->
  load_str (table_text [] arr) = Returned (arr, order).
Proof.
  intros Ev Hne Ho. destruct (validated_table arr order Ev) as [Hsq Hrows].
  pose proof (validate_array_Returned _ _ Ev) as (Hop & _ & _).
  pose proof (nonneg_rows _ _ _ Hrows) as Hpos.
  assert (Hsr : forall t, split_row (table_text [] arr) t = (fun a => [a]) <$> t).
  { intros t. unfold split_row. rewrite !contains_false; [done|..];
      (apply table_text_chars; [|by repeat constructor|done|done]);
      intros a Ha; apply digit_not_special; auto. }
  unfold load_str. rewrite table_text_lines; [|done|by constructor|done].
  rewrite (load_rows (split_row (table_text [] arr)) [] arr); [by rewrite Ev| |done].
  intros row Hrow. rewrite Hsr. apply row_text_digits.
  rewrite Forall_forall in Hrows. destruct (Hrows row Hrow) as [_ Hr].
  eapply Forall_impl; [exact Hr|]. intros z Hz. simpl in Hz. nia.
Qed.

(** X17. A table that [validate_array] accepts, written one row per line
    with the numbers in decimal, is loaded back unchanged with its order:
    by [load_str] when the numbers of a row are separated by tabs or by commas,
    or not separated at all when the order is at most 3 (every number is one
    digit); and, whatever white space surrounds the text in the file, by
    [load_file], so that [Sudoku.from_file] builds what the constructor builds
    from the table. *)
Theorem load_str_round_trip (sep ws1 ws2 : list ascii) (arr : list (list Z)) (order : Z) :
  validate_array (map (map PyInt) arr) = Returned order ->
  arr <> [] ->
  sep = [TAB] \/ sep = [COMMA] \/ (sep = [] /\ order <= 3) ->
  Forall (fun a => PyInt.is_space a = true) ws1 ->
  Forall (fun a => PyInt.is_space a = true) ws2 ->
  load_str (table_text sep arr) = Returned (arr, order)
  /\ load_file (ws1 ++ table_text sep arr ++ ws2) = Returned (arr, order)
  /\ Sudoku_from_file (ws1 ++ table_text sep arr ++ ws2) = Sudoku.init (map (map PyInt) arr).
Proof.
  intros Ev Hne Hsep H1 H2.
  destruct (validated_table arr order Ev) as [Hsq Hrows].
  pose proof (validate_array_Returned _ _ Ev) as (Hop & _ & _).
  assert (Hload : load_str (table_text sep arr) = Returned (arr, order)).
  { assert (Hsep' : (exists c, sep = [c] /\ (c = TAB \/ c = COMMA)) \/ (sep = [] /\ order <= 3)).
    { destruct Hsep as [->|[->|?]]; [left; exists TAB | left; exists COMMA | right]; auto. }
    destruct Hsep' as [(c & -> & Hc)|[-> Ho]]; [|by apply load_str_digits_only].
    destruct (decide (2 <= length arr)%nat) as [Hn|Hn]; [by apply load_str_with_sep|].
    destruct arr as [|r0 [|r1 arr]]; [done | | simpl in Hn; lia].
    apply Forall_cons in Hrows as [[Hl0 _] _].
    destruct r0 as [|z [|z' r0]]; [done | | done].
    change (table_text [c] [[z]]) with (table_text [] [[z]]).
    apply load_str_digits_only; [done | done |]. simpl in Hsq. nia. }
  assert (Hstrip : PyInt.strip (ws1 ++ table_text sep arr ++ ws2) = table_text sep arr).
  { apply strip_digit_ended; [|done|done]. apply table_text_digit_ended; [done|].
    eapply Forall_impl; [exact Hrows|]. intros row [Hl Hr]. split.
    - intros ->. destruct arr; [done | simpl in Hl; lia].
    - eapply Forall_impl; [exact Hr|]. intros z Hz. simpl in Hz. lia. }
  split_and!; [done | |].
  - unfold load_file. by rewrite Hstrip.
  - unfold Sudoku_from_file, load_file. by rewrite Hstrip, Hload.
Qed.

Lemma load_str_round_trip_witness :
  (validate_array (map (map PyInt) grid_guess) = Returned 2
   /\ grid_guess <> []
   /\ ([COMMA] = [TAB] \/ [COMMA] = [COMMA] \/ ([COMMA] = [] /\ 2 <= 3))
   /\ Forall (fun a => PyInt.is_space a = true) [" "%char]
   /\ Forall (fun a => PyInt.is_space a = true) [NEWLINE])
  /\ load_str (table_text [COMMA] grid_guess) = Returned (grid_guess, 2)
  /\ load_file ([" "%char] ++ table_text [COMMA] grid_guess ++ [NEWLINE])
     = Returned (grid_guess, 2)
  /\ Sudoku_from_file ([" "%char] ++ table_text [COMMA] grid_guess ++ [NEWLINE])
     = Sudoku.init (map (map PyInt) grid_guess).
Proof.
  assert (H1 : validate_array (map (map PyInt) grid_guess) = Returned 2)
    by (vm_compute; reflexivity).
  assert (H2 : grid_guess <> []) by discriminate.
  assert (H3 : [COMMA] = [TAB] \/ [COMMA] = [COMMA] \/ ([COMMA] = [] /\ 2 <= 3))
    by (right; left; reflexivity).
  assert (H4 : Forall (fun a => PyInt.is_space a = true) [" "%char])
    by (constructor; [reflexivity | constructor]).
  assert (H5 : Forall (fun a => PyInt.is_space a = true) [NEWLINE])
    by (constructor; [reflexivity | constructor]).
  split; [exact (conj H1 (conj H2 (conj H3 (conj H4 H5))))|].
  exact (load_str_round_trip [COMMA] [" "%char] [NEWLINE] grid_guess 2 H1 H2 H3 H4 H5).
Defined.

(** ** A text that ends in a newline *)

Lemma split_trailing sep s : split sep (s ++ [sep]) = split sep s ++ [[]].
Proof.
  induction s as [|a s IH]; simpl.
  - by rewrite Ascii.eqb_refl.
  - rewrite IH. destruct (Ascii.eqb a sep); [done|].
    pose proof (split_nonempty sep s) as Hne. by destruct (split sep s).
Qed.

Lemma split_row_empty arr_str : (length (split_row arr_str []) <= 1)%nat.
Proof.
  unfold split_row. destruct (contains TAB arr_str); [simpl; lia|].
  destruct (contains COMMA arr_str); simpl; lia.
Qed.

(** X18. [load_str] does not take a text that ends in a newline: the empty
    last line gives a row of at most one number in an array of at least two
    rows, so the call never returns; it raises [ValueError] or
    [AssertionError].  ([load_file] strips the text first.) *)
Theorem load_str_trailing_newline (s : list ascii) :
  exists e, load_str (s ++ [NEWLINE]) = Raised e
            /\ (e = ValueError \/ exists msg, e = AssertionError msg).
Proof.
  destruct (load_str (s ++ [NEWLINE])) as [[arr order]|e] eqn:Hl.
  - exfalso. apply load_str_Returned in Hl as [Hc Ev].
    apply collect_Returned in Hc. rewrite split_trailing, fmap_app in Hc.
    destruct (validated_table arr order Ev) as [_ Hrows].
    assert (Hne : arr <> []).
    { intros ->. by apply app_eq_nil in Hc as [_ ?]. }
    destruct (exists_last Hne) as (arr0 & rlast & ->).
    rewrite fmap_app in Hc. apply app_inj_tail in Hc as [H0 Hlast].
    apply (f_equal length) in H0. rewrite !length_fmap in H0.
    apply collect_Returned, (f_equal length) in Hlast.
    rewrite !length_fmap in Hlast.
    pose proof (split_row_empty (s ++ [NEWLINE])) as Hle.
    apply Forall_app in Hrows as [_ Hr]. apply Forall_cons in Hr as [[Hlen _] _].
    rewrite length_app in Hlen. simpl in Hlen.
    pose proof (split_nonempty NEWLINE s) as Hs.
    destruct (split NEWLINE s); [done|]. simpl in H0. lia.
  - exists e. split; [done|]. by apply (load_str_raises _ _ Hl).
Qed.

(** ** The callback *)

Section Search_callback.

Variable rec1 rec2 : Sudoku.store -> nat -> option (Sudoku.store * result nat).
Hypothesis rec_frame : forall h r h' res,
  rec1 h r = Some (h', res) ->
  h `prefix_of` h' /\ forall r', res = Returned r' -> (length h <= r' < length h')%nat.
Hypothesis rec_same : forall (h : Sudoku.store) r cells,
  h !! r = Some cells -> cells <> [] -> rec1 h r = rec2 h r.

Lemma solve_loop_same new idx ps (h : Sudoku.store) cells :
  h !! new = Some cells -> cells <> [] ->
  Sudoku.solve_loop rec1 new idx ps h = Sudoku.solve_loop rec2 new idx ps h.
Proof.
  intros Hn Hne. revert h Hn. induction ps as [|p ps IH]; intros h Hn; simpl; [done|].
  rewrite (deepcopy_lookup _ _ _ Hn). simpl.
  destruct (Sudoku.assign _ _ _ _) as [[h2 set]|] eqn:Ea; [|done]. simpl.
  apply assign_Some in Ea as (cells0 & cell & Hl & Hc & Hres).
  rewrite lookup_app_r, Nat.sub_diag in Hl; [|done]. simpl in Hl. inversion Hl; subst cells0.
  destruct Hres as [(-> & _ & ->)|(-> & Hp & ->)]; [done|].
  rewrite store_insert_fresh.
  rewrite <- (rec_same _ (length h) (<[idx := Cell.with_possibilities cell [p]]> cells)).
  - destruct (rec1 _ (length h)) as [[h3 r3]|] eqn:Er; [|done].
    apply rec_frame in Er as [Hp3 _].
    destruct r3 as [r3|[]]; try done.
    apply IH. eapply prefix_lookup_Some; [done|]. etrans; [|done]. by apply prefix_app_r.
  - rewrite lookup_app_r, Nat.sub_diag; [|done]. done.
  - intros E. apply (f_equal length) in E. rewrite length_insert in E.
    by destruct cells.
Qed.

End Search_callback.

(** X19. Passing a callback changes nothing in what [solve] does on a state
    with at least one cell: the same objects are allocated and the same result
    is returned or raised, at every depth.  (The callback is one that returns
    normally; [progress] is defined on every state the search reaches.) *)
Theorem solve_callback_same fuel (h : Sudoku.store) self cells :
  h !! self = Some cells -> cells <> [] ->
  Sudoku.solve fuel true h self = Sudoku.solve fuel false h self.
Proof.
  revert h self cells. induction fuel as [|fuel IH]; intros h self cells Hs Hne; [done|].
  rewrite !(solve_unfold _ _ _ _ _ Hs).
  destruct (Sudoku._easy_step (S fuel) cells) as [[cells' ret]|] eqn:Ee; [|done].
  destruct ret as [ret|e]; [|done].
  apply easy_step_shrinks in Ee as [Hsh%shrinks_length _].
  assert (Hne' : cells' <> []).
  { intros ->. by destruct cells. }
  destruct (progress_nonempty cells' Hne') as (q & -> & _).
  destruct ret as [[idx ps]|]; [|done].
  apply (solve_loop_same _ _ (solve_frame fuel true) IH _ _ _ _ cells'); [|done].
  rewrite lookup_app_r, Nat.sub_diag; [|done]. done.
Qed.

Lemma solve_callback_same_witness :
  ([cells_of grid_guess] !! 0%nat = Some (cells_of grid_guess)
   /\ cells_of grid_guess <> [])
  /\ Sudoku.solve 65 true [cells_of grid_guess] 0
     = Sudoku.solve 65 false [cells_of grid_guess] 0.
Proof.
  assert (H1 : [cells_of grid_guess] !! 0%nat = Some (cells_of grid_guess)) by reflexivity.
  assert (H2 : cells_of grid_guess <> []) by (vm_compute; discriminate).
  split; [exact (conj H1 H2)|].
  exact (solve_callback_same 65 [cells_of grid_guess] 0 (cells_of grid_guess) H1 H2).
Defined.
